(** * Cache simulator: a shallow embedding of [cache.c] and [main.c]

    The development follows the C sources of the write-back, write-allocate,
    LRU cache simulator.  C [int] values are integers of [Z] with the 32-bit
    two's-complement wrap-around written out, [unsigned long] values are
    64-bit.  The heap object [Cache] is passed explicitly: a function that
    mutates the cache through its pointer returns the new cache. *)

From Stdlib Require Import ZArith Ascii Lia List.
From Stdlib Require String.
Import String.StringSyntax.
From stdpp Require Import base tactics option list list_numbers.

Local Open Scope Z_scope.
Delimit Scope string_scope with string.

(** ** Machine integers *)

Module CInt.

(** Value of a mathematical integer once stored in a C [int]. *)
Definition int_wrap (z : Z) : Z := (z + 2 ^ 31) mod 2 ^ 32 - 2 ^ 31.

(** Value of an integer converted to [unsigned long]. *)
Definition ulong_wrap (z : Z) : Z := z mod 2 ^ 64.

Definition int_range (z : Z) : Prop := - 2 ^ 31 <= z < 2 ^ 31.
Definition ulong_range (z : Z) : Prop := 0 <= z < 2 ^ 64.

(** [a / b] on [int]: truncating division, a trap when [b] is zero. *)
Definition int_div (a b : Z) : option Z :=
  if b =? 0 then None else Some (int_wrap (Z.quot a b)).

End CInt.
Export CInt.

(** ** Data model ([cache.h]) *)

Record CacheStats := mkStats {
  hits : Z;
  misses : Z;
  dirty_write_backs : Z
}.

Record CacheLine := mkLine {
  tag : Z;
  is_valid : bool;
  is_dirty : bool;
  lru_order : Z
}.

Record CacheSet := mkSet {
  lines : list CacheLine
}.

Record Cache := mkCache {
  associativity : Z;
  cache_size : Z;
  line_size : Z;
  miss_penalty : Z;
  dirty_wb_penalty : Z;
  num_sets : Z;
  sets : list CacheSet;
  stats : CacheStats;
  log_line_size : Z;
  log_num_sets : Z
}.

Record CacheOp := mkOp {
  access_type : ascii;
  address : Z;
  instructions : Z
}.

(** What a call of [access_cache] (or a replay of several) ends in:
    a normal return, the [exit(EXIT_FAILURE)] of the range check, or a read
    or write outside an allocated array (undefined behaviour in C). *)
Inductive result (A : Type) : Type :=
  | Return (a : A)
  | Exit
  | Fault.
Arguments Return {A} a.
Arguments Exit {A}.
Arguments Fault {A}.

(** ** Field updates *)

Definition with_lru (l : CacheLine) (o : Z) : CacheLine :=
  mkLine (tag l) (is_valid l) (is_dirty l) o.

Definition with_dirty (l : CacheLine) (d : bool) : CacheLine :=
  mkLine (tag l) (is_valid l) d (lru_order l).

Definition with_sets (c : Cache) (ss : list CacheSet) : Cache :=
  mkCache (associativity c) (cache_size c) (line_size c) (miss_penalty c)
          (dirty_wb_penalty c) (num_sets c) ss (stats c)
          (log_line_size c) (log_num_sets c).

Definition with_stats (c : Cache) (st : CacheStats) : Cache :=
  mkCache (associativity c) (cache_size c) (line_size c) (miss_penalty c)
          (dirty_wb_penalty c) (num_sets c) (sets c) st
          (log_line_size c) (log_num_sets c).

Definition incr_hits (st : CacheStats) : CacheStats :=
  mkStats (int_wrap (hits st + 1)) (misses st) (dirty_write_backs st).

Definition incr_misses (st : CacheStats) : CacheStats :=
  mkStats (hits st) (int_wrap (misses st + 1)) (dirty_write_backs st).

Definition incr_dirty_write_backs (st : CacheStats) : CacheStats :=
  mkStats (hits st) (misses st) (int_wrap (dirty_write_backs st + 1)).

(** ** Array accesses

    [cache->sets[set_index]] with an [int] index, and
    [cache->sets[set_index].lines[i]] with a loop counter.  [None] is an
    access outside the array. *)

Definition nthZ {A : Type} (l : list A) (i : Z) : option A :=
  if i <? 0 then None else l !! Z.to_nat i.

Definition get_lines (c : Cache) (set_index : Z) : option (list CacheLine) :=
  lines <$> nthZ (sets c) set_index.

Definition put_lines (c : Cache) (set_index : Z) (ls : list CacheLine) : Cache :=
  with_sets c (<[Z.to_nat set_index := mkSet ls]> (sets c)).

Definition get_line (c : Cache) (set_index : Z) (i : nat) : option CacheLine :=
  ls ← get_lines c set_index; ls !! i.

Definition set_line (c : Cache) (set_index : Z) (i : nat) (l : CacheLine)
  : option Cache :=
  ls ← get_lines c set_index;
  _ ← ls !! i;
  Some (put_lines c set_index (<[i := l]> ls)).

(** ** Helper functions of [cache.c] *)

(** [allocate_cache_memory]: one array of [num_sets] sets and, for each
    set, one array of [associativity] lines.  A negative element count turns
    into a [size_t] no [malloc] can serve, and the function exits; any other
    request, one of zero bytes included, is taken to succeed. *)
Definition allocate_cache_memory (nsets ways : Z) : option unit :=
  if nsets <? 0 then None
  else if (0 <? nsets) && (ways <? 0) then None
  else Some tt.

(** [initialize_cache_lines]: the two nested loops write every line of
    every allocated set, line [j] getting rank [j]; the arrays are given
    with these first contents. *)
Definition initial_line (j : nat) : CacheLine :=
  mkLine 0 false false (Z.of_nat j).

Definition initial_set (ways : Z) : CacheSet :=
  mkSet (initial_line <$> seq 0 (Z.to_nat ways)).

Definition initialize_cache_lines (nsets ways : Z) : list CacheSet :=
  replicate (Z.to_nat nsets) (initial_set ways).

(** [log2]: [while (n >>= 1) log_value++;].  The loop does not end on a
    negative [n] (the arithmetic shift stays at [-1]); [fuel] bounds the
    number of iterations and [None] is an exhausted bound. *)
Fixpoint log2_loop (fuel : nat) (n log_value : Z) : option Z :=
  match fuel with
  | O => None
  | S fuel' =>
      let n' := Z.shiftr n 1 in
      if n' =? 0 then Some log_value
      else log2_loop fuel' n' (int_wrap (log_value + 1))
  end.

Definition log2_fuel : nat := 64.

Definition log2 (n : Z) : option Z := log2_loop log2_fuel n 0.

(** ** Construction *)

(** [None]: no cache is returned (division by zero, a [log2] that does not
    terminate, or a failed allocation). *)
Definition initialize_cache (associativity cache_size line_size
                             miss_penalty dirty_wb_penalty : Z) : option Cache :=
  let bytes := int_wrap (cache_size * 1024) in
  geom ← (if associativity =? 0 then
            a ← int_div bytes line_size; Some (a, 1)
          else if associativity =? 1 then
            n ← int_div bytes line_size; Some (1, n)
          else
            n ← int_div bytes (int_wrap (line_size * associativity));
            Some (associativity, n));
  let '(ways, nsets) := geom in
  lls ← log2 line_size;
  lns ← log2 nsets;
  _ ← allocate_cache_memory nsets ways;
  Some (mkCache ways cache_size line_size miss_penalty dirty_wb_penalty
                nsets (initialize_cache_lines nsets ways)
                (mkStats 0 0 0) lls lns).

Definition initialize_cache_operation (access_type : ascii) (address : Z)
                                      (instructions : Z) : CacheOp :=
  mkOp access_type address instructions.

(** ** Address extraction

    The shift counts are the stored logarithms.  C leaves a shift by a
    negative count or by 64 and more undefined; the functions below take
    the shift of [Z] there. *)

Definition extract_set_index (address : Z) (c : Cache) : Z :=
  if num_sets c =? 1 then 0
  else
    let mask := int_wrap (int_wrap (Z.shiftl 1 (log_num_sets c)) - 1) in
    int_wrap (Z.land (Z.shiftr address (log_line_size c)) (ulong_wrap mask)).

Definition extract_tag_number (address : Z) (c : Cache) : Z :=
  int_wrap (Z.shiftr address (int_wrap (log_line_size c + log_num_sets c))).

(** ** LRU handling *)

Fixpoint update_lru_loop (n i : nat) (c : Cache) (set_index : Z)
                         (target_order : Z) : option Cache :=
  match n with
  | O => Some c
  | S n' =>
      l ← get_line c set_index i;
      c' ← (if lru_order l <? target_order
            then set_line c set_index i (with_lru l (int_wrap (lru_order l + 1)))
            else Some c);
      update_lru_loop n' (S i) c' set_index target_order
  end.

Definition update_lru_order (c : Cache) (set_index : Z) (line_index : nat)
  : option Cache :=
  l ← get_line c set_index line_index;
  let target_order := lru_order l in
  c1 ← update_lru_loop (Z.to_nat (associativity c)) 0 c set_index target_order;
  l1 ← get_line c1 set_index line_index;
  set_line c1 set_index line_index (with_lru l1 0).

Fixpoint find_lru_loop (n i : nat) (c : Cache) (set_index : Z)
                       (max_order : Z) (lru_index : nat) : option nat :=
  match n with
  | O => Some lru_index
  | S n' =>
      l ← get_line c set_index i;
      if negb (is_valid l) then Some i
      else if lru_order l >? max_order
           then find_lru_loop n' (S i) c set_index (lru_order l) i
           else find_lru_loop n' (S i) c set_index max_order lru_index
  end.

Definition find_lru_line_index (c : Cache) (set_index : Z) : option nat :=
  find_lru_loop (Z.to_nat (associativity c)) 0 c set_index 0 0%nat.

(** ** Access *)

Definition is_store (op : CacheOp) : bool :=
  Ascii.eqb (access_type op) "s"%char.

(** [cache_set] always points at [cache->sets[set_index]]; the alias is
    kept by addressing the set through [set_index]. *)
Fixpoint is_cache_hit_loop (n i : nat) (c : Cache) (op : CacheOp)
                           (set_index : Z) (tg : Z) : option (Cache * bool) :=
  match n with
  | O => Some (c, false)
  | S n' =>
      l ← get_line c set_index i;
      if is_valid l && (tag l =? tg) then
        c1 ← update_lru_order c set_index i;
        c2 ← (if is_store op
              then l1 ← get_line c1 set_index i;
                   set_line c1 set_index i (with_dirty l1 true)
              else Some c1);
        Some (with_stats c2 (incr_hits (stats c2)), true)
      else is_cache_hit_loop n' (S i) c op set_index tg
  end.

Definition is_cache_hit (c : Cache) (op : CacheOp) (set_index : Z) (tg : Z)
  : option (Cache * bool) :=
  is_cache_hit_loop (Z.to_nat (associativity c)) 0 c op set_index tg.

Definition handle_cache_miss (c : Cache) (op : CacheOp) (set_index : Z) (tg : Z)
  : option Cache :=
  let c0 := with_stats c (incr_misses (stats c)) in
  lru_index ← find_lru_line_index c0 set_index;
  lru_line ← get_line c0 set_index lru_index;
  let c1 := if is_dirty lru_line
            then with_stats c0 (incr_dirty_write_backs (stats c0))
            else c0 in
  c2 ← set_line c1 set_index lru_index
          (mkLine tg true (is_store op) (lru_order lru_line));
  update_lru_order c2 set_index lru_index.

Definition access_cache (c : Cache) (op : CacheOp) : result (Cache * bool) :=
  let set_index := extract_set_index (address op) c in
  if set_index >? num_sets c then Exit
  else
    let tg := extract_tag_number (address op) c in
    match is_cache_hit c op set_index tg with
    | None => Fault
    | Some (c1, true) => Return (c1, true)
    | Some (c1, false) =>
        match handle_cache_miss c1 op set_index tg with
        | None => Fault
        | Some c2 => Return (c2, false)
        end
    end.

Definition get_cache_hits (c : Cache) : Z := hits (stats c).
Definition get_cache_misses (c : Cache) : Z := misses (stats c).
Definition get_dirty_write_backs (c : Cache) : Z := dirty_write_backs (stats c).

(** ** The caller ([main.c]) *)

Definition is_pow2 (n : Z) : bool :=
  (n >? 0) && (Z.land n (int_wrap (n - 1)) =? 0).

(** The divisions of [validate_args] come after the check [line_size <= 0],
    so their divisor is never zero there; [Z.quot] and [Z.rem] are C's
    truncating [/] and [%]. *)
Definition validate_args (associativity line_size cache_size
                          miss_penalty dirty_wb_penalty : Z) : bool :=
  if (associativity <? 0) || (line_size <=? 0) || (cache_size <=? 0)
     || (miss_penalty <=? 0) || (dirty_wb_penalty <=? 0) then false
  else if negb (associativity =? 0) && negb (associativity =? 1)
          && negb (is_pow2 associativity) then false
  else if negb (is_pow2 line_size) || negb (is_pow2 cache_size) then false
  else if int_wrap (cache_size * 1024) <? line_size then false
  else if negb (int_wrap (Z.rem (int_wrap (cache_size * 1024)) line_size) =? 0)
       then false
  else if associativity
          >? int_wrap (Z.quot (int_wrap (cache_size * 1024)) line_size)
       then false
  else true.

(** The replay loop of [simulate_cache]: one [access_cache] per trace
    record, in order; the outcomes are collected oldest first. *)
Fixpoint run_trace (c : Cache) (ops : list CacheOp)
  : result (Cache * list bool) :=
  match ops with
  | [] => Return (c, [])
  | op :: rest =>
      match access_cache c op with
      | Return (c1, h) =>
          match run_trace c1 rest with
          | Return (c2, hs) => Return (c2, h :: hs)
          | Exit => Exit
          | Fault => Fault
          end
      | Exit => Exit
      | Fault => Fault
      end
  end.

(** ** Trace replay ([main.c]) *)

Record TraceStats := mkTrace {
  memory_access_count : Z;
  load_count : Z;
  store_count : Z;
  instruction_count : Z;
  cycle_count : Z
}.

(** [process_trace_line].  The message printed for an unrecognised
    operation has no effect on the state; the access is simulated all the
    same. *)
Definition process_trace_line (access_type : ascii) (address instructions : Z)
                              (c : Cache) (ts : TraceStats)
  : result (Cache * TraceStats) :=
  let cache_op := initialize_cache_operation access_type address instructions in
  let ts1 :=
    if Ascii.eqb access_type "l"%char then
      mkTrace (memory_access_count ts) (int_wrap (load_count ts + 1))
              (store_count ts) (instruction_count ts) (cycle_count ts)
    else if Ascii.eqb access_type "s"%char then
      mkTrace (memory_access_count ts) (load_count ts)
              (int_wrap (store_count ts + 1)) (instruction_count ts)
              (cycle_count ts)
    else ts in
  match access_cache c cache_op with
  | Return (c1, hit) =>
      let cycles :=
        if hit then cycle_count ts1
        else int_wrap (cycle_count ts1 + miss_penalty c1) in
      Return (c1,
              mkTrace (int_wrap (memory_access_count ts1 + 1))
                      (load_count ts1) (store_count ts1)
                      (int_wrap (instruction_count ts1 + instructions))
                      (int_wrap (cycles + instructions)))
  | Exit => Exit
  | Fault => Fault
  end.

(** The reading loop of [simulate_cache]: [records] are the triples the
    successive [fscanf] calls deliver before the end of the file. *)
Fixpoint simulate_loop (c : Cache) (ts : TraceStats) (records : list CacheOp)
  : result (Cache * TraceStats) :=
  match records with
  | [] => Return (c, ts)
  | r :: rest =>
      match process_trace_line (access_type r) (address r) (instructions r)
                               c ts with
      | Return (c1, ts1) => simulate_loop c1 ts1 rest
      | Exit => Exit
      | Fault => Fault
      end
  end.

(** [simulate_cache] on an opened trace file, up to the printing: the
    statistics start at zero and the cycles of the dirty write-backs are
    added at the end.  The miss rate, a [float], is left out. *)
Definition simulate_cache (c : Cache) (records : list CacheOp)
  : result (Cache * TraceStats) :=
  match simulate_loop c (mkTrace 0 0 0 0 0) records with
  | Return (c1, ts) =>
      let dirty_wb_count := get_dirty_write_backs c1 in
      Return (c1,
              mkTrace (memory_access_count ts) (load_count ts)
                      (store_count ts) (instruction_count ts)
                      (int_wrap (cycle_count ts
                                 + int_wrap (dirty_wb_count
                                             * dirty_wb_penalty c1))))
  | Exit => Exit
  | Fault => Fault
  end.

(** ** Command line ([main.c]) *)

(** The five settings [set_cache_configuration] collects, with the defaults
    of the [enum]. *)
Record Config := mkConfig {
  cfg_associativity : Z;
  cfg_line_size : Z;
  cfg_cache_size : Z;
  cfg_miss_penalty : Z;
  cfg_dirty_wb_penalty : Z
}.

Definition default_config : Config := mkConfig 1 16 16 30 2.

Section CommandLine.

(** [atoi] of the C library. *)
Variable atoi : String.string → Z.

(** The option loop [for (i = 1; i < argc - 1; i++)] over
    [argv[1 .. argc-1]]: it runs while the current argument has a successor,
    reads the successor as the value (the [++i] of the body) and goes on
    behind it.  [None] is the exit on an invalid option. *)
Fixpoint parse_options (args : list String.string) (cfg : Config)
  : option Config :=
  match args with
  | flag :: value :: rest =>
      if String.eqb flag "-a"%string then
        parse_options rest
          (mkConfig (atoi value) (cfg_line_size cfg) (cfg_cache_size cfg)
                    (cfg_miss_penalty cfg) (cfg_dirty_wb_penalty cfg))
      else if String.eqb flag "-l"%string then
        parse_options rest
          (mkConfig (cfg_associativity cfg) (atoi value) (cfg_cache_size cfg)
                    (cfg_miss_penalty cfg) (cfg_dirty_wb_penalty cfg))
      else if String.eqb flag "-s"%string then
        parse_options rest
          (mkConfig (cfg_associativity cfg) (cfg_line_size cfg) (atoi value)
                    (cfg_miss_penalty cfg) (cfg_dirty_wb_penalty cfg))
      else if String.eqb flag "-p"%string then
        parse_options rest
          (mkConfig (cfg_associativity cfg) (cfg_line_size cfg)
                    (cfg_cache_size cfg) (atoi value)
                    (cfg_dirty_wb_penalty cfg))
      else if String.eqb flag "-d"%string then
        parse_options rest
          (mkConfig (cfg_associativity cfg) (cfg_line_size cfg)
                    (cfg_cache_size cfg) (cfg_miss_penalty cfg) (atoi value))
      else None
  | _ => Some cfg
  end.

(** [set_cache_configuration], up to the printing of the settings.  [None]:
    the program exits (invalid option, rejected arguments) or the
    construction does not return. *)
Definition set_cache_configuration (argv : list String.string) : option Cache :=
  cfg ← parse_options (tail argv) default_config;
  if validate_args (cfg_associativity cfg) (cfg_line_size cfg)
                   (cfg_cache_size cfg) (cfg_miss_penalty cfg)
                   (cfg_dirty_wb_penalty cfg)
  then initialize_cache (cfg_associativity cfg) (cfg_cache_size cfg)
                        (cfg_line_size cfg) (cfg_miss_penalty cfg)
                        (cfg_dirty_wb_penalty cfg)
  else None.

End CommandLine.

(** * Definitions for the statements

    The loops of [cache.c] read as list functions, the invariants of a set
    and of the cache, and the vocabulary of the theorems below. *)

(** One round of the ageing loop on one line. *)
Definition age (target_order : Z) (l : CacheLine) : CacheLine :=
  if lru_order l <? target_order
  then with_lru l (int_wrap (lru_order l + 1)) else l.

(** What [update_lru_order] leaves in the line array. *)
Definition promoted (ls : list CacheLine) (i : nat) (l : CacheLine)
  : list CacheLine :=
  <[i := with_lru l 0]> (age (lru_order l) <$> ls).

(** The scan of [find_lru_line_index] over a line array. *)
Fixpoint victim_from (ls : list CacheLine) (i : nat) (max_order : Z)
                     (lru_index : nat) : nat :=
  match ls with
  | [] => lru_index
  | l :: rest =>
      if negb (is_valid l) then i
      else if lru_order l >? max_order
           then victim_from rest (S i) (lru_order l) i
           else victim_from rest (S i) max_order lru_index
  end.

Definition victim (ls : list CacheLine) : nat := victim_from ls 0 0 0%nat.

(** The test of the hit scan. *)
Definition matches (tg : Z) (l : CacheLine) : Prop :=
  is_valid l && (tag l =? tg) = true.

#[local] Instance matches_dec tg l : Decision (matches tg l).
Proof. unfold matches. apply _. Defined.

(** Line arrays after a hit on line [j], and after a miss filling line [v]. *)
Definition hit_lines (store : bool) (ls : list CacheLine) (j : nat)
                     (l : CacheLine) : list CacheLine :=
  if store then <[j := with_dirty (with_lru l 0) true]> (promoted ls j l)
  else promoted ls j l.

Definition miss_lines (store : bool) (tg : Z) (ls : list CacheLine) (v : nat)
                      (lv : CacheLine) : list CacheLine :=
  let filled := mkLine tg true store (lru_order lv) in
  promoted (<[v := filled]> ls) v filled.

(** One access seen from the addressed set: the new line array, whether it
    was a hit, and whether a dirty line was written back. *)
Definition set_access (store : bool) (tg : Z) (ls : list CacheLine)
  : option (list CacheLine * bool * bool) :=
  match list_find (matches tg) ls with
  | Some (j, l) => Some (hit_lines store ls j l, true, false)
  | None =>
      lv ← ls !! victim ls;
      Some (miss_lines store tg ls (victim ls) lv, false, is_dirty lv)
  end.

(** The statistics after one access. *)
Definition account (hit wb : bool) (st : CacheStats) : CacheStats :=
  if hit then incr_hits st
  else if wb then incr_dirty_write_backs (incr_misses st)
  else incr_misses st.

(** Associativity, cache size (in KB) and line size are C [int]s that pass
    the checks of [validate_args]; the two penalties, checked alongside, do
    not shape the cache and are given a passing value. *)
Definition valid_geometry (a s l : Z) : Prop :=
  int_range a ∧ int_range s ∧ int_range l ∧ validate_args a l s 1 1 = true.

(** Geometry of a cache whose sizes are powers of two and whose logarithms
    are the precomputed ones. *)
Definition geometry_ok (c : Cache) : Prop :=
  ∃ li x y,
    0 <= li ∧ 0 <= x ∧ 0 <= y ∧ li + x + y <= 30 ∧
    line_size c = 2 ^ li ∧ num_sets c = 2 ^ x ∧ associativity c = 2 ^ y ∧
    log_line_size c = li ∧ log_num_sets c = x ∧
    cache_size c * 1024 = 2 ^ (li + x + y).

(** The invariant of one set, of which [k] lines have been filled: they are
    the lines [0 .. k-1], their ranks are pairwise different and below [k],
    and a line never filled still has the rank and the clean flag it was
    initialised with. *)
Record set_inv (k : nat) (ls : list CacheLine) : Prop := {
  inv_fill : (k <= length ls)%nat;
  inv_small : Z.of_nat (length ls) < 2 ^ 31;
  inv_valid : ∀ i l, ls !! i = Some l → is_valid l = bool_decide (i < k)%nat;
  inv_cold : ∀ i l, ls !! i = Some l → (k <= i)%nat →
                    lru_order l = Z.of_nat i ∧ is_dirty l = false;
  inv_rank : ∀ i l, ls !! i = Some l → (i < k)%nat →
                    0 <= lru_order l < Z.of_nat k;
  inv_inj : ∀ i j li lj, ls !! i = Some li → ls !! j = Some lj →
                         (i < k)%nat → (j < k)%nat →
                         lru_order li = lru_order lj → i = j
}.

(** The ranks held by the valid lines of a set, in line order. *)
Definition valid_ranks (s : CacheSet) : list Z :=
  lru_order <$> List.filter is_valid (lines s).

(** The ranks of the valid lines are [0 .. k-1], each once, for [k] valid
    lines. *)
Definition dense_ranks (s : CacheSet) : Prop :=
  valid_ranks s ≡ₚ seqZ 0 (Z.of_nat (length (valid_ranks s))).

(** The invariant of the cache: a validated geometry, [num_sets] sets of
    [associativity] lines, each set with its invariant. *)
Definition cache_inv (c : Cache) : Prop :=
  geometry_ok c ∧
  length (sets c) = Z.to_nat (num_sets c) ∧
  Forall (λ s, length (lines s) = Z.to_nat (associativity c) ∧
               ∃ k, set_inv k (lines s)) (sets c).

(** A cache is reachable when it is what a replay leaves of a cache built
    from validated arguments. *)
Definition reachable (c : Cache) : Prop :=
  ∃ a s l p d c0 ops hs,
    valid_geometry a s l ∧
    initialize_cache a s l p d = Some c0 ∧
    run_trace c0 ops = Return (c, hs).

(** The set index and the tag as the specification words them. *)
Definition spec_set_index (address line_size num_sets : Z) : Z :=
  if num_sets =? 1 then 0
  else Z.land (Z.shiftr address (Z.log2 line_size)) (num_sets - 1).

Definition spec_tag (address line_size num_sets : Z) : Z :=
  Z.shiftr address (Z.log2 line_size + Z.log2 num_sets).

(** Everything but the line arrays and the statistics. *)
Definition same_geometry (c c' : Cache) : Prop :=
  associativity c' = associativity c ∧ cache_size c' = cache_size c ∧
  line_size c' = line_size c ∧ miss_penalty c' = miss_penalty c ∧
  dirty_wb_penalty c' = dirty_wb_penalty c ∧ num_sets c' = num_sets c ∧
  log_line_size c' = log_line_size c ∧ log_num_sets c' = log_num_sets c.

(** [c'] differs from [c] at most in set [si] and in the statistics. *)
Definition frame (si : Z) (c c' : Cache) : Prop :=
  same_geometry c c' ∧
  length (sets c') = length (sets c) ∧
  ∀ j, j ≠ Z.to_nat si → sets c' !! j = sets c !! j.

(** Three stores to consecutive 16-byte blocks, and to consecutive
    512-byte blocks. *)
Definition scenario_16 : list CacheOp :=
  [mkOp "s" 0x00 1; mkOp "s" 0x10 1; mkOp "s" 0x20 1].

Definition scenario_512 : list CacheOp :=
  [mkOp "s" 0x000 1; mkOp "s" 0x200 1; mkOp "s" 0x400 1].

(** History variable of a replay: for every line of every set, the access
    types that touched the block now resident in the line, newest first,
    beginning with the miss that filled it. *)
Abbreviation history := (list (list (list ascii))).

Definition is_s (k : ascii) : bool := Ascii.eqb k "s"%char.

Definition initial_history (c : Cache) : history :=
  (λ s, (λ _, []) <$> lines s) <$> sets c.

(** The line an access touches: the line the hit scan stops at, or else the
    line [find_lru_line_index] hands to the miss. *)
Definition touched_line (c : Cache) (op : CacheOp) : option (nat * bool) :=
  let si := extract_set_index (address op) c in
  let tg := extract_tag_number (address op) c in
  ls ← get_lines c si;
  match list_find (matches tg) ls with
  | Some (j, _) => Some (j, true)
  | None => v ← find_lru_line_index c si; Some (v, false)
  end.

Definition record_access (c : Cache) (op : CacheOp) (hist : history)
  : history :=
  let si := Z.to_nat (extract_set_index (address op) c) in
  match touched_line c op with
  | Some (j, true) => alter (alter (cons (access_type op)) j) si hist
  | Some (v, false) => alter (<[v := [access_type op]]>) si hist
  | None => hist
  end.

Fixpoint run_history (c : Cache) (hist : history) (ops : list CacheOp)
  : result (Cache * history) :=
  match ops with
  | [] => Return (c, hist)
  | op :: rest =>
      match access_cache c op with
      | Return (c', _) => run_history c' (record_access c op hist) rest
      | Exit => Exit
      | Fault => Fault
      end
  end.

(** Was the block resident in line [v] of set [si] stored to? *)
Definition stored_to (hist : history) (si : Z) (v : nat) : bool :=
  match hist !! Z.to_nat si ≫= (.!! v) with
  | Some h => existsb is_s h
  | None => false
  end.

(** The dirty flag of every line tells whether its history has a store. *)
Definition dirty_hist (ls : list CacheLine) (g : list (list ascii)) : Prop :=
  length g = length ls ∧
  ∀ i l h, ls !! i = Some l → g !! i = Some h → is_dirty l = existsb is_s h.

(** The same for every set of the cache. *)
Definition hist_inv (c : Cache) (hist : history) : Prop :=
  length hist = length (sets c) ∧
  ∀ n s g, sets c !! n = Some s → hist !! n = Some g → dirty_hist (lines s) g.

(** The number of hits and of misses among the outcomes of a replay. *)
Definition count_hits (hs : list bool) : Z :=
  Z.of_nat (length (List.filter (λ h, h) hs)).

Definition count_misses (hs : list bool) : Z :=
  Z.of_nat (length (List.filter negb hs)).

(** No two valid lines of a set hold the same tag. *)
Definition distinct_tags (ls : list CacheLine) : Prop :=
  ∀ i j li lj, ls !! i = Some li → ls !! j = Some lj →
               is_valid li = true → is_valid lj = true →
               tag li = tag lj → i = j.

(** No line of the cache is dirty. *)
Definition all_clean (c : Cache) : Prop :=
  Forall (λ s, Forall (λ l, is_dirty l = false) (lines s)) (sets c).

(** The trace records of one access type, and the instructions of a trace. *)
Definition count_type (k : ascii) (records : list CacheOp) : Z :=
  Z.of_nat (length (List.filter (λ r, Ascii.eqb (access_type r) k) records)).

Definition total_instructions (records : list CacheOp) : Z :=
  foldr (λ r acc, instructions r + acc) 0 records.

(** The five options of the command line, and a configuration whose
    settings are C [int]s. *)
Definition option_flags : list String.string :=
  ["-a"; "-l"; "-s"; "-p"; "-d"]%string.

Definition config_range (cfg : Config) : Prop :=
  int_range (cfg_associativity cfg) ∧ int_range (cfg_line_size cfg) ∧
  int_range (cfg_cache_size cfg) ∧ int_range (cfg_miss_penalty cfg) ∧
  int_range (cfg_dirty_wb_penalty cfg).

(** [atoi] on a single decimal digit. *)
Definition atoi_digit (s : String.string) : Z :=
  match s with
  | String.String ch String.EmptyString => Z.of_N (N_of_ascii ch) - 48
  | _ => 0
  end.

(** * Tactics *)

(** Closed goals about concrete caches are settled by evaluation. *)
Ltac by_evaluation := vm_compute; reflexivity.

(** Concrete arguments are in range and pass [validate_args]. *)
Ltac geometry_is_valid :=
  unfold valid_geometry, int_range; split_and!; first [lia | by_evaluation].

(** Membership in a list given by its elements. *)
Ltac is_a_flag :=
  repeat first [apply list_elem_of_here | apply list_elem_of_further].

(** * Array accesses: algebra of [get_lines] and [put_lines] *)

Section Arrays.
Implicit Types (c : Cache) (ls : list CacheLine) (l : CacheLine).

Lemma nthZ_Some {A} (xs : list A) (i : Z) (x : A) :
  nthZ xs i = Some x ↔ 0 <= i ∧ xs !! Z.to_nat i = Some x.
Proof.
  unfold nthZ. destruct (Z.ltb_spec i 0); split.
  - done.
  - intros [? _]. lia.
  - intros ?. split; [lia | done].
  - by intros [_ ?].
Qed.

Lemma get_lines_Some c si ls :
  get_lines c si = Some ls ↔
  0 <= si ∧ ∃ s, sets c !! Z.to_nat si = Some s ∧ lines s = ls.
Proof.
  unfold get_lines. split.
  - intros H. destruct (nthZ (sets c) si) as [s|] eqn:E; [|done].
    apply nthZ_Some in E as [? ?]. simplify_eq/=. eauto.
  - intros (? & s & Hs & <-).
    assert (nthZ (sets c) si = Some s) as -> by (apply nthZ_Some; done).
    done.
Qed.

Lemma get_lines_put_lines c si ls0 ls :
  get_lines c si = Some ls0 → get_lines (put_lines c si ls) si = Some ls.
Proof.
  intros (? & s & Hs & _)%get_lines_Some. apply get_lines_Some.
  split; [done|]. exists (mkSet ls). split; [|done]. simpl.
  apply list_lookup_insert_eq. by eapply lookup_lt_Some.
Qed.

Lemma put_lines_id c si ls : get_lines c si = Some ls → put_lines c si ls = c.
Proof.
  intros (? & s & Hs & <-)%get_lines_Some. unfold put_lines, with_sets.
  destruct s as [ls]. simpl. rewrite list_insert_id by done. by destruct c.
Qed.

Lemma put_lines_put_lines c si ls1 ls2 :
  put_lines (put_lines c si ls1) si ls2 = put_lines c si ls2.
Proof.
  unfold put_lines, with_sets. simpl. by rewrite list_insert_insert_eq.
Qed.

Lemma get_lines_with_stats c si st :
  get_lines (with_stats c st) si = get_lines c si.
Proof. done. Qed.

Lemma get_line_eq c si ls i :
  get_lines c si = Some ls → get_line c si i = ls !! i.
Proof. unfold get_line. by intros ->. Qed.

Lemma get_line_None c si i : get_lines c si = None → get_line c si i = None.
Proof. unfold get_line. by intros ->. Qed.

Lemma set_line_eq c si ls i l0 l :
  get_lines c si = Some ls → ls !! i = Some l0 →
  set_line c si i l = Some (put_lines c si (<[i := l]> ls)).
Proof. unfold set_line. intros -> Hl. simpl. by rewrite Hl. Qed.

(** Sets other than the addressed one are not touched by a store. *)
Lemma put_lines_other c si ls (j : nat) :
  j ≠ Z.to_nat si → sets (put_lines c si ls) !! j = sets c !! j.
Proof. intros ?. simpl. by apply list_lookup_insert_ne. Qed.

Lemma put_lines_length c si ls :
  length (sets (put_lines c si ls)) = length (sets c).
Proof. simpl. apply length_insert. Qed.

End Arrays.

(** * The loops as list transformers *)

Section Loops.
Implicit Types (c : Cache) (ls : list CacheLine) (l : CacheLine).

Lemma update_lru_loop_spec n : ∀ i c si t ls,
  get_lines c si = Some ls → length ls = (i + n)%nat →
  update_lru_loop n i c si t
  = Some (put_lines c si (take i ls ++ (age t <$> drop i ls))).
Proof.
  induction n as [|n IH]; intros i c si t ls Hg Hlen; simpl.
  - rewrite drop_ge, take_ge by lia. simpl. rewrite app_nil_r.
    by rewrite put_lines_id.
  - destruct (lookup_lt_is_Some_2 ls i) as [l Hl]; [lia|].
    rewrite (get_line_eq _ _ _ _ Hg), Hl. simpl.
    assert ((if lru_order l <? t
             then set_line c si i (with_lru l (int_wrap (lru_order l + 1)))
             else Some c)
            = Some (put_lines c si (<[i := age t l]> ls))) as ->.
    { unfold age. destruct (lru_order l <? t).
      - by erewrite set_line_eq.
      - by rewrite list_insert_id, put_lines_id. }
    simpl. erewrite IH; [| by eapply get_lines_put_lines
                         | rewrite length_insert; lia ].
    rewrite put_lines_put_lines. do 2 f_equal.
    rewrite take_insert_lt, drop_insert_lt by lia.
    erewrite take_S_r, (drop_S ls l i) by done.
    rewrite insert_app_r_alt; rewrite length_take; [|lia].
    replace (i - i `min` length ls)%nat with 0%nat by lia.
    simpl. by rewrite <- app_assoc.
Qed.

Lemma update_lru_order_spec c si ls i l :
  get_lines c si = Some ls →
  length ls = Z.to_nat (associativity c) →
  ls !! i = Some l →
  update_lru_order c si i = Some (put_lines c si (promoted ls i l)).
Proof.
  intros Hg Hlen Hl. unfold update_lru_order.
  rewrite (get_line_eq _ _ _ _ Hg), Hl. simpl.
  erewrite update_lru_loop_spec by (done || by rewrite Hlen).
  simpl. rewrite drop_0.
  assert (get_lines (put_lines c si (age (lru_order l) <$> ls)) si
          = Some (age (lru_order l) <$> ls)) as Hg'
    by (by eapply get_lines_put_lines).
  rewrite (get_line_eq _ _ _ _ Hg'), list_lookup_fmap, Hl. simpl.
  erewrite set_line_eq; [| done | by rewrite list_lookup_fmap, Hl].
  rewrite put_lines_put_lines. unfold promoted, age, with_lru.
  destruct (lru_order l <? lru_order l); done.
Qed.

End Loops.

Section Scans.
Implicit Types (c : Cache) (ls : list CacheLine) (l : CacheLine).

Lemma find_lru_loop_spec n : ∀ i c si m k ls,
  get_lines c si = Some ls → length ls = (i + n)%nat →
  find_lru_loop n i c si m k = Some (victim_from (drop i ls) i m k).
Proof.
  induction n as [|n IH]; intros i c si m k ls Hg Hlen; simpl.
  - by rewrite drop_ge by lia.
  - destruct (lookup_lt_is_Some_2 ls i) as [l Hl]; [lia|].
    rewrite (get_line_eq _ _ _ _ Hg), Hl, (drop_S ls l i) by done. simpl.
    destruct (negb (is_valid l)); [done|].
    destruct (lru_order l >? m); apply IH; (done || lia).
Qed.

Lemma find_lru_line_index_spec c si ls :
  get_lines c si = Some ls → length ls = Z.to_nat (associativity c) →
  find_lru_line_index c si = Some (victim ls).
Proof.
  intros Hg Hlen. unfold find_lru_line_index.
  erewrite find_lru_loop_spec by (done || by rewrite Hlen).
  by rewrite drop_0.
Qed.

Lemma is_cache_hit_loop_spec n : ∀ i c op si tg ls,
  get_lines c si = Some ls →
  length ls = Z.to_nat (associativity c) →
  length ls = (i + n)%nat →
  is_cache_hit_loop n i c op si tg
  = match list_find (matches tg) (drop i ls) with
    | Some (k, l) =>
        Some (with_stats
                (put_lines c si (hit_lines (is_store op) ls (i + k) l))
                (incr_hits (stats c)), true)
    | None => Some (c, false)
    end.
Proof.
  induction n as [|n IH]; intros i c op si tg ls Hg Hways Hlen; simpl.
  - by rewrite drop_ge by lia.
  - destruct (lookup_lt_is_Some_2 ls i) as [l Hl]; [lia|].
    rewrite (get_line_eq _ _ _ _ Hg), Hl, (drop_S ls l i) by done. simpl.
    destruct (decide (matches tg l)) as [Hm|Hm].
    + unfold matches in Hm. rewrite Hm. simpl.
      erewrite update_lru_order_spec by done. simpl.
      replace (i + 0)%nat with i by lia.
      assert (get_lines (put_lines c si (promoted ls i l)) si
              = Some (promoted ls i l)) as Hg'
        by (by eapply get_lines_put_lines).
      assert (promoted ls i l !! i = Some (with_lru l 0)) as Hp.
      { unfold promoted. apply list_lookup_insert_eq.
        rewrite length_fmap. by eapply lookup_lt_Some. }
      unfold hit_lines. destruct (is_store op); [|done].
      rewrite (get_line_eq _ _ _ _ Hg'), Hp. simpl.
      erewrite set_line_eq by done. simpl.
      by rewrite put_lines_put_lines.
    + unfold matches in Hm. apply not_true_is_false in Hm. rewrite Hm.
      rewrite (IH (S i) c op si tg ls) by (done || lia).
      destruct (list_find (matches tg) (drop (S i) ls)) as [[k l']|];
        simpl; [|done].
      by replace (S (i + k))%nat with (i + S k)%nat by lia.
Qed.

Lemma is_cache_hit_spec c op si tg ls :
  get_lines c si = Some ls →
  length ls = Z.to_nat (associativity c) →
  is_cache_hit c op si tg
  = match list_find (matches tg) ls with
    | Some (j, l) =>
        Some (with_stats (put_lines c si (hit_lines (is_store op) ls j l))
                         (incr_hits (stats c)), true)
    | None => Some (c, false)
    end.
Proof.
  intros Hg Hlen. unfold is_cache_hit.
  erewrite is_cache_hit_loop_spec by (done || by rewrite <- Hlen).
  by rewrite drop_0.
Qed.

Lemma handle_cache_miss_spec c op si tg ls lv :
  get_lines c si = Some ls →
  length ls = Z.to_nat (associativity c) →
  ls !! victim ls = Some lv →
  handle_cache_miss c op si tg
  = Some (with_stats
            (put_lines c si (miss_lines (is_store op) tg ls (victim ls) lv))
            (account false (is_dirty lv) (stats c))).
Proof.
  intros Hg Hlen Hv. unfold handle_cache_miss.
  erewrite find_lru_line_index_spec by done. simpl.
  rewrite (get_line_eq _ _ ls) by done. rewrite Hv. simpl.
  set (filled := mkLine tg true (is_store op) (lru_order lv)).
  assert (∀ c', get_lines c' si = Some ls →
                associativity c' = associativity c →
                (c2 ← set_line c' si (victim ls) filled;
                 update_lru_order c2 si (victim ls))
                = Some (put_lines c' si
                          (miss_lines (is_store op) tg ls (victim ls) lv)))
    as Hrest.
  { intros c' Hg' Ha. erewrite set_line_eq by done. simpl.
    erewrite update_lru_order_spec.
    - by rewrite put_lines_put_lines.
    - by eapply get_lines_put_lines.
    - rewrite length_insert. simpl. by rewrite Ha.
    - apply list_lookup_insert_eq. by eapply lookup_lt_Some. }
  destruct (is_dirty lv); simpl; by rewrite Hrest.
Qed.

(** One access of a cache whose addressed set exists and has
    [associativity] lines. *)
Lemma access_cache_spec c op ls :
  let si := extract_set_index (address op) c in
  let tg := extract_tag_number (address op) c in
  si <= num_sets c →
  get_lines c si = Some ls →
  length ls = Z.to_nat (associativity c) →
  access_cache c op
  = match set_access (is_store op) tg ls with
    | Some (ls', hit, wb) =>
        Return (with_stats (put_lines c si ls') (account hit wb (stats c)),
                hit)
    | None => Fault
    end.
Proof.
  intros si tg Hle Hg Hlen. unfold access_cache. fold si tg.
  destruct (Z.gtb_spec si (num_sets c)); [lia|].
  rewrite (is_cache_hit_spec _ _ _ _ ls) by done. unfold set_access.
  destruct (list_find (matches tg) ls) as [[j l]|]; [done|].
  destruct (ls !! victim ls) as [lv|] eqn:Hv; simpl.
  - by erewrite handle_cache_miss_spec.
  - unfold handle_cache_miss.
    erewrite find_lru_line_index_spec by done. simpl.
    by rewrite (get_line_eq _ _ ls), Hv by done.
Qed.

End Scans.

(** * Integer facts *)

Section IntFacts.

Lemma int_wrap_id z : int_range z → int_wrap z = z.
Proof.
  unfold int_range, int_wrap. intros H.
  rewrite Z.mod_small; lia.
Qed.

Lemma pow2_int_range k : 0 <= k <= 30 → int_range (2 ^ k).
Proof.
  intros H. unfold int_range.
  pose proof (Z.pow_pos_nonneg 2 k).
  pose proof (Z.pow_le_mono_r 2 k 30). lia.
Qed.

Lemma pow2_pos k : 0 <= k → 0 < 2 ^ k.
Proof. intros. apply Z.pow_pos_nonneg; lia. Qed.

Lemma pow2_quot a b : 0 <= b <= a → Z.quot (2 ^ a) (2 ^ b) = 2 ^ (a - b).
Proof.
  intros H. pose proof (pow2_pos a). pose proof (pow2_pos b).
  rewrite Z.quot_div_nonneg by lia. symmetry. apply Z.pow_sub_r; lia.
Qed.

(** The bit trick of [is_pow2] accepts exactly the powers of two. *)
Lemma is_pow2_spec n :
  int_range n → is_pow2 n = true → ∃ k, 0 <= k <= 30 ∧ n = 2 ^ k.
Proof.
  unfold is_pow2. intros Hr [Hpos Hand]%andb_true_iff.
  apply Z.gtb_lt in Hpos. apply Z.eqb_eq in Hand.
  rewrite int_wrap_id in Hand by (unfold int_range in *; lia).
  exists (Z.log2 n).
  pose proof (Z.log2_nonneg n) as Hk0.
  destruct (Z.log2_spec n Hpos) as [Hlo Hhi].
  assert (Z.log2 n < 31) as Hk31.
  { apply Z.log2_lt_pow2; [done|]. unfold int_range in Hr. lia. }
  split; [lia|].
  destruct (Z.eq_dec n (2 ^ Z.log2 n)) as [|Hne]; [done|exfalso].
  assert (Z.log2 (n - 1) = Z.log2 n) as Hlog
    by (apply Z.log2_unique; lia).
  assert (Z.testbit (Z.land n (n - 1)) (Z.log2 n) = true) as Hbit.
  { rewrite Z.land_spec, Z.bit_log2 by done.
    rewrite <- Hlog. rewrite Z.bit_log2; [done|].
    pose proof (pow2_pos (Z.log2 n)). lia. }
  rewrite Hand, Z.bits_0 in Hbit. done.
Qed.

(** [log2] terminates on every non-negative [int] and computes the
    integer logarithm; it does not terminate on a negative one. *)
Lemma log2_loop_spec fuel : ∀ n lv,
  0 <= n < 2 ^ Z.of_nat fuel → (0 < fuel)%nat →
  0 <= lv → lv + Z.log2 n < 2 ^ 31 →
  log2_loop fuel n lv = Some (lv + Z.log2 n).
Proof.
  induction fuel as [|fuel IH]; intros n lv Hn Hf Hlv Hb; [lia|].
  simpl. rewrite Z.shiftr_div_pow2, Z.pow_1_r by lia.
  destruct (Z.eqb_spec (n / 2) 0) as [Hz|Hz].
  - assert (n < 2) by (apply Z.div_small_iff in Hz; lia).
    assert (n = 0 ∨ n = 1) as [-> | ->] by lia; simpl; f_equal; lia.
  - assert (2 <= n).
    { destruct (Z.lt_ge_cases n 2); [|done].
      rewrite Z.div_small in Hz; lia. }
    assert (Z.log2 n = Z.log2 (n / 2) + 1) as Hl.
    { replace (n / 2) with (Z.shiftr n 1)
        by (rewrite Z.shiftr_div_pow2, Z.pow_1_r; lia).
      rewrite Z.log2_shiftr by lia.
      assert (1 <= Z.log2 n) by (apply Z.log2_le_pow2; lia). lia. }
    pose proof (Z.log2_nonneg (n / 2)).
    rewrite int_wrap_id by (unfold int_range; lia).
    assert (0 < n / 2) by (apply Z.div_str_pos; lia).
    destruct fuel as [|fuel'].
    { simpl in Hn. lia. }
    rewrite IH; [f_equal; lia | | lia | lia | lia].
    split; [lia|]. apply Z.div_lt_upper_bound; [lia|].
    rewrite <- Z.pow_succ_r by lia.
    replace (Z.succ (Z.of_nat (S fuel'))) with (Z.of_nat (S (S fuel')))
      by lia. lia.
Qed.

Lemma log2_spec n : 0 <= n < 2 ^ 31 → log2 n = Some (Z.log2 n).
Proof.
  intros Hn. unfold log2.
  assert (Z.log2 n < 31).
  { destruct (Z.eq_dec n 0) as [->|]; [simpl; lia|].
    apply Z.log2_lt_pow2; lia. }
  rewrite log2_loop_spec; [done | | unfold log2_fuel; lia | lia | lia].
  unfold log2_fuel. split; [lia|].
  assert (2 ^ 31 < 2 ^ Z.of_nat 64) by (apply Z.pow_lt_mono_r; lia). lia.
Qed.

Lemma log2_pow2 k : 0 <= k <= 30 → log2 (2 ^ k) = Some k.
Proof.
  intros Hk. pose proof (pow2_int_range k Hk) as Hr.
  pose proof (pow2_pos k). unfold int_range in Hr.
  rewrite log2_spec by lia. f_equal. apply Z.log2_pow2; lia.
Qed.

Lemma log2_loop_diverges fuel : ∀ n lv, n < 0 → log2_loop fuel n lv = None.
Proof.
  induction fuel as [|fuel IH]; intros n lv Hn; [done|]. simpl.
  assert (Z.shiftr n 1 < 0) as Hs by (apply Z.shiftr_neg; lia).
  destruct (Z.eqb_spec (Z.shiftr n 1) 0); [lia|]. by apply IH.
Qed.

End IntFacts.

(** * Validated geometry *)

Section Geometry.

Lemma cache_bytes_no_wrap j :
  0 <= j <= 30 → 0 < int_wrap (2 ^ j * 1024) → j <= 20.
Proof.
  intros Hj Hw. destruct (Z.le_gt_cases j 20) as [|Hgt]; [done|exfalso].
  assert (j = 21 ∨ j = 22 ∨ j = 23 ∨ j = 24 ∨ j = 25 ∨ j = 26 ∨ j = 27
          ∨ j = 28 ∨ j = 29 ∨ j = 30) as Hcases by lia.
  repeat (destruct Hcases as [-> | Hcases]; [vm_compute in Hw; done|]).
  subst j. vm_compute in Hw. done.
Qed.

(** Whatever [main] accepts has a valid geometry. *)
Lemma validate_args_geometry a s l p d :
  int_range a → int_range s → int_range l →
  validate_args a l s p d = true → valid_geometry a s l.
Proof.
  intros Ha Hs Hl Hv. split_and!; try done.
  unfold validate_args in *.
  destruct (a <? 0), (l <=? 0), (s <=? 0); simpl in *; try done.
  by destruct (p <=? 0), (d <=? 0).
Qed.

Lemma validate_args_shape a s l :
  valid_geometry a s l →
  ∃ li b, 0 <= li ∧ li <= b ∧ b <= 30 ∧ l = 2 ^ li ∧ s * 1024 = 2 ^ b ∧
          (a = 0 ∨ ∃ m, 0 <= m ∧ li + m <= b ∧ a = 2 ^ m).
Proof.
  intros (Ha & Hs & Hl & Hv). unfold validate_args in Hv.
  destruct (_ || _) eqn:E1 in Hv; [done|].
  destruct (_ && _) eqn:E2 in Hv; [done|].
  destruct (_ || _) eqn:E3 in Hv; [done|].
  destruct (_ <? _) eqn:E4 in Hv; [done|].
  destruct (negb _) eqn:E5 in Hv; [done|].
  destruct (_ >? _) eqn:E6 in Hv; [done|]. clear Hv.
  repeat (apply orb_false_iff in E1 as [E1 ?]).
  apply orb_false_iff in E3 as [Hpl Hps].
  apply negb_false_iff in Hpl, Hps.
  apply is_pow2_spec in Hpl as (li & Hli & ->); [|done].
  apply is_pow2_spec in Hps as (j & Hj & ->); [|done].
  apply Z.ltb_ge in E4.
  pose proof (pow2_pos li) as Hlpos.
  assert (j <= 20) as Hj20 by (apply cache_bytes_no_wrap; lia).
  assert (2 ^ j * 1024 = 2 ^ (j + 10)) as Hbytes
    by (rewrite Z.pow_add_r by lia; done).
  rewrite Hbytes in *.
  rewrite (int_wrap_id (2 ^ (j + 10))) in E4, E6
    by (apply pow2_int_range; lia).
  assert (li <= j + 10) as Hle.
  { apply (Z.pow_le_mono_r_iff 2); lia. }
  rewrite pow2_quot in E6 by lia.
  rewrite int_wrap_id in E6 by (apply pow2_int_range; lia).
  assert (a <= 2 ^ (j + 10 - li)) as Hale
    by (destruct (Z.gtb_spec a (2 ^ (j + 10 - li))); [done | lia]).
  exists li, (j + 10). repeat split; try lia.
  destruct (Z.eqb_spec a 0) as [->|Ha0]; [by left|right].
  destruct (Z.eqb_spec a 1) as [->|Ha1].
  { exists 0. repeat split; lia. }
  simpl in E2. apply negb_false_iff in E2.
  apply is_pow2_spec in E2 as (m & Hm & ->); [|done].
  exists m. repeat split; try lia.
  assert (m <= j + 10 - li); [|lia].
  apply (Z.pow_le_mono_r_iff 2); lia.
Qed.

Lemma initialize_cache_valid a s l p d :
  valid_geometry a s l →
  ∃ c, initialize_cache a s l p d = Some c ∧
       geometry_ok c ∧
       cache_size c = s ∧ line_size c = l ∧
       stats c = mkStats 0 0 0 ∧
       sets c = replicate (Z.to_nat (num_sets c))
                          (initial_set (associativity c)).
Proof.
  intros Hvalid.
  destruct (validate_args_shape _ _ _ Hvalid)
    as (li & b & Hli & Hle & Hb & -> & Hbytes & Hassoc).
  unfold initialize_cache. rewrite Hbytes.
  rewrite (int_wrap_id (2 ^ b)) by (apply pow2_int_range; lia).
  pose proof (pow2_pos li Hli) as Hlpos.
  assert (∀ ways nsets x y,
            0 <= x → 0 <= y → li + x + y = b →
            ways = 2 ^ y → nsets = 2 ^ x →
            ∃ c, (lls ← log2 (2 ^ li); lns ← log2 nsets;
                  _ ← allocate_cache_memory nsets ways;
                  Some (mkCache ways s (2 ^ li) p d nsets
                                (initialize_cache_lines nsets ways)
                                (mkStats 0 0 0) lls lns)) = Some c ∧
                 geometry_ok c ∧ cache_size c = s ∧
                 line_size c = 2 ^ li ∧ stats c = mkStats 0 0 0 ∧
                 sets c = replicate (Z.to_nat (num_sets c))
                                    (initial_set (associativity c)))
    as Hbuild.
  { intros ways nsets x y Hx Hy Hsum -> ->.
    rewrite !log2_pow2 by lia. simpl.
    unfold allocate_cache_memory.
    pose proof (pow2_pos x Hx). pose proof (pow2_pos y Hy).
    destruct (Z.ltb_spec (2 ^ x) 0); [lia|].
    destruct (Z.ltb_spec (2 ^ y) 0); [lia|].
    rewrite andb_false_r. simpl. eexists. split; [done|].
    repeat split; try done. exists li, x, y. simpl.
    repeat split; try lia. by rewrite Hsum. }
  destruct Hassoc as [-> | (m & Hm & Hmle & ->)].
  - cbn -[log2 Z.pow allocate_cache_memory int_div]. unfold int_div. destruct (Z.eqb_spec (2 ^ li) 0); [lia|].
    rewrite pow2_quot by lia.
    rewrite int_wrap_id by (apply pow2_int_range; lia).
      cbn -[log2 Z.pow allocate_cache_memory].
    apply (Hbuild _ _ 0 (b - li)); (done || lia).
  - pose proof (pow2_pos m Hm) as Hmpos.
    destruct (Z.eqb_spec (2 ^ m) 0); [lia|].
    destruct (Z.eqb_spec (2 ^ m) 1) as [H1|H1].
    + assert (m = 0) as ->.
      { destruct (Z.eq_dec m 0); [done|].
        assert (2 ^ 1 <= 2 ^ m) by (apply Z.pow_le_mono_r; lia). lia. }
      unfold int_div. destruct (Z.eqb_spec (2 ^ li) 0); [lia|].
      rewrite pow2_quot by lia.
      rewrite int_wrap_id by (apply pow2_int_range; lia).
      cbn -[log2 Z.pow allocate_cache_memory].
      apply (Hbuild _ _ (b - li) 0); (done || lia).
    + rewrite <- Z.pow_add_r by lia.
      rewrite (int_wrap_id (2 ^ (li + m))) by (apply pow2_int_range; lia).
      unfold int_div. pose proof (pow2_pos (li + m)).
      destruct (Z.eqb_spec (2 ^ (li + m)) 0); [lia|].
      rewrite pow2_quot by lia.
      rewrite int_wrap_id by (apply pow2_int_range; lia).
      cbn -[log2 Z.pow allocate_cache_memory].
      apply (Hbuild _ _ (b - (li + m)) m); (done || lia).
Qed.

End Geometry.

(** * Address decoding under a validated geometry *)

Section Decoding.

Lemma extract_set_index_geom c a :
  geometry_ok c →
  extract_set_index a c
  = (if num_sets c =? 1 then 0
     else Z.land (Z.shiftr a (log_line_size c)) (num_sets c - 1))
  ∧ 0 <= extract_set_index a c < num_sets c.
Proof.
  intros (li & x & y & Hli & Hx & Hy & Hsum & _ & Hns & _ & _ & Hlns & _).
  unfold extract_set_index. rewrite Hns, Hlns.
  pose proof (pow2_pos x Hx) as Hpos.
  destruct (Z.eqb_spec (2 ^ x) 1); [split; [done | lia]|].
  rewrite Z.shiftl_1_l.
  rewrite (int_wrap_id (2 ^ x)) by (apply pow2_int_range; lia).
  pose proof (pow2_int_range x ltac:(lia)) as Hr. unfold int_range in Hr.
  rewrite (int_wrap_id (2 ^ x - 1)) by (unfold int_range; lia).
  assert (2 ^ x <= 2 ^ 30) by (apply Z.pow_le_mono_r; lia).
  unfold ulong_wrap. rewrite (Z.mod_small (2 ^ x - 1)) by lia.
  replace (2 ^ x - 1) with (Z.ones x)
    by (rewrite Z.ones_equiv; lia).
  rewrite Z.land_ones by lia.
  pose proof (Z.mod_pos_bound (Z.shiftr a (log_line_size c)) (2 ^ x) Hpos).
  rewrite int_wrap_id by (unfold int_range; lia).
  split; [done | lia].
Qed.

Lemma extract_tag_number_geom c a :
  geometry_ok c →
  extract_tag_number a c
  = int_wrap (Z.shiftr a (log_line_size c + log_num_sets c)).
Proof.
  intros (li & x & y & Hli & Hx & Hy & Hsum & _ & _ & _ & Hlls & Hlns & _).
  unfold extract_tag_number. rewrite Hlls, Hlns.
  by rewrite (int_wrap_id (li + x)) by (unfold int_range; lia).
Qed.

End Decoding.

(** * The invariant of one set *)

Section SetInvariant.
Implicit Types (ls : list CacheLine) (l : CacheLine) (k : nat).

Lemma initial_set_inv ways :
  0 <= ways < 2 ^ 31 → set_inv 0 (lines (initial_set ways)).
Proof.
  intros Hw. simpl. split.
  - lia.
  - rewrite length_fmap, length_seq. lia.
  - intros i l Hl. rewrite list_lookup_fmap in Hl.
    destruct (seq 0 (Z.to_nat ways) !! i); by simplify_eq/=.
  - intros i l Hl _. rewrite list_lookup_fmap in Hl.
    destruct (seq 0 (Z.to_nat ways) !! i) as [j|] eqn:E; simplify_eq/=.
    apply lookup_seq in E as [-> _]. done.
  - intros; lia.
  - intros; lia.
Qed.

(** Replacing a filled line by one of the same rank. *)
Lemma set_inv_overwrite k ls j l l' :
  set_inv k ls → ls !! j = Some l → (j < k)%nat →
  is_valid l' = true → lru_order l' = lru_order l →
  set_inv k (<[j := l']> ls).
Proof.
  intros [Hf Hs Hv Hc Hr Hi] Hl Hj Hval Hrk.
  assert (∀ i li, <[j:=l']> ls !! i = Some li →
                  ∃ li0, ls !! i = Some li0 ∧ lru_order li = lru_order li0
                         ∧ (i ≠ j → li = li0)) as Hlk.
  { intros i li Hli. destruct (decide (i = j)) as [->|Hne].
    - rewrite list_lookup_insert_eq in Hli by (by eapply lookup_lt_Some).
      simplify_eq. exists l. split_and!; [done | done | congruence].
    - rewrite list_lookup_insert_ne in Hli by done.
      exists li. split_and!; done. }
  split; rewrite ?length_insert; try done.
  - intros i li Hli. destruct (decide (i = j)) as [->|Hne].
    + rewrite list_lookup_insert_eq in Hli by (by eapply lookup_lt_Some).
      simplify_eq. by rewrite bool_decide_eq_true_2.
    + rewrite list_lookup_insert_ne in Hli by done. eauto.
  - intros i li Hli Hk. rewrite list_lookup_insert_ne in Hli by lia. eauto.
  - intros i li (li0 & ? & -> & _)%Hlk ?. eauto.
  - intros i i' li li' (li0 & ? & -> & _)%Hlk (li0' & ? & -> & _)%Hlk.
    eauto.
Qed.

(** Filling the first cold line. *)
Lemma set_inv_fill k ls l l' :
  set_inv k ls → ls !! k = Some l →
  is_valid l' = true → lru_order l' = lru_order l →
  set_inv (S k) (<[k := l']> ls).
Proof.
  intros [Hf Hs Hv Hc Hr Hi] Hl Hval Hrk.
  pose proof (lookup_lt_Some _ _ _ Hl) as Hlt.
  destruct (Hc k l Hl) as [Hlk _]; [lia|].
  assert (∀ i li, <[k:=l']> ls !! i = Some li →
                  ∃ li0, ls !! i = Some li0 ∧ lru_order li = lru_order li0
                         ∧ (i ≠ k → li = li0)) as Hlk'.
  { intros i li Hli. destruct (decide (i = k)) as [->|Hne].
    - rewrite list_lookup_insert_eq in Hli by done. simplify_eq.
      exists l. split_and!; [done | done | congruence].
    - rewrite list_lookup_insert_ne in Hli by done.
      exists li. split_and!; done. }
  assert (∀ i li, ls !! i = Some li → (i < S k)%nat →
                  0 <= lru_order li < Z.of_nat (S k)) as Hr'.
  { intros i li Hli Hik. destruct (decide (i = k)) as [->|].
    - simplify_eq. lia.
    - specialize (Hr i li Hli). lia. }
  split; rewrite ?length_insert; try done.
  - intros i li Hli. destruct (decide (i = k)) as [->|Hne].
    + rewrite list_lookup_insert_eq in Hli by done.
      simplify_eq. by rewrite bool_decide_eq_true_2 by lia.
    + rewrite list_lookup_insert_ne in Hli by done.
      rewrite (Hv _ _ Hli). apply bool_decide_ext. lia.
  - intros i li Hli Hk. rewrite list_lookup_insert_ne in Hli by lia.
    apply Hc; [done | lia].
  - intros i li (li0 & ? & -> & _)%Hlk' ?. eauto.
  - intros i j li lj (li0 & Hi0 & -> & _)%Hlk' (lj0 & Hj0 & -> & _)%Hlk'
           Hik Hjk Heq.
    destruct (decide (i = k)) as [->|], (decide (j = k)) as [->|];
      simplify_eq; try done.
    + specialize (Hr j lj0 Hj0). lia.
    + specialize (Hr i li0 Hi0). lia.
    + apply (Hi i j li0 lj0); (done || lia).
Qed.

(** The ageing loop followed by the promotion of a filled line. *)
Lemma set_inv_promoted k ls j l :
  set_inv k ls → ls !! j = Some l → (j < k)%nat →
  set_inv k (promoted ls j l).
Proof.
  intros [Hf Hs Hv Hc Hr Hi] Hl Hj.
  pose proof (lookup_lt_Some _ _ _ Hl) as Hlt.
  pose proof (Hr j l Hl Hj) as Ht.
  assert (∀ i li, promoted ls j l !! i = Some li →
            ∃ li0, ls !! i = Some li0 ∧
                   is_valid li = is_valid li0 ∧ is_dirty li = is_dirty li0 ∧
                   lru_order li
                   = (if decide (i = j) then 0
                      else if lru_order li0 <? lru_order l
                           then int_wrap (lru_order li0 + 1)
                           else lru_order li0)) as Hlk.
  { intros i li Hli. unfold promoted in Hli.
    destruct (decide (i = j)) as [->|Hne].
    - rewrite list_lookup_insert_eq in Hli by (by rewrite length_fmap).
      simplify_eq. eauto.
    - rewrite list_lookup_insert_ne, list_lookup_fmap in Hli by done.
      destruct (ls !! i) as [li0|] eqn:E; simplify_eq/=.
      exists li0. unfold age.
      destruct (lru_order li0 <? lru_order l); done. }
  assert (length (promoted ls j l) = length ls) as Hlen
    by (unfold promoted; by rewrite length_insert, length_fmap).
  assert (∀ i li li0, ls !! i = Some li0 → (i < k)%nat → i ≠ j →
            lru_order li = (if lru_order li0 <? lru_order l
                            then int_wrap (lru_order li0 + 1)
                            else lru_order li0) →
            0 <= lru_order li0 < Z.of_nat k ∧ lru_order li0 ≠ lru_order l ∧
            lru_order li = (if lru_order li0 <? lru_order l
                            then lru_order li0 + 1 else lru_order li0))
    as Hstep.
  { intros i li li0 Hli0 Hik Hne ->.
    pose proof (Hr i li0 Hli0 Hik). split; [done|]. split.
    - intros Heq. apply Hne. by apply (Hi i j li0 l).
    - destruct (Z.ltb_spec (lru_order li0) (lru_order l)); [|done].
      apply int_wrap_id. unfold int_range. lia. }
  split; rewrite ?Hlen; try done.
  - intros i li (li0 & ? & -> & _)%Hlk. eauto.
  - intros i li (li0 & Hli0 & _ & -> & Hrk)%Hlk Hik.
    destruct (Hc i li0 Hli0 Hik) as [Hi0 Hd0]. split; [|done].
    rewrite Hrk, decide_False by lia.
    destruct (Z.ltb_spec (lru_order li0) (lru_order l)); [lia | done].
  - intros i li (li0 & Hli0 & _ & _ & Hrk)%Hlk Hik.
    destruct (decide (i = j)) as [->|Hne]; [lia|].
    destruct (Hstep i li li0 Hli0 Hik Hne Hrk) as (? & ? & ->).
    destruct (Z.ltb_spec (lru_order li0) (lru_order l)); lia.
  - intros i i' li li' (li0 & Hli0 & _ & _ & Hrk)%Hlk
           (li0' & Hli0' & _ & _ & Hrk')%Hlk Hik Hik' Heq.
    destruct (decide (i = j)) as [->|Hne], (decide (i' = j)) as [->|Hne'];
      try done.
    + destruct (Hstep i' li' li0' Hli0' Hik' Hne' Hrk') as (? & ? & Hn).
      rewrite <- Heq, Hrk in Hn.
      destruct (Z.ltb_spec (lru_order li0') (lru_order l)); lia.
    + destruct (Hstep i li li0 Hli0 Hik Hne Hrk) as (? & ? & Hn).
      rewrite Heq, Hrk' in Hn.
      destruct (Z.ltb_spec (lru_order li0) (lru_order l)); lia.
    + destruct (Hstep i li li0 Hli0 Hik Hne Hrk) as (? & ? & Hn).
      destruct (Hstep i' li' li0' Hli0' Hik' Hne' Hrk') as (? & ? & Hn').
      apply (Hi i i' li0 li0'); try done.
      rewrite Heq, Hn' in Hn.
      destruct (Z.ltb_spec (lru_order li0) (lru_order l)),
               (Z.ltb_spec (lru_order li0') (lru_order l)); lia.
Qed.

End SetInvariant.

(** * The victim scan *)

Section Victim.
Implicit Types (ls : list CacheLine) (l : CacheLine).

(** The scan stops at the first line that is not valid. *)
Lemma victim_from_cold ls : ∀ i m k0 n l,
  ls !! n = Some l → is_valid l = false →
  (∀ j lj, (j < n)%nat → ls !! j = Some lj → is_valid lj = true) →
  victim_from ls i m k0 = (i + n)%nat.
Proof.
  induction ls as [|l0 ls IH]; intros i m k0 n l Hn Hinv Hbefore; [done|].
  destruct n as [|n]; simpl in *.
  - simplify_eq. rewrite Hinv. simpl. lia.
  - rewrite (Hbefore 0%nat l0) by (done || lia). simpl.
    assert (∀ m' k', victim_from ls (S i) m' k' = (i + S n)%nat) as Hrec.
    { intros m' k'. rewrite (IH (S i) m' k' n l); [lia | done | done |].
      intros j lj Hj Hlj. apply (Hbefore (S j)); [lia | done]. }
    destruct (lru_order l0 >? m); apply Hrec.
Qed.

(** With every line valid, the scan keeps the first line whose rank is
    above the running maximum and is not exceeded later on. *)
Lemma victim_from_warm ls : ∀ i m k0,
  Forall (λ l, is_valid l = true) ls →
  let r := victim_from ls i m k0 in
  (r = k0 ∧ Forall (λ l, lru_order l <= m) ls) ∨
  (∃ lr, (i <= r)%nat ∧ ls !! (r - i)%nat = Some lr ∧ m < lru_order lr ∧
         Forall (λ l, lru_order l <= lru_order lr) ls ∧
         ∀ j lj, (j < r - i)%nat → ls !! j = Some lj →
                 lru_order lj < lru_order lr).
Proof.
  induction ls as [|l0 ls IH]; intros i m k0 Hall; simpl.
  { left. by split. }
  apply Forall_cons in Hall as [Hv0 Hall]. rewrite Hv0. simpl.
  destruct (Z.gtb_spec (lru_order l0) m) as [Hgt|Hle].
  - destruct (IH (S i) (lru_order l0) i Hall)
      as [[Hr Hmax] | (lr & Hir & Hlr & Hm & Hmax & Hfirst)].
    + right. exists l0. rewrite Hr, Nat.sub_diag. simpl.
      split_and!; try done; try lia.
      apply Forall_cons. split; [lia | done].
    + right. exists lr.
      replace (victim_from ls (S i) (lru_order l0) i - i)%nat
        with (S (victim_from ls (S i) (lru_order l0) i - S i)) by lia.
      simpl. split_and!; try done; try lia.
      * apply Forall_cons. split; [lia | done].
      * intros [|j] lj Hj Hlj; simpl in *; simplify_eq; [lia|].
        apply (Hfirst j); [lia | done].
  - destruct (IH (S i) m k0 Hall)
      as [[Hr Hmax] | (lr & Hir & Hlr & Hm & Hmax & Hfirst)].
    + left. split; [done|]. apply Forall_cons. split; [lia | done].
    + right. exists lr.
      replace (victim_from ls (S i) m k0 - i)%nat
        with (S (victim_from ls (S i) m k0 - S i)) by lia.
      simpl. split_and!; try done; try lia.
      * apply Forall_cons. split; [lia | done].
      * intros [|j] lj Hj Hlj; simpl in *; simplify_eq; [lia|].
        apply (Hfirst j); [lia | done].
Qed.

Lemma victim_set_inv k ls :
  set_inv k ls → (0 < length ls)%nat →
  if decide (k < length ls)%nat then victim ls = k
  else (victim ls < length ls)%nat.
Proof.
  intros [Hf Hs Hv Hc Hr Hi] Hpos. unfold victim. case_decide as Hk.
  - destruct (lookup_lt_is_Some_2 ls k Hk) as [l Hl].
    rewrite (victim_from_cold ls 0 0 0%nat k l); [done | done | |].
    + rewrite (Hv _ _ Hl). apply bool_decide_eq_false_2. lia.
    + intros j lj Hj Hlj. rewrite (Hv _ _ Hlj).
      by apply bool_decide_eq_true_2.
  - assert (Forall (λ l, is_valid l = true) ls) as Hall.
    { apply Forall_lookup. intros i l Hl. rewrite (Hv _ _ Hl).
      apply bool_decide_eq_true_2.
      pose proof (lookup_lt_Some _ _ _ Hl). lia. }
    destruct (victim_from_warm ls 0 0 0%nat Hall)
      as [[-> _] | (lr & _ & Hlr & _)]; [done|].
    rewrite Nat.sub_0_r in Hlr. by eapply lookup_lt_Some.
Qed.

End Victim.

(** * One access preserves the invariant of the addressed set *)

Section SetAccess.
Implicit Types (ls : list CacheLine) (l : CacheLine) (k : nat).

Lemma promoted_lookup ls j l :
  ls !! j = Some l → promoted ls j l !! j = Some (with_lru l 0).
Proof.
  intros Hl. unfold promoted. apply list_lookup_insert_eq.
  rewrite length_fmap. by eapply lookup_lt_Some.
Qed.

Lemma promoted_length ls j l : length (promoted ls j l) = length ls.
Proof. unfold promoted. by rewrite length_insert, length_fmap. Qed.

Lemma hit_lines_length st ls j l : length (hit_lines st ls j l) = length ls.
Proof.
  unfold hit_lines. destruct st; rewrite ?length_insert;
    apply promoted_length.
Qed.

Lemma miss_lines_length st tg ls v lv :
  length (miss_lines st tg ls v lv) = length ls.
Proof. unfold miss_lines. by rewrite promoted_length, length_insert. Qed.

Lemma set_inv_hit k ls st j l :
  set_inv k ls → ls !! j = Some l → is_valid l = true →
  set_inv k (hit_lines st ls j l).
Proof.
  intros Hinv Hl Hval.
  assert (j < k)%nat as Hj.
  { rewrite (inv_valid _ _ Hinv _ _ Hl) in Hval.
    by apply bool_decide_eq_true_1 in Hval. }
  pose proof (set_inv_promoted _ _ _ _ Hinv Hl Hj) as Hp.
  unfold hit_lines. destruct st; [|done].
  eapply set_inv_overwrite; [done | by apply promoted_lookup | done..].
Qed.

Lemma set_inv_miss k ls st tg lv :
  set_inv k ls → ls !! victim ls = Some lv →
  let k' := if decide (k < length ls)%nat then S k else k in
  set_inv k' (miss_lines st tg ls (victim ls) lv) ∧
  is_valid lv = bool_decide (length ls <= k)%nat ∧
  (is_valid lv = false → is_dirty lv = false).
Proof.
  intros Hinv Hv k'.
  pose proof (lookup_lt_Some _ _ _ Hv) as Hlt.
  pose proof (victim_set_inv k ls Hinv ltac:(lia)) as Hvic.
  pose proof (inv_fill _ _ Hinv) as Hfill.
  set (filled := mkLine tg true st (lru_order lv)).
  assert (<[victim ls := filled]> ls !! victim ls = Some filled) as Hf
    by (by apply list_lookup_insert_eq).
  unfold miss_lines, k'. fold filled. case_decide as Hk.
  - rewrite Hvic in *. split_and!.
    + apply set_inv_promoted; [|done|lia].
      by eapply set_inv_fill.
    + rewrite (inv_valid _ _ Hinv _ _ Hv).
      rewrite !bool_decide_eq_false_2; (done || lia).
    + intros _. by destruct (inv_cold _ _ Hinv _ _ Hv).
  - split_and!.
    + apply set_inv_promoted; [|done|lia].
      eapply set_inv_overwrite; (done || lia).
    + rewrite (inv_valid _ _ Hinv _ _ Hv).
      rewrite !bool_decide_eq_true_2; (done || lia).
    + rewrite (inv_valid _ _ Hinv _ _ Hv).
      rewrite bool_decide_eq_true_2 by lia. done.
Qed.

(** An access of a non-empty set never faults, and keeps the invariant. *)
Lemma set_access_inv k ls st tg :
  set_inv k ls → (0 < length ls)%nat →
  ∃ ls' hit wb k',
    set_access st tg ls = Some (ls', hit, wb) ∧
    set_inv k' ls' ∧ length ls' = length ls.
Proof.
  intros Hinv Hpos. unfold set_access.
  destruct (list_find (matches tg) ls) as [[j l]|] eqn:Hfind.
  - apply list_find_Some in Hfind as (Hl & Hm & _).
    unfold matches in Hm. apply andb_true_iff in Hm as [Hval _].
    eexists _, _, _, k. split_and!; [done | | ].
    + by apply set_inv_hit.
    + apply hit_lines_length.
  - pose proof (victim_set_inv k ls Hinv Hpos) as Hvic.
    destruct (lookup_lt_is_Some_2 ls (victim ls)) as [lv Hlv].
    { case_decide; lia. }
    rewrite Hlv. simpl. eexists _, _, _, _. split_and!; [done | | ].
    + by apply set_inv_miss.
    + apply miss_lines_length.
Qed.

End SetAccess.

(** * Dense ranks *)

Section Dense.
Implicit Types (ls : list CacheLine) (l : CacheLine) (k : nat).

Lemma filter_valid_prefix ls : ∀ k,
  (∀ i l, ls !! i = Some l → is_valid l = bool_decide (i < k)%nat) →
  List.filter is_valid ls = take k ls.
Proof.
  induction ls as [|l0 ls IH]; intros k Hv; [by destruct k|].
  simpl. rewrite (Hv 0%nat l0) by done. destruct k as [|k]; simpl.
  - rewrite (IH 0%nat); [by destruct ls|].
    intros i l Hl. by rewrite (Hv (S i) l Hl).
  - f_equal. apply IH. intros i l Hl. rewrite (Hv (S i) l Hl).
    apply bool_decide_ext. lia.
Qed.

Lemma set_inv_dense k ls : set_inv k ls → dense_ranks (mkSet ls).
Proof.
  intros [Hf Hs Hv Hc Hr Hi]. unfold dense_ranks, valid_ranks. simpl.
  rewrite (filter_valid_prefix ls k Hv), length_fmap, length_take_le by lia.
  assert (∀ i x, (lru_order <$> take k ls) !! i = Some x →
                 ∃ l, ls !! i = Some l ∧ (i < k)%nat ∧ x = lru_order l)
    as Hlk.
  { intros i x Hx. rewrite list_lookup_fmap in Hx.
    destruct (take k ls !! i) as [l|] eqn:E; simplify_eq/=.
    apply lookup_take_Some in E as [? ?]. eauto. }
  apply submseteq_length_Permutation.
  - apply NoDup_submseteq.
    + apply NoDup_alt. intros i j x (li & ? & ? & ->)%Hlk (lj & ? & ? & ?)%Hlk.
      by apply (Hi i j li lj).
    + intros x (i & (l & Hl & Hik & ->)%Hlk)%list_elem_of_lookup_1.
      apply elem_of_seqZ. pose proof (Hr i l Hl Hik). lia.
  - rewrite length_seqZ, length_fmap, length_take_le by lia. lia.
Qed.

End Dense.

(** * The invariant of the whole cache *)

Section CacheInvariant.

Lemma geometry_ok_ways c :
  geometry_ok c → 0 < associativity c < 2 ^ 31 ∧ 0 < num_sets c.
Proof.
  intros (li & x & y & Hli & Hx & Hy & Hsum & _ & -> & -> & _).
  pose proof (pow2_pos x Hx). pose proof (pow2_pos y Hy).
  pose proof (pow2_int_range y ltac:(lia)) as Hr. unfold int_range in Hr.
  lia.
Qed.

Lemma initialize_cache_inv a s l p d c :
  valid_geometry a s l → initialize_cache a s l p d = Some c →
  cache_inv c.
Proof.
  intros Hvalid Hinit.
  destruct (initialize_cache_valid _ _ _ p d Hvalid)
    as (c' & Hc' & Hgeom & _ & _ & _ & Hsets).
  rewrite Hinit in Hc'. simplify_eq.
  destruct (geometry_ok_ways _ Hgeom) as [Hways Hns].
  split_and!; [done | |].
  - by rewrite Hsets, length_replicate.
  - rewrite Hsets. apply Forall_replicate. split.
    + simpl. by rewrite length_fmap, length_seq.
    + exists 0%nat. apply initial_set_inv. lia.
Qed.

(** One access of a cache that satisfies the invariant: it returns, and
    its effect is [set_access] on the addressed set. *)
Lemma access_cache_step c op :
  cache_inv c →
  let si := extract_set_index (address op) c in
  let tg := extract_tag_number (address op) c in
  ∃ s k ls' hit wb k',
    0 <= si ∧ sets c !! Z.to_nat si = Some s ∧
    length (lines s) = Z.to_nat (associativity c) ∧
    set_inv k (lines s) ∧
    set_access (is_store op) tg (lines s) = Some (ls', hit, wb) ∧
    set_inv k' ls' ∧ length ls' = length (lines s) ∧
    access_cache c op
    = Return (with_stats (put_lines c si ls') (account hit wb (stats c)),
              hit).
Proof.
  intros (Hgeom & Hlen & Hsets) si tg.
  destruct (extract_set_index_geom c (address op) Hgeom) as [_ Hsi].
  fold si in Hsi.
  destruct (geometry_ok_ways _ Hgeom) as [Hways Hns].
  destruct (lookup_lt_is_Some_2 (sets c) (Z.to_nat si)) as [s Hs]; [lia|].
  destruct (Forall_lookup_1 _ _ _ _ Hsets Hs) as [Hlines [k Hk]].
  destruct (set_access_inv k (lines s) (is_store op) tg Hk)
    as (ls' & hit & wb & k' & Hacc & Hk' & Hlen'); [lia|].
  exists s, k, ls', hit, wb, k'. split_and!; try done; [lia|].
  assert (get_lines c si = Some (lines s)) as Hg.
  { apply get_lines_Some. split; [lia|]. eauto. }
  rewrite (access_cache_spec c op (lines s)); fold si tg; [|lia|done..].
  by rewrite Hacc.
Qed.

Lemma access_cache_inv c op :
  cache_inv c →
  ∃ c' hit, access_cache c op = Return (c', hit) ∧ cache_inv c'.
Proof.
  intros Hinv.
  destruct (access_cache_step c op Hinv)
    as (s & k & ls' & hit & wb & k' & Hsi & Hs & Hlen & Hk & Hacc & Hk'
        & Hlen' & Hret).
  destruct Hinv as (Hgeom & Hsets_len & Hsets).
  eexists _, _. split; [done|]. split_and!.
  - done.
  - simpl. by rewrite length_insert.
  - simpl. apply Forall_insert; [done|]. simpl. split; [congruence|eauto].
Qed.

Lemma run_trace_inv ops : ∀ c,
  cache_inv c →
  ∃ c' hs, run_trace c ops = Return (c', hs) ∧ cache_inv c'
           ∧ length hs = length ops.
Proof.
  induction ops as [|op ops IH]; intros c Hinv; simpl.
  - by eexists _, _.
  - destruct (access_cache_inv c op Hinv) as (c1 & h & -> & Hinv1).
    destruct (IH c1 Hinv1) as (c2 & hs & -> & Hinv2 & Hlen).
    eexists _, _. split_and!; [done | done | simpl; lia].
Qed.

End CacheInvariant.

(** * Reachable states *)

Lemma reachable_inv c : reachable c → cache_inv c.
Proof.
  intros (a & s & l & p & d & c0 & ops & hs & Hvalid & Hinit & Hrun).
  pose proof (initialize_cache_inv _ _ _ _ _ _ Hvalid Hinit) as Hinv0.
  destruct (run_trace_inv ops c0 Hinv0) as (c' & hs' & Hrun' & Hinv & _).
  rewrite Hrun in Hrun'. by simplify_eq.
Qed.

Lemma run_trace_app ops1 : ∀ c ops2 c1 hs1,
  run_trace c ops1 = Return (c1, hs1) →
  run_trace c (ops1 ++ ops2)
  = match run_trace c1 ops2 with
    | Return (c2, hs2) => Return (c2, hs1 ++ hs2)
    | Exit => Exit
    | Fault => Fault
    end.
Proof.
  induction ops1 as [|op ops1 IH]; intros c ops2 c1 hs1 Hrun; simpl in *.
  - simplify_eq. simpl. by destruct (run_trace c1 ops2) as [[? ?]| |].
  - destruct (access_cache c op) as [[c' h]| |]; [|done..].
    destruct (run_trace c' ops1) as [[c'' hs']| |] eqn:E; [|done..].
    simplify_eq. rewrite (IH c' ops2 c1 hs' E).
    by destruct (run_trace c1 ops2) as [[? ?]| |].
Qed.

Lemma reachable_step c op c' h :
  reachable c → access_cache c op = Return (c', h) → reachable c'.
Proof.
  intros (a & s & l & p & d & c0 & ops & hs & Hvalid & Hinit & Hrun) Hacc.
  exists a, s, l, p, d, c0, (ops ++ [op]), (hs ++ [h]).
  split_and!; [done..|].
  rewrite (run_trace_app _ _ _ _ _ Hrun). simpl. by rewrite Hacc.
Qed.

(** * Geometry of the constructed cache *)

(** C8: for every validated geometry the constructed cache satisfies
    [num_sets * ways * line_size = capacity in bytes], where the capacity in
    bytes is [cache_size * 1024] ([cache_size] is stored in kilobytes). *)
Theorem capacity_is_sets_ways_line a s l p d :
  valid_geometry a s l →
  ∃ c, initialize_cache a s l p d = Some c ∧
       cache_size c = s ∧ line_size c = l ∧
       num_sets c * associativity c * line_size c = cache_size c * 1024.
Proof.
  intros Hvalid.
  destruct (initialize_cache_valid _ _ _ p d Hvalid)
    as (c & Hc & Hgeom & Hs & Hl & _).
  exists c. split_and!; try done.
  destruct Hgeom as (li & x & y & Hli & Hx & Hy & _ & -> & -> & -> & _ & _
                     & ->).
  rewrite <- !Z.pow_add_r by lia. f_equal. lia.
Qed.

Lemma capacity_is_sets_ways_line_witness :
  ∃ c, initialize_cache 4 64 32 50 5 = Some c ∧
       cache_size c = 64 ∧ line_size c = 32 ∧
       num_sets c * associativity c * line_size c = cache_size c * 1024.
Proof.
  apply (capacity_is_sets_ways_line 4 64 32 50 5).
  geometry_is_valid.
Defined.

(** * Address decoding *)

(** C4 as stated fails: the tag is returned as an [int], so an address whose
    shifted value needs more than 31 bits loses its high bits.  With the
    default geometry the address [0x7ffffffff000] decodes to tag [-1]. *)
Lemma tag_is_truncated_counterexample :
  ∃ c, initialize_cache 1 16 16 30 2 = Some c ∧
       ulong_range 0x7ffffffff000 ∧
       extract_tag_number 0x7ffffffff000 c = -1 ∧
       spec_tag 0x7ffffffff000 (line_size c) (num_sets c) = 0x1ffffffff.
Proof.
  eexists. split; [by_evaluation|].
  unfold ulong_range. split_and!; [lia | lia | by_evaluation..].
Qed.

(** C4, amended: under a validated geometry decoding is total; the set
    index is [0] for a single set and
    [(address >> log2 line_size) & (num_sets - 1)] otherwise, and lies in
    [0, num_sets); the tag is [address >> (log2 line_size + log2 num_sets)]
    truncated to a 32-bit [int], hence that very value whenever it is below
    [2^31]. *)
Theorem decode_validated a s l p d :
  valid_geometry a s l →
  ∃ c, initialize_cache a s l p d = Some c ∧
       ∀ addr, ulong_range addr →
         extract_set_index addr c
         = spec_set_index addr (line_size c) (num_sets c) ∧
         0 <= extract_set_index addr c < num_sets c ∧
         extract_tag_number addr c
         = int_wrap (spec_tag addr (line_size c) (num_sets c)) ∧
         (spec_tag addr (line_size c) (num_sets c) < 2 ^ 31 →
          extract_tag_number addr c
          = spec_tag addr (line_size c) (num_sets c)).
Proof.
  intros Hvalid.
  destruct (initialize_cache_valid _ _ _ p d Hvalid)
    as (c & Hc & Hgeom & _).
  exists c. split; [done|]. intros addr Haddr.
  destruct (extract_set_index_geom c addr Hgeom) as [Hsi Hrange].
  pose proof (extract_tag_number_geom c addr Hgeom) as Htag.
  destruct Hgeom as (li & x & y & Hli & Hx & Hy & _ & Hls & Hns & _ & Hlls
                     & Hlns & _).
  assert (Z.log2 (line_size c) = log_line_size c) as Hl1
    by (rewrite Hls, Hlls; by apply Z.log2_pow2).
  assert (Z.log2 (num_sets c) = log_num_sets c) as Hl2
    by (rewrite Hns, Hlns; by apply Z.log2_pow2).
  unfold spec_set_index, spec_tag. rewrite Hl1, Hl2.
  split_and!; try done; try lia.
  intros Hsmall. rewrite Htag. apply int_wrap_id.
  assert (0 <= Z.shiftr addr (log_line_size c + log_num_sets c))
    by (apply Z.shiftr_nonneg; unfold ulong_range in Haddr; lia).
  unfold int_range. lia.
Qed.

Lemma decode_validated_witness :
  ∃ c, initialize_cache 1 16 16 30 2 = Some c ∧
       ∀ addr, ulong_range addr →
         extract_set_index addr c
         = spec_set_index addr (line_size c) (num_sets c) ∧
         0 <= extract_set_index addr c < num_sets c ∧
         extract_tag_number addr c
         = int_wrap (spec_tag addr (line_size c) (num_sets c)) ∧
         (spec_tag addr (line_size c) (num_sets c) < 2 ^ 31 →
          extract_tag_number addr c
          = spec_tag addr (line_size c) (num_sets c)).
Proof.
  apply (decode_validated 1 16 16 30 2).
  geometry_is_valid.
Defined.

(** * Recency ranks *)

(** C2: for every validated geometry and every sequence of accesses, the
    replay returns and, in every set of the resulting cache, the ranks held
    by the valid lines are exactly [0 .. k-1] for [k] valid lines.  The empty
    sequence is the state after construction. *)
Theorem ranks_stay_dense a s l p d :
  valid_geometry a s l →
  ∃ c0, initialize_cache a s l p d = Some c0 ∧
        ∀ ops, ∃ c hs, run_trace c0 ops = Return (c, hs) ∧
                       Forall dense_ranks (sets c).
Proof.
  intros Hvalid.
  destruct (initialize_cache_valid _ _ _ p d Hvalid) as (c0 & Hc0 & _).
  exists c0. split; [done|]. intros ops.
  pose proof (initialize_cache_inv _ _ _ _ _ _ Hvalid Hc0) as Hinv0.
  destruct (run_trace_inv ops c0 Hinv0) as (c & hs & Hrun & Hinv & _).
  exists c, hs. split; [done|].
  destruct Hinv as (_ & _ & Hsets).
  eapply Forall_impl; [exact Hsets|].
  intros [ls] [_ [k Hk]]. by eapply set_inv_dense.
Qed.

Lemma ranks_stay_dense_witness :
  ∃ c0, initialize_cache 2 1 512 30 2 = Some c0 ∧
        ∀ ops, ∃ c hs, run_trace c0 ops = Return (c, hs) ∧
                       Forall dense_ranks (sets c).
Proof.
  apply (ranks_stay_dense 2 1 512 30 2).
  geometry_is_valid.
Defined.

(** * Victim selection *)

Section VictimChoice.
Implicit Types (ls : list CacheLine) (l : CacheLine).

Lemma victim_choice ls :
  (0 < length ls)%nat → Forall (λ l, 0 <= lru_order l) ls →
  ∃ lv, ls !! victim ls = Some lv ∧
    (Exists (λ l, is_valid l = false) ls →
     is_valid lv = false ∧
     ∀ j lj, (j < victim ls)%nat → ls !! j = Some lj → is_valid lj = true) ∧
    (Forall (λ l, is_valid l = true) ls →
     Forall (λ l, lru_order l <= lru_order lv) ls ∧
     ∀ j lj, (j < victim ls)%nat → ls !! j = Some lj →
             lru_order lj < lru_order lv).
Proof.
  intros Hpos Hnonneg. unfold victim.
  destruct (list_find (λ l, is_valid l = false) ls) as [[n l]|] eqn:Hfind.
  - apply list_find_Some in Hfind as (Hl & Hinv & Hbefore).
    assert (∀ j lj, (j < n)%nat → ls !! j = Some lj → is_valid lj = true)
      as Hbefore'.
    { intros j lj Hj Hlj. specialize (Hbefore j lj Hlj Hj).
      by destruct (is_valid lj). }
    rewrite (victim_from_cold ls 0 0 0%nat n l) by done. simpl.
    exists l. split_and!; [done | done |].
    intros Hall. pose proof (Forall_lookup_1 _ _ _ _ Hall Hl). congruence.
  - apply list_find_None in Hfind.
    assert (Forall (λ l, is_valid l = true) ls) as Hall.
    { eapply Forall_impl; [exact Hfind|]. intros l Hl. simpl in Hl.
      by destruct (is_valid l). }
    destruct (victim_from_warm ls 0 0 0%nat Hall)
      as [[Hr Hmax] | (lr & _ & Hlr & _ & Hmax & Hfirst)].
    + rewrite Hr. destruct (lookup_lt_is_Some_2 ls 0 Hpos) as [l0 Hl0].
      exists l0. split_and!; [done | |].
      * intros Hex. apply Exists_exists in Hex as (l & Hin & Hl).
        apply list_elem_of_lookup_1 in Hin as [i Hi].
        pose proof (Forall_lookup_1 _ _ _ _ Hall Hi). congruence.
      * intros _. split; [|intros; lia].
        pose proof (Forall_lookup_1 _ _ _ _ Hnonneg Hl0) as H0. simpl in H0.
        eapply Forall_impl; [exact Hmax|]. intros; simpl in *; lia.
    + rewrite Nat.sub_0_r in Hlr, Hfirst. exists lr.
      split_and!; [done | | done].
      intros Hex. apply Exists_exists in Hex as (l & Hin & Hl).
      apply list_elem_of_lookup_1 in Hin as [i Hi].
      pose proof (Forall_lookup_1 _ _ _ _ Hall Hi). congruence.
Qed.

Lemma set_inv_nonneg k ls :
  set_inv k ls → Forall (λ l, 0 <= lru_order l) ls.
Proof.
  intros Hinv. apply Forall_lookup. intros i l Hl.
  destruct (decide (i < k)%nat) as [Hik|Hik].
  - pose proof (inv_rank _ _ Hinv i l Hl Hik). lia.
  - destruct (inv_cold _ _ Hinv i l Hl) as [-> _]; lia.
Qed.

Lemma promoted_fields ls j l i li' :
  promoted ls j l !! i = Some li' →
  ls !! j = Some l →
  ∃ li, ls !! i = Some li ∧ tag li' = tag li ∧
        is_valid li' = is_valid li ∧ is_dirty li' = is_dirty li.
Proof.
  intros Hli Hl. unfold promoted in Hli.
  destruct (decide (i = j)) as [->|Hne].
  - rewrite list_lookup_insert_eq in Hli
      by (rewrite length_fmap; by eapply lookup_lt_Some).
    simplify_eq. by exists l.
  - rewrite list_lookup_insert_ne, list_lookup_fmap in Hli by done.
    destruct (ls !! i) as [li|] eqn:E; simplify_eq/=.
    exists li. unfold age. by destruct (lru_order li <? lru_order l).
Qed.

Lemma hit_lines_fields st ls j l i li' :
  hit_lines st ls j l !! i = Some li' →
  ls !! j = Some l →
  ∃ li, ls !! i = Some li ∧ tag li' = tag li ∧ is_valid li' = is_valid li.
Proof.
  intros Hli Hl. unfold hit_lines in Hli.
  assert (∀ x, promoted ls j l !! i = Some x →
               ∃ li, ls !! i = Some li ∧ tag x = tag li
                     ∧ is_valid x = is_valid li) as Hp.
  { intros x Hx.
    destruct (promoted_fields _ _ _ _ _ Hx Hl) as (li & ? & ? & ? & _).
    eauto. }
  destruct st; [|by apply Hp].
  destruct (decide (i = j)) as [->|Hne].
  - rewrite list_lookup_insert_eq in Hli
      by (rewrite promoted_length; by eapply lookup_lt_Some).
    simplify_eq. by exists l.
  - rewrite list_lookup_insert_ne in Hli by done. by apply Hp.
Qed.

(** The line hit once is found again at the same index. *)
Lemma hit_lines_find st tg ls j l :
  list_find (matches tg) ls = Some (j, l) →
  ∃ l', list_find (matches tg) (hit_lines st ls j l) = Some (j, l').
Proof.
  intros (Hl & Hm & Hbefore)%list_find_Some.
  destruct (lookup_lt_is_Some_2 (hit_lines st ls j l) j) as [l' Hl'].
  { rewrite hit_lines_length. by eapply lookup_lt_Some. }
  exists l'. apply list_find_Some. split_and!; [done | |].
  - destruct (hit_lines_fields _ _ _ _ _ _ Hl' Hl) as (l0 & ? & Ht & Hv).
    simplify_eq. unfold matches in *. by rewrite Ht, Hv.
  - intros i li Hli Hij.
    destruct (hit_lines_fields _ _ _ _ _ _ Hli Hl) as (l0 & Hl0 & Ht & Hv).
    specialize (Hbefore i l0 Hl0 Hij). unfold matches in *.
    by rewrite Ht, Hv.
Qed.

End VictimChoice.

(** C3: on every miss of a reachable cache the line that is replaced is
    chosen as follows.  If some line of the addressed set is not valid, it
    is the first such line; otherwise it is a line of maximal rank, and
    every line before it has a strictly smaller rank.  The miss writes the
    new tag into that line and leaves tag, valid and dirty of every other
    line of the set as they are. *)
Theorem miss_replaces_first_invalid_or_lru c op c' :
  reachable c → access_cache c op = Return (c', false) →
  let si := extract_set_index (address op) c in
  let tg := extract_tag_number (address op) c in
  ∃ ls v lv,
    get_lines c si = Some ls ∧
    find_lru_line_index c si = Some v ∧ ls !! v = Some lv ∧
    (Exists (λ l, is_valid l = false) ls →
     is_valid lv = false ∧
     ∀ j lj, (j < v)%nat → ls !! j = Some lj → is_valid lj = true) ∧
    (Forall (λ l, is_valid l = true) ls →
     Forall (λ l, lru_order l <= lru_order lv) ls ∧
     ∀ j lj, (j < v)%nat → ls !! j = Some lj → lru_order lj < lru_order lv) ∧
    get_line c' si v = Some (mkLine tg true (is_store op) 0) ∧
    ∀ j lj, j ≠ v → ls !! j = Some lj →
      ∃ lj', get_line c' si j = Some lj' ∧ tag lj' = tag lj ∧
             is_valid lj' = is_valid lj ∧ is_dirty lj' = is_dirty lj.
Proof.
  intros Hinv%reachable_inv Hacc si tg.
  destruct (access_cache_step c op Hinv)
    as (s & k & ls' & hit & wb & k' & Hsi & Hs & Hlen & Hk & Hset & _
        & Hlen' & Hret).
  fold si tg in Hsi, Hs, Hset, Hret.
  rewrite Hacc in Hret. injection Hret as Hc' <-.
  assert (get_lines c si = Some (lines s)) as Hg.
  { apply get_lines_Some. split; [lia|]. eauto. }
  destruct Hinv as (Hgeom & _).
  destruct (geometry_ok_ways _ Hgeom) as [Hways _].
  destruct (victim_choice (lines s)) as (lv & Hlv & Hcold & Hwarm).
  { lia. } { by eapply set_inv_nonneg. }
  unfold set_access in Hset.
  destruct (list_find (matches tg) (lines s)) as [[j l]|]; [done|].
  rewrite Hlv in Hset. simpl in Hset. injection Hset as <- <-.
  exists (lines s), (victim (lines s)), lv.
  assert (get_lines c' si
          = Some (miss_lines (is_store op) tg (lines s) (victim (lines s)) lv))
    as Hg'.
  { rewrite Hc', get_lines_with_stats. by eapply get_lines_put_lines. }
  set (filled := mkLine tg true (is_store op) (lru_order lv)).
  assert (<[victim (lines s) := filled]> (lines s) !! victim (lines s)
          = Some filled) as Hf.
  { apply list_lookup_insert_eq. by eapply lookup_lt_Some. }
  split_and!; try done.
  - by apply find_lru_line_index_spec.
  - rewrite (get_line_eq _ _ _ _ Hg'). unfold miss_lines. fold filled.
    by rewrite (promoted_lookup _ _ filled).
  - intros j lj Hne Hlj. rewrite (get_line_eq _ _ _ _ Hg').
    destruct (lookup_lt_is_Some_2
                (miss_lines (is_store op) tg (lines s) (victim (lines s)) lv) j)
      as [lj' Hlj'].
    { rewrite miss_lines_length. by eapply lookup_lt_Some. }
    exists lj'. split; [done|]. unfold miss_lines in Hlj'. fold filled in Hlj'.
    destruct (promoted_fields _ _ _ _ _ Hlj' Hf) as (l0 & Hl0 & ? & ? & ?).
    rewrite list_lookup_insert_ne in Hl0 by done. by simplify_eq.
Qed.

Lemma miss_replaces_first_invalid_or_lru_witness :
  let c := mkCache 2 1 512 30 2 1
             [mkSet [mkLine 0 false false 0; mkLine 0 false false 1]]
             (mkStats 0 0 0) 9 0 in
  let op := mkOp "s" 0x200 1 in
  let c' := mkCache 2 1 512 30 2 1
              [mkSet [mkLine 1 true true 0; mkLine 0 false false 1]]
              (mkStats 0 1 0) 9 0 in
  let si := extract_set_index (address op) c in
  let tg := extract_tag_number (address op) c in
  ∃ ls v lv,
    get_lines c si = Some ls ∧
    find_lru_line_index c si = Some v ∧ ls !! v = Some lv ∧
    (Exists (λ l, is_valid l = false) ls →
     is_valid lv = false ∧
     ∀ j lj, (j < v)%nat → ls !! j = Some lj → is_valid lj = true) ∧
    (Forall (λ l, is_valid l = true) ls →
     Forall (λ l, lru_order l <= lru_order lv) ls ∧
     ∀ j lj, (j < v)%nat → ls !! j = Some lj → lru_order lj < lru_order lv) ∧
    get_line c' si v = Some (mkLine tg true (is_store op) 0) ∧
    ∀ j lj, j ≠ v → ls !! j = Some lj →
      ∃ lj', get_line c' si j = Some lj' ∧ tag lj' = tag lj ∧
             is_valid lj' = is_valid lj ∧ is_dirty lj' = is_dirty lj.
Proof.
  intros c op c'.
  apply (miss_replaces_first_invalid_or_lru c op c').
  - exists 2, 1, 512, 30, 2, c, [], [].
    split_and!; [geometry_is_valid | by_evaluation..].
  - by_evaluation.
Defined.

(** * A hit is repeatable *)

(** C7: in every reachable cache, when an access to an address is a hit, the
    next access to the same address, of any kind, is a hit too and leaves
    [misses] and [dirty_write_backs] as they are. *)
Theorem hit_then_hit c k1 k2 a n1 n2 c1 :
  reachable c →
  access_cache c (mkOp k1 a n1) = Return (c1, true) →
  ∃ c2, access_cache c1 (mkOp k2 a n2) = Return (c2, true) ∧
        get_cache_misses c2 = get_cache_misses c1 ∧
        get_dirty_write_backs c2 = get_dirty_write_backs c1.
Proof.
  intros Hreach Hacc.
  pose proof (reachable_inv _ (reachable_step _ _ _ _ Hreach Hacc)) as Hinv1.
  pose proof (reachable_inv _ Hreach) as Hinv.
  destruct (access_cache_step c (mkOp k1 a n1) Hinv)
    as (s & k & ls' & hit & wb & k' & Hsi & Hs & Hlen & Hk & Hset & _
        & Hlen' & Hret).
  rewrite Hacc in Hret. injection Hret as Hc1 <-. simpl in *.
  set (si := extract_set_index a c) in *.
  set (tg := extract_tag_number a c) in *.
  unfold set_access in Hset.
  destruct (list_find (matches tg) (lines s)) as [[j l]|] eqn:Hfind;
    [|by destruct (lines s !! victim (lines s))].
  injection Hset as <- <-.
  destruct (hit_lines_find (is_store (mkOp k2 a n2)) tg _ _ _ Hfind)
    as [l' Hfind'].
  destruct (hit_lines_find (is_store (mkOp k1 a n1)) tg _ _ _ Hfind)
    as [l1 Hfind1].
  destruct (access_cache_step c1 (mkOp k2 a n2) Hinv1)
    as (s2 & k2' & ls2 & hit2 & wb2 & k2'' & _ & Hs2 & _ & _ & Hset2 & _
        & _ & Hret2).
  simpl in *.
  assert (extract_set_index a c1 = si) as Hsi1 by (by rewrite Hc1).
  assert (extract_tag_number a c1 = tg) as Htg1 by (by rewrite Hc1).
  rewrite Hsi1, Htg1 in *.
  assert (lines s2 = hit_lines (is_store (mkOp k1 a n1)) (lines s) j l)
    as Hls2.
  { rewrite Hc1 in Hs2. simpl in Hs2.
    rewrite list_lookup_insert_eq in Hs2 by (by eapply lookup_lt_Some).
    by simplify_eq. }
  unfold set_access in Hset2. rewrite Hls2, Hfind1 in Hset2.
  injection Hset2 as <- <- <-.
  eexists. split; [exact Hret2|]. done.
Qed.

Lemma hit_then_hit_witness :
  let c := mkCache 2 1 512 30 2 1
             [mkSet [mkLine 1 true false 0; mkLine 0 false false 1]]
             (mkStats 0 1 0) 9 0 in
  let c1 := mkCache 2 1 512 30 2 1
              [mkSet [mkLine 1 true false 0; mkLine 0 false false 1]]
              (mkStats 1 1 0) 9 0 in
  ∃ c2, access_cache c1 (mkOp "s" 0x200 1) = Return (c2, true) ∧
        get_cache_misses c2 = get_cache_misses c1 ∧
        get_dirty_write_backs c2 = get_dirty_write_backs c1.
Proof.
  intros c c1.
  apply (hit_then_hit c "l" "s" 0x200 1 1 c1).
  - exists 2, 1, 512, 30, 2.
    exists (mkCache 2 1 512 30 2 1
              [mkSet [mkLine 0 false false 0; mkLine 0 false false 1]]
              (mkStats 0 0 0) 9 0), [mkOp "l" 0x200 1], [false].
    split_and!; [geometry_is_valid | by_evaluation..].
  - by_evaluation.
Defined.

(** * An access touches one set *)

Section Frame.
Implicit Types (c : Cache) (si : Z).

Lemma frame_refl si c : frame si c c.
Proof. unfold frame, same_geometry. by split_and!. Qed.

Lemma frame_trans si c1 c2 c3 :
  frame si c1 c2 → frame si c2 c3 → frame si c1 c3.
Proof.
  unfold frame, same_geometry.
  intros (G1 & L1 & S1) (G2 & L2 & S2). destruct_and!.
  split_and!; try congruence. intros j Hj. rewrite S2, S1; done.
Qed.

Lemma frame_with_stats si c st : frame si c (with_stats c st).
Proof. unfold frame, same_geometry. by split_and!. Qed.

Lemma frame_set_line si c i l c' :
  set_line c si i l = Some c' → frame si c c'.
Proof.
  unfold set_line. intros H.
  destruct (get_lines c si) as [ls|]; [|done]. simpl in H.
  destruct (ls !! i); [|done]. simpl in H. simplify_eq.
  unfold frame, same_geometry. split_and!; try done.
  - apply put_lines_length.
  - intros j Hj. by apply put_lines_other.
Qed.

Lemma frame_update_lru_loop n : ∀ i c si t c',
  update_lru_loop n i c si t = Some c' → frame si c c'.
Proof.
  induction n as [|n IH]; intros i c si t c' H; simpl in H.
  - simplify_eq. apply frame_refl.
  - destruct (get_line c si i) as [l|]; [|done]. simpl in H.
    destruct (lru_order l <? t).
    + destruct (set_line c si i _) as [c1|] eqn:E; [|done]. simpl in H.
      eapply frame_trans; [by eapply frame_set_line | by eapply IH].
    + simpl in H. by eapply IH.
Qed.

Lemma frame_update_lru_order c si i c' :
  update_lru_order c si i = Some c' → frame si c c'.
Proof.
  unfold update_lru_order. intros H.
  destruct (get_line c si i) as [l|]; [|done]. simpl in H.
  destruct (update_lru_loop _ _ _ _ _) as [c1|] eqn:E1; [|done].
  simpl in H. destruct (get_line c1 si i) as [l1|]; [|done]. simpl in H.
  eapply frame_trans;
    [by eapply frame_update_lru_loop | by eapply frame_set_line].
Qed.

Lemma frame_is_cache_hit_loop n : ∀ i c op si tg c' h,
  is_cache_hit_loop n i c op si tg = Some (c', h) → frame si c c'.
Proof.
  induction n as [|n IH]; intros i c op si tg c' h H; simpl in H.
  - simplify_eq. apply frame_refl.
  - destruct (get_line c si i) as [l|]; [|done]. simpl in H.
    destruct (is_valid l && (tag l =? tg)); [|by eapply IH].
    destruct (update_lru_order c si i) as [c1|] eqn:E1; [|done].
    simpl in H. apply frame_update_lru_order in E1.
    destruct (is_store op).
    + destruct (get_line c1 si i) as [l1|]; [|done]. simpl in H.
      destruct (set_line c1 si i _) as [c2|] eqn:E2; [|done].
      simpl in H. simplify_eq. apply frame_set_line in E2.
      eapply frame_trans; [done|].
      eapply frame_trans; [done | apply frame_with_stats].
    + simpl in H. simplify_eq.
      eapply frame_trans; [done | apply frame_with_stats].
Qed.

Lemma frame_handle_cache_miss c op si tg c' :
  handle_cache_miss c op si tg = Some c' → frame si c c'.
Proof.
  unfold handle_cache_miss. intros H.
  set (c0 := with_stats c (incr_misses (stats c))) in *.
  destruct (find_lru_line_index c0 si) as [v|]; [|done]. simpl in H.
  destruct (get_line c0 si v) as [lv|]; [|done]. simpl in H.
  destruct (set_line _ si v _) as [c2|] eqn:E2; [|done]. simpl in H.
  apply frame_set_line in E2. apply frame_update_lru_order in H.
  eapply frame_trans; [|exact H]. eapply frame_trans; [|exact E2].
  eapply frame_trans; [apply (frame_with_stats si c)|].
  fold c0. destruct (is_dirty lv);
    [apply frame_with_stats | apply frame_refl].
Qed.

End Frame.

(** C9: a single access, hit or miss, changes at most the lines of the
    addressed set and the statistics: the geometry fields keep their values,
    the number of sets is the same, and every other set is the same set,
    line by line (tag, valid, dirty and rank). *)
Theorem access_touches_only_its_set c op c' h :
  access_cache c op = Return (c', h) →
  let si := extract_set_index (address op) c in
  same_geometry c c' ∧
  length (sets c') = length (sets c) ∧
  ∀ j, j ≠ Z.to_nat si → sets c' !! j = sets c !! j.
Proof.
  intros H si. unfold access_cache in H. fold si in H.
  destruct (si >? num_sets c); [done|].
  destruct (is_cache_hit c op si _) as [[c1 [|]]|] eqn:Ehit; [| |done].
  - simplify_eq. by eapply frame_is_cache_hit_loop.
  - destruct (handle_cache_miss c1 op si _) as [c2|] eqn:Emiss; [|done].
    simplify_eq. eapply frame_trans.
    + by eapply frame_is_cache_hit_loop.
    + by eapply frame_handle_cache_miss.
Qed.

Lemma access_touches_only_its_set_witness :
  let c := mkCache 1 1 512 30 2 2
             [mkSet [mkLine 0 false false 0]; mkSet [mkLine 7 true true 0]]
             (mkStats 0 0 0) 9 1 in
  let op := mkOp "s" 0x400 1 in
  let c' := mkCache 1 1 512 30 2 2
              [mkSet [mkLine 1 true true 0]; mkSet [mkLine 7 true true 0]]
              (mkStats 0 1 0) 9 1 in
  let si := extract_set_index (address op) c in
  same_geometry c c' ∧
  length (sets c') = length (sets c) ∧
  ∀ j, j ≠ Z.to_nat si → sets c' !! j = sets c !! j.
Proof.
  intros c op c'.
  apply (access_touches_only_its_set c op c' false).
  by_evaluation.
Defined.

(** * Access kinds *)

Section Kinds.

Lemma is_cache_hit_loop_kind n : ∀ i c op op' si tg,
  is_store op = is_store op' →
  is_cache_hit_loop n i c op si tg = is_cache_hit_loop n i c op' si tg.
Proof.
  induction n as [|n IH]; intros i c op op' si tg Hst; simpl; [done|].
  rewrite Hst. destruct (get_line c si i) as [l|]; simpl; [|done].
  destruct (is_valid l && (tag l =? tg)); [done|]. by apply IH.
Qed.

Lemma handle_cache_miss_kind c op op' si tg :
  is_store op = is_store op' →
  handle_cache_miss c op si tg = handle_cache_miss c op' si tg.
Proof. intros Hst. unfold handle_cache_miss. by rewrite Hst. Qed.

(** The access type matters only through the test against ['s']. *)
Lemma access_cache_kind c op op' :
  address op = address op' → is_store op = is_store op' →
  access_cache c op = access_cache c op'.
Proof.
  intros Ha Hst. unfold access_cache, is_cache_hit. rewrite Ha.
  rewrite (is_cache_hit_loop_kind _ _ _ op op') by done.
  destruct (_ >? _); [done|].
  destruct (is_cache_hit_loop _ _ _ _ _ _) as [[c1 [|]]|]; try done.
  by rewrite (handle_cache_miss_kind _ op op').
Qed.

(** The only exit of [access_cache] is the range check on the set index. *)
Lemma access_cache_exit c op :
  access_cache c op = Exit ↔
  extract_set_index (address op) c > num_sets c.
Proof.
  unfold access_cache.
  destruct (Z.gtb_spec (extract_set_index (address op) c) (num_sets c)).
  - split; [lia | done].
  - destruct (is_cache_hit _ _ _ _) as [[c1 [|]]|]; try (split; [done|lia]).
    destruct (handle_cache_miss _ _ _ _); split; (done || lia).
Qed.

End Kinds.

(** C10: an access of any kind other than ['s'], recognised or not, is the
    same transition with the same result as a load of the same address, and
    whether [access_cache] exits depends on the address alone: no access
    kind is rejected. *)
Theorem other_kinds_are_loads c k a n n' :
  k ≠ "s"%char →
  access_cache c (mkOp k a n) = access_cache c (mkOp "l" a n') ∧
  ∀ k', access_cache c (mkOp k' a n) = Exit ↔
        extract_set_index a c > num_sets c.
Proof.
  intros Hk. split.
  - apply access_cache_kind; [done|]. unfold is_store. simpl.
    by apply Ascii.eqb_neq in Hk as ->.
  - intros k'. apply (access_cache_exit c (mkOp k' a n)).
Qed.

Lemma other_kinds_are_loads_witness :
  let c := mkCache 1 1 512 30 2 2
             [mkSet [mkLine 0 false false 0]; mkSet [mkLine 7 true true 0]]
             (mkStats 0 0 0) 9 1 in
  access_cache c (mkOp "x" 0x600 1) = access_cache c (mkOp "l" 0x600 3) ∧
  ∀ k', access_cache c (mkOp k' 0x600 1) = Exit ↔
        extract_set_index 0x600 c > num_sets c.
Proof.
  intros c.
  apply (other_kinds_are_loads c "x" 0x600 1 3).
  discriminate.
Defined.

(** * The range check on the set index *)

Section RangeCheck.

(** An index the [sets] array does not have, and that passes the check,
    leads to an access outside the array. *)
Lemma access_cache_unallocated c op :
  let si := extract_set_index (address op) c in
  si <= num_sets c → nthZ (sets c) si = None →
  access_cache c op = Fault.
Proof.
  intros si Hle Hnone. unfold access_cache. fold si.
  destruct (Z.gtb_spec si (num_sets c)); [lia|].
  assert (get_lines c si = None) as Hg by (unfold get_lines; by rewrite Hnone).
  assert (∀ n i c1, get_lines c1 si = None →
            is_cache_hit_loop n i c1 op si
              (extract_tag_number (address op) c)
            = (if n is O then Some (c1, false) else None)) as Hhit.
  { intros [|n] i c1 Hg1; simpl; [done|]. by rewrite get_line_None. }
  unfold is_cache_hit. rewrite Hhit by done.
  destruct (Z.to_nat (associativity c)) eqn:E; [|done].
  unfold handle_cache_miss, find_lru_line_index. simpl. rewrite E. simpl.
  by rewrite get_line_None.
Qed.

End RangeCheck.

(** C1, the code at the failing inputs.  A cache built with more ways than
    lines has no set at all; address [0] decodes to set index [0], which
    equals [num_sets], the check [set_index > num_sets] lets it pass, and the
    access reads outside the [sets] array instead of exiting.  The same
    happens in a cache of two sets whose stored logarithm is [2]: address
    [0x20] decodes to index [2 = num_sets] and is not caught, while [0x30]
    (index [3]) is. *)
Theorem index_equal_to_num_sets_is_not_caught :
  (∃ c, initialize_cache 4 1 512 30 2 = Some c ∧
        num_sets c = 0 ∧
        extract_set_index 0 c = num_sets c ∧
        access_cache c (mkOp "l" 0 1) = Fault) ∧
  (let c := mkCache 1 1 16 30 2 2
              [mkSet [mkLine 0 false false 0]; mkSet [mkLine 0 false false 0]]
              (mkStats 0 0 0) 4 2 in
   extract_set_index 0x20 c = num_sets c ∧
   access_cache c (mkOp "l" 0x20 1) = Fault ∧
   extract_set_index 0x30 c = 3 ∧
   access_cache c (mkOp "l" 0x30 1) = Exit).
Proof.
  split.
  - eexists.
    repeat (split; [by_evaluation|]). by_evaluation.
  - split_and!; by_evaluation.
Qed.

(** * The two-way scenario *)

(** With two ways and 16-byte lines every constructible cache has a
    multiple of 32 sets: the size argument counts kilobytes. *)
Lemma two_ways_16_bytes_sets s p d c :
  initialize_cache 2 s 16 p d = Some c → ∃ t, num_sets c = 32 * t.
Proof.
  unfold initialize_cache. simpl (2 =? 0). simpl (2 =? 1). cbv iota.
  replace (int_wrap (16 * 2)) with 32 by (vm_compute; reflexivity).
  unfold int_div. simpl (32 =? 0). cbv iota.
  cbn [mbind option_bind].
  set (bytes := int_wrap (s * 1024)).
  assert (∃ t, bytes = 1024 * t ∧ - 2 ^ 21 <= t < 2 ^ 21) as (t & Ht & Hr).
  { unfold bytes, int_wrap.
    replace (s * 1024 + 2 ^ 31) with (1024 * (s + 2 ^ 21)) by lia.
    replace (2 ^ 32) with (1024 * 2 ^ 22) by lia.
    rewrite Z.mul_mod_distr_l by lia.
    pose proof (Z.mod_pos_bound (s + 2 ^ 21) (2 ^ 22) ltac:(lia)).
    exists ((s + 2 ^ 21) mod 2 ^ 22 - 2 ^ 21). split; lia. }
  rewrite Ht. replace (1024 * t) with (32 * t * 32) by lia.
  rewrite Z.quot_mul by lia.
  rewrite int_wrap_id by (unfold int_range; lia).
  intros H. exists t.
  destruct (log2 16); [|done]. simpl in H.
  destruct (log2 (32 * t)); [|done]. simpl in H.
  destruct (allocate_cache_memory (32 * t) 2); [|done]. simpl in H.
  by simplify_eq.
Qed.

(** C6 as stated fails: a cache of 32 bytes cannot be constructed, since
    [initialize_cache] takes its size in kilobytes.  With associativity 2
    and 16-byte lines no size gives a single set, and the numbers of the
    scenario read as they stand (size 32) give 1024 sets; the three stores
    then fall into three different sets, nothing is evicted and
    [dirty_write_backs] is [0]. *)
Lemma scenario_32_bytes_counterexample :
  (∃ c c', initialize_cache 2 32 16 30 2 = Some c ∧
           num_sets c = 1024 ∧ associativity c = 2 ∧
           run_trace c scenario_16 = Return (c', [false; false; false]) ∧
           get_dirty_write_backs c' = 0) ∧
  (∀ s p d c, initialize_cache 2 s 16 p d = Some c → num_sets c ≠ 1).
Proof.
  split.
  - eexists _, _.
    repeat (split; [by_evaluation|]). by_evaluation.
  - intros s p d c [t Ht]%two_ways_16_bytes_sets. lia.
Qed.

(** C6, amended: the smallest cache has 1 KB.  With associativity 2,
    512-byte lines and 1 KB there is one set of two ways; the stores to
    [0x000], [0x200] and [0x400] all miss; before the third one the victim is
    line 0, which holds the block of [0x000], is dirty and has the largest
    rank, and after it [dirty_write_backs] is [1].  The original addresses
    [0x00], [0x10], [0x20] behave the same on any cache state of one set, two
    fresh ways and 16-byte lines, whatever its other fields. *)
Theorem scenario_one_set_two_ways :
  (∃ c c2 c3,
     initialize_cache 2 1 512 30 2 = Some c ∧
     num_sets c = 1 ∧ associativity c = 2 ∧
     run_trace c (take 2 scenario_512) = Return (c2, [false; false]) ∧
     find_lru_line_index c2 0 = Some 0%nat ∧
     get_line c2 0 0 = Some (mkLine 0 true true 1) ∧
     get_line c2 0 1 = Some (mkLine 1 true true 0) ∧
     access_cache c2 (mkOp "s" 0x400 1) = Return (c3, false) ∧
     run_trace c scenario_512 = Return (c3, [false; false; false]) ∧
     stats c3 = mkStats 0 3 1) ∧
  (∀ kb p d, ∃ c3,
     run_trace (mkCache 2 kb 16 p d 1 [initial_set 2] (mkStats 0 0 0) 4 0)
               scenario_16
     = Return (c3, [false; false; false]) ∧
     get_lines c3 0 = Some [mkLine 2 true true 0; mkLine 1 true true 1] ∧
     stats c3 = mkStats 0 3 1).
Proof.
  split.
  - eexists _, _, _.
    repeat (split; [by_evaluation|]). by_evaluation.
  - intros kb p d. eexists.
    repeat (split; [by_evaluation|]). by_evaluation.
Qed.

(** * Stores to the resident block *)

Section History.
Implicit Types (ls : list CacheLine) (l : CacheLine) (g : list (list ascii)).

Lemma dirty_hist_hit kind ls g j l :
  dirty_hist ls g → ls !! j = Some l →
  dirty_hist (hit_lines (is_s kind) ls j l) (alter (cons kind) j g).
Proof.
  intros [Hlen Hd] Hl. split.
  - by rewrite length_alter, hit_lines_length.
  - intros i li' h' Hli' Hh'.
    destruct (decide (i = j)) as [->|Hne].
    + rewrite list_lookup_alter_eq in Hh'.
      destruct (g !! j) as [h|] eqn:Hg; simplify_eq/=.
      rewrite <- (Hd j l h Hl Hg).
      pose proof (lookup_lt_Some _ _ _ Hl).
      unfold hit_lines in Hli'. destruct (is_s kind).
      * rewrite list_lookup_insert_eq in Hli'
          by (by rewrite promoted_length).
        by simplify_eq.
      * rewrite promoted_lookup in Hli' by done. by simplify_eq.
    + rewrite list_lookup_alter_ne in Hh' by done.
      assert (∃ li, ls !! i = Some li ∧ is_dirty li' = is_dirty li)
        as (li & Hli & ->).
      { unfold hit_lines in Hli'.
        assert (promoted ls j l !! i = Some li') as Hp.
        { destruct (is_s kind); [|done].
          by rewrite list_lookup_insert_ne in Hli'. }
        destruct (promoted_fields _ _ _ _ _ Hp Hl) as (li & ? & _ & _ & ?).
        eauto. }
      by apply (Hd i).
Qed.

Lemma dirty_hist_miss kind tg ls g v lv :
  dirty_hist ls g → ls !! v = Some lv →
  dirty_hist (miss_lines (is_s kind) tg ls v lv) (<[v := [kind]]> g).
Proof.
  intros [Hlen Hd] Hl. pose proof (lookup_lt_Some _ _ _ Hl) as Hlt. split.
  - by rewrite length_insert, miss_lines_length.
  - intros i li' h' Hli' Hh'. unfold miss_lines in Hli'.
    set (filled := mkLine tg true (is_s kind) (lru_order lv)) in *.
    assert (<[v := filled]> ls !! v = Some filled) as Hf
      by (by apply list_lookup_insert_eq).
    destruct (decide (i = v)) as [->|Hne].
    + rewrite list_lookup_insert_eq in Hh' by lia.
      rewrite promoted_lookup in Hli' by done.
      simplify_eq/=. by rewrite orb_false_r.
    + rewrite list_lookup_insert_ne in Hh' by done.
      destruct (promoted_fields _ _ _ _ _ Hli' Hf) as (li & Hli & _ & _ & ->).
      rewrite list_lookup_insert_ne in Hli by done.
      by apply (Hd i).
Qed.

Lemma initial_history_inv c :
  Forall (λ s, Forall (λ l, is_dirty l = false) (lines s)) (sets c) →
  hist_inv c (initial_history c).
Proof.
  intros Hclean. unfold initial_history. split; [by rewrite length_fmap|].
  intros n s g Hs Hg. rewrite list_lookup_fmap, Hs in Hg. simplify_eq/=.
  split; [by rewrite length_fmap|].
  intros i l h Hl Hh. rewrite list_lookup_fmap, Hl in Hh. simplify_eq/=.
  pose proof (Forall_lookup_1 _ _ _ _ Hclean Hs) as Hset. simpl in Hset.
  apply (Forall_lookup_1 _ _ _ _ Hset Hl).
Qed.

End History.

Section HistoryReplay.

Lemma is_store_is_s op : is_store op = is_s (access_type op).
Proof. done. Qed.

(** One access keeps the flags and the histories in step. *)
Lemma record_access_inv c op hist c' h :
  cache_inv c → hist_inv c hist →
  access_cache c op = Return (c', h) →
  hist_inv c' (record_access c op hist).
Proof.
  intros Hinv [Hlen Hhist] Hacc.
  destruct (access_cache_step c op Hinv)
    as (s & k & ls' & hit & wb & k' & Hsi & Hs & Hways & Hk & Hset & _
        & Hlen' & Hret).
  rewrite Hacc in Hret. injection Hret as -> <-.
  set (si := extract_set_index (address op) c) in *.
  set (tg := extract_tag_number (address op) c) in *.
  assert (get_lines c si = Some (lines s)) as Hg.
  { apply get_lines_Some. split; [lia|]. eauto. }
  destruct (lookup_lt_is_Some_2 hist (Z.to_nat si)) as [g Hgs].
  { rewrite Hlen. by eapply lookup_lt_Some. }
  pose proof (Hhist _ _ _ Hs Hgs) as Hdh.
  assert (∃ f, record_access c op hist = alter f (Z.to_nat si) hist ∧
               dirty_hist ls' (f g)) as (f & -> & Hdh').
  { unfold record_access, touched_line. fold si tg. rewrite Hg. simpl.
    unfold set_access in Hset. rewrite is_store_is_s in Hset.
    destruct (list_find (matches tg) (lines s)) as [[j l]|] eqn:Hfind.
    - injection Hset as <- <- <-. eexists. split; [done|].
      apply list_find_Some in Hfind as (Hl & _).
      by apply dirty_hist_hit.
    - rewrite (find_lru_line_index_spec c si (lines s)) by done. simpl.
      destruct (lines s !! victim (lines s)) as [lv|] eqn:Hv; [|done].
      injection Hset as <- <- <-. eexists. split; [done|].
      by apply dirty_hist_miss. }
  split.
  - rewrite length_alter. simpl. by rewrite length_insert.
  - intros n s' g' Hs' Hg'. simpl in Hs'.
    destruct (decide (n = Z.to_nat si)) as [->|Hne].
    + rewrite list_lookup_insert_eq in Hs' by (by eapply lookup_lt_Some).
      rewrite list_lookup_alter_eq, Hgs in Hg'. by simplify_eq/=.
    + rewrite list_lookup_insert_ne in Hs' by done.
      rewrite list_lookup_alter_ne in Hg' by done. by eapply Hhist.
Qed.

Lemma run_history_inv ops : ∀ c hist,
  cache_inv c → hist_inv c hist →
  ∃ c' hist', run_history c hist ops = Return (c', hist') ∧
              cache_inv c' ∧ hist_inv c' hist'.
Proof.
  induction ops as [|op ops IH]; intros c hist Hinv Hhist; simpl.
  - by eexists _, _.
  - destruct (access_cache_inv c op Hinv) as (c1 & h & Hacc & Hinv1).
    rewrite Hacc. apply IH; [done|]. by eapply record_access_inv.
Qed.

(** What a miss does to [dirty_write_backs]: one more exactly when the
    line it replaces is dirty. *)
Lemma miss_write_back c op c' v lv :
  cache_inv c → access_cache c op = Return (c', false) →
  let si := extract_set_index (address op) c in
  find_lru_line_index c si = Some v → get_line c si v = Some lv →
  get_dirty_write_backs c'
  = if is_dirty lv then int_wrap (get_dirty_write_backs c + 1)
    else get_dirty_write_backs c.
Proof.
  intros Hinv Hacc si Hfind Hline.
  destruct (access_cache_step c op Hinv)
    as (s & k & ls' & hit & wb & k' & Hsi & Hs & Hways & Hk & Hset & _
        & Hlen' & Hret).
  rewrite Hacc in Hret. injection Hret as -> <-. fold si in Hs, Hsi.
  assert (get_lines c si = Some (lines s)) as Hg.
  { apply get_lines_Some. split; [lia|]. eauto. }
  rewrite (find_lru_line_index_spec c si (lines s)) in Hfind by done.
  rewrite (get_line_eq _ _ _ _ Hg) in Hline. simplify_eq.
  unfold set_access in Hset.
  destruct (list_find _ (lines s)) as [[j l]|]; [done|].
  rewrite Hline in Hset. simpl in Hset. injection Hset as <- <-.
  unfold get_dirty_write_backs. simpl. by destruct (is_dirty lv).
Qed.

End HistoryReplay.

(** C5: for every validated geometry and every sequence of accesses, when
    the next access is a miss that replaces a valid line (an eviction),
    [dirty_write_backs] is incremented if the block resident in that line
    was the target of a store, on the miss that filled it or on a hit since,
    and keeps its value if it was not.  The increment is the [++] of a C
    [int]. *)
Theorem eviction_writes_back_iff_stored a s l p d :
  valid_geometry a s l →
  ∃ c0, initialize_cache a s l p d = Some c0 ∧
    ∀ ops, ∃ c hist,
      run_history c0 (initial_history c0) ops = Return (c, hist) ∧
      ∀ op c' v lv,
        access_cache c op = Return (c', false) →
        let si := extract_set_index (address op) c in
        find_lru_line_index c si = Some v →
        get_line c si v = Some lv →
        is_valid lv = true →
        get_dirty_write_backs c'
        = if stored_to hist si v
          then int_wrap (get_dirty_write_backs c + 1)
          else get_dirty_write_backs c.
Proof.
  intros Hvalid.
  destruct (initialize_cache_valid _ _ _ p d Hvalid)
    as (c0 & Hc0 & _ & _ & _ & _ & Hsets).
  exists c0. split; [done|]. intros ops.
  pose proof (initialize_cache_inv _ _ _ _ _ _ Hvalid Hc0) as Hinv0.
  assert (hist_inv c0 (initial_history c0)) as Hhist0.
  { apply initial_history_inv. rewrite Hsets. apply Forall_replicate.
    simpl. apply Forall_fmap, Forall_true. done. }
  destruct (run_history_inv ops c0 _ Hinv0 Hhist0)
    as (c & hist & Hrun & Hinv & Hlen & Hhist).
  exists c, hist. split; [done|].
  intros op c' v lv Hacc si Hfind Hline _.
  rewrite (miss_write_back c op c' v lv) by done. fold si.
  unfold get_line in Hline.
  destruct (get_lines c si) as [ls|] eqn:Hg; [|done]. simpl in Hline.
  apply get_lines_Some in Hg as (Hsi & s' & Hs' & <-).
  destruct (lookup_lt_is_Some_2 hist (Z.to_nat si)) as [g Hg].
  { rewrite Hlen. by eapply lookup_lt_Some. }
  destruct (Hhist _ _ _ Hs' Hg) as [Hglen Hd].
  destruct (lookup_lt_is_Some_2 g v) as [h Hh].
  { rewrite Hglen. by eapply lookup_lt_Some. }
  unfold stored_to. rewrite Hg. simpl. rewrite Hh.
  by rewrite (Hd v lv h Hline Hh).
Qed.

Lemma eviction_writes_back_iff_stored_witness :
  ∃ c0, initialize_cache 2 1 512 30 2 = Some c0 ∧
    ∀ ops, ∃ c hist,
      run_history c0 (initial_history c0) ops = Return (c, hist) ∧
      ∀ op c' v lv,
        access_cache c op = Return (c', false) →
        let si := extract_set_index (address op) c in
        find_lru_line_index c si = Some v →
        get_line c si v = Some lv →
        is_valid lv = true →
        get_dirty_write_backs c'
        = if stored_to hist si v
          then int_wrap (get_dirty_write_backs c + 1)
          else get_dirty_write_backs c.
Proof.
  apply (eviction_writes_back_iff_stored 2 1 512 30 2).
  geometry_is_valid.
Defined.

(** Both cases occur.  In a single set of two ways, after a store to
    [0x000] and a load of [0x200], the load of [0x400] evicts the block that
    was stored to and [dirty_write_backs] becomes [1]; the load of [0x600]
    that follows evicts the block that was only loaded and the counter stays
    at [1]. *)
Example eviction_of_stored_and_of_loaded_block :
  ∃ c0 c hist c1 c2,
    initialize_cache 2 1 512 30 2 = Some c0 ∧
    run_history c0 (initial_history c0) [mkOp "s" 0x000 1; mkOp "l" 0x200 1]
    = Return (c, hist) ∧
    find_lru_line_index c 0 = Some 0%nat ∧
    stored_to hist 0 0 = true ∧
    get_dirty_write_backs c = 0 ∧
    access_cache c (mkOp "l" 0x400 1) = Return (c1, false) ∧
    get_dirty_write_backs c1 = 1 ∧
    find_lru_line_index c1 0 = Some 1%nat ∧
    stored_to (record_access c (mkOp "l" 0x400 1) hist) 0 1 = false ∧
    access_cache c1 (mkOp "l" 0x600 1) = Return (c2, false) ∧
    get_dirty_write_backs c2 = 1.
Proof.
  eexists _, _, _, _, _.
  repeat (split; [by_evaluation|]). by_evaluation.
Qed.

(** * Further properties: integers and geometry *)

Section MoreIntFacts.

Lemma int_wrap_mod z : int_wrap z mod 2 ^ 32 = z mod 2 ^ 32.
Proof.
  unfold int_wrap. rewrite Zminus_mod_idemp_l. f_equal. lia.
Qed.

Lemma int_wrap_congr x y : x mod 2 ^ 32 = y mod 2 ^ 32 → int_wrap x = int_wrap y.
Proof.
  intros H. unfold int_wrap.
  rewrite <- (Zplus_mod_idemp_l x), <- (Zplus_mod_idemp_l y), H by lia. done.
Qed.

Lemma int_wrap_add_l x y : int_wrap (int_wrap x + y) = int_wrap (x + y).
Proof.
  apply int_wrap_congr.
  by rewrite <- Zplus_mod_idemp_l, int_wrap_mod, Zplus_mod_idemp_l.
Qed.

Lemma int_wrap_add_r x y : int_wrap (x + int_wrap y) = int_wrap (x + y).
Proof. rewrite (Z.add_comm x), int_wrap_add_l. f_equal. lia. Qed.

Lemma int_wrap_mul_l x y : int_wrap (int_wrap x * y) = int_wrap (x * y).
Proof.
  apply int_wrap_congr.
  by rewrite <- Zmult_mod_idemp_l, int_wrap_mod, Zmult_mod_idemp_l.
Qed.

Lemma land_pow2_pred k : 0 <= k → Z.land (2 ^ k) (2 ^ k - 1) = 0.
Proof.
  intros Hk. replace (2 ^ k - 1) with (Z.ones k) by (rewrite Z.ones_equiv; lia).
  rewrite Z.land_ones by done. apply Z.mod_same.
  pose proof (pow2_pos k Hk). lia.
Qed.

Lemma is_pow2_pow2 k : 0 <= k <= 30 → is_pow2 (2 ^ k) = true.
Proof.
  intros Hk. unfold is_pow2. pose proof (pow2_pos k ltac:(lia)).
  pose proof (pow2_int_range k Hk) as Hr. unfold int_range in Hr.
  rewrite int_wrap_id by (unfold int_range; lia).
  rewrite land_pow2_pred by lia.
  apply andb_true_iff. split; [apply Z.gtb_lt; lia | done].
Qed.

End MoreIntFacts.

(** X1: on every non-negative [int] the loop of [log2] ends and returns the
    integer logarithm: [0] for [0] and [1], and otherwise the [k] with
    [2^k <= n < 2^(k+1)]. *)
Theorem log2_is_floor_logarithm n :
  0 <= n < 2 ^ 31 →
  ∃ k, log2 n = Some k ∧ 0 <= k <= 30 ∧
       (n <= 1 → k = 0) ∧ (1 <= n → 2 ^ k <= n < 2 ^ (k + 1)).
Proof.
  intros Hn. exists (Z.log2 n). rewrite log2_spec by done.
  pose proof (Z.log2_nonneg n).
  split_and!; try done.
  - destruct (Z.eq_dec n 0) as [->|]; [simpl; lia|].
    assert (Z.log2 n < 31) by (apply Z.log2_lt_pow2; lia). lia.
  - intros Hle. assert (n = 0 ∨ n = 1) as [-> | ->] by lia; done.
  - intros Hpos. pose proof (Z.log2_spec n ltac:(lia)) as Hs.
    by rewrite <- Z.add_1_r in Hs.
Qed.

Lemma log2_is_floor_logarithm_witness :
  ∃ k, log2 1000 = Some k ∧ 0 <= k <= 30 ∧
       (1000 <= 1 → k = 0) ∧ (1 <= 1000 → 2 ^ k <= 1000 < 2 ^ (k + 1)).
Proof. apply (log2_is_floor_logarithm 1000). lia. Defined.

(** X2: on a negative [int] the loop of [log2] never ends, whatever bound
    is put on its iterations; [log2] and a construction that reaches it with
    a negative line size return nothing. *)
Theorem log2_of_negative_never_returns n :
  n < 0 →
  (∀ fuel log_value, log2_loop fuel n log_value = None) ∧
  log2 n = None ∧
  ∀ a s p d, initialize_cache a s n p d = None.
Proof.
  intros Hn. split_and!.
  - intros fuel lv. by apply log2_loop_diverges.
  - by apply log2_loop_diverges.
  - intros a s p d. unfold initialize_cache.
    destruct (if a =? 0 then _ else _) as [[ways nsets]|]; [|done].
    cbn -[log2]. unfold log2. by rewrite (log2_loop_diverges _ n) by lia.
Qed.

Lemma log2_of_negative_never_returns_witness :
  (∀ fuel log_value, log2_loop fuel (-16) log_value = None) ∧
  log2 (-16) = None ∧
  ∀ a s p d, initialize_cache a s (-16) p d = None.
Proof. apply (log2_of_negative_never_returns (-16)). lia. Defined.

(** X3: on an [int], the bit test of [is_pow2] holds exactly for the powers
    of two [2^0 .. 2^30]. *)
Theorem is_pow2_iff_power_of_two n :
  int_range n → (is_pow2 n = true ↔ ∃ k, 0 <= k <= 30 ∧ n = 2 ^ k).
Proof.
  intros Hr. split.
  - by apply is_pow2_spec.
  - intros (k & Hk & ->). by apply is_pow2_pow2.
Qed.

Lemma is_pow2_iff_power_of_two_witness :
  is_pow2 4096 = true ↔ ∃ k, 0 <= k <= 30 ∧ 4096 = 2 ^ k.
Proof. apply (is_pow2_iff_power_of_two 4096). unfold int_range. lia. Defined.

Section MoreGeometry.

Lemma validate_args_accepts a l s p d :
  int_range a → int_range l → int_range s →
  validate_args a l s p d = true →
  0 < p ∧ 0 < d ∧
  ∃ li j, 0 <= li ∧ 0 <= j <= 20 ∧ li <= j + 10 ∧ l = 2 ^ li ∧ s = 2 ^ j ∧
          (a = 0 ∨ ∃ m, 0 <= m ∧ li + m <= j + 10 ∧ a = 2 ^ m).
Proof.
  intros Ha Hl Hs Hv. unfold validate_args in Hv.
  destruct (_ || _) eqn:E1 in Hv; [done|].
  destruct (_ && _) eqn:E2 in Hv; [done|].
  destruct (_ || _) eqn:E3 in Hv; [done|].
  destruct (_ <? _) eqn:E4 in Hv; [done|].
  destruct (negb _) eqn:E5 in Hv; [done|].
  destruct (_ >? _) eqn:E6 in Hv; [done|]. clear Hv.
  apply orb_false_iff in E1 as [E1 Hd]. apply orb_false_iff in E1 as [E1 Hp].
  apply Z.leb_gt in Hd, Hp. split; [done|]. split; [done|].
  apply orb_false_iff in E3 as [Hpl Hps].
  apply negb_false_iff in Hpl, Hps.
  apply is_pow2_spec in Hpl as (li & Hli & ->); [|done].
  apply is_pow2_spec in Hps as (j & Hj & ->); [|done].
  apply Z.ltb_ge in E4.
  pose proof (pow2_pos li) as Hlpos.
  assert (j <= 20) as Hj20 by (apply cache_bytes_no_wrap; lia).
  assert (2 ^ j * 1024 = 2 ^ (j + 10)) as Hbytes
    by (rewrite Z.pow_add_r by lia; done).
  rewrite Hbytes in *.
  rewrite (int_wrap_id (2 ^ (j + 10))) in E4, E6
    by (apply pow2_int_range; lia).
  assert (li <= j + 10) as Hle by (apply (Z.pow_le_mono_r_iff 2); lia).
  rewrite pow2_quot in E6 by lia.
  rewrite int_wrap_id in E6 by (apply pow2_int_range; lia).
  assert (a <= 2 ^ (j + 10 - li)) as Hale
    by (destruct (Z.gtb_spec a (2 ^ (j + 10 - li))); [done | lia]).
  exists li, j. split_and!; try lia; try done.
  destruct (Z.eqb_spec a 0) as [->|Ha0]; [by left|right].
  destruct (Z.eqb_spec a 1) as [->|Ha1].
  { exists 0. split_and!; (done || lia). }
  simpl in E2. apply negb_false_iff in E2.
  apply is_pow2_spec in E2 as (m & Hm & ->); [|done].
  exists m. split_and!; try lia; try done.
  assert (m <= j + 10 - li); [|lia].
  apply (Z.pow_le_mono_r_iff 2); lia.
Qed.

Lemma validate_args_accepted li j a p d :
  0 <= li → 0 <= j <= 20 → li <= j + 10 → 0 < p → 0 < d →
  (a = 0 ∨ ∃ m, 0 <= m ∧ li + m <= j + 10 ∧ a = 2 ^ m) →
  validate_args a (2 ^ li) (2 ^ j) p d = true.
Proof.
  intros Hli Hj Hle Hp Hd Ha. unfold validate_args.
  pose proof (pow2_pos li Hli). pose proof (pow2_pos j ltac:(lia)).
  assert (0 <= a ∧ a <= 2 ^ (j + 10 - li) ∧
          negb (a =? 0) && negb (a =? 1) && negb (is_pow2 a) = false)
    as (Ha0 & Hale & ->).
  { destruct Ha as [-> | (m & Hm & Hmle & ->)].
    - pose proof (pow2_pos (j + 10 - li)). split_and!; (done || lia).
    - pose proof (pow2_pos m Hm). split_and!; [lia | |].
      + apply Z.pow_le_mono_r; lia.
      + rewrite is_pow2_pow2 by lia. apply andb_false_r. }
  assert ((a <? 0) = false) as -> by (apply Z.ltb_ge; lia).
  assert ((2 ^ li <=? 0) = false) as -> by (apply Z.leb_gt; lia).
  assert ((2 ^ j <=? 0) = false) as -> by (apply Z.leb_gt; lia).
  assert ((p <=? 0) = false) as -> by (apply Z.leb_gt; lia).
  assert ((d <=? 0) = false) as -> by (apply Z.leb_gt; lia).
  rewrite !is_pow2_pow2 by lia. cbn [orb negb].
  assert (2 ^ j * 1024 = 2 ^ (j + 10)) as ->
    by (rewrite Z.pow_add_r by lia; done).
  rewrite (int_wrap_id (2 ^ (j + 10))) by (apply pow2_int_range; lia).
  assert (2 ^ li <= 2 ^ (j + 10)) by (apply Z.pow_le_mono_r; lia).
  assert ((2 ^ (j + 10) <? 2 ^ li) = false) as -> by (apply Z.ltb_ge; lia).
  assert (Z.rem (2 ^ (j + 10)) (2 ^ li) = 0) as ->.
  { rewrite Z.rem_mod_nonneg by lia.
    replace (j + 10) with ((j + 10 - li) + li) by lia.
    rewrite Z.pow_add_r by lia. apply Z.mod_mul. lia. }
  rewrite pow2_quot by lia.
  rewrite (int_wrap_id (2 ^ (j + 10 - li))) by (apply pow2_int_range; lia).
  assert ((a >? 2 ^ (j + 10 - li)) = false) as ->.
  { destruct (Z.gtb_spec a (2 ^ (j + 10 - li))); [lia | done]. }
  done.
Qed.

(** What a returned cache records of the arguments. *)
Lemma initialize_cache_fields a s l p d c :
  initialize_cache a s l p d = Some c →
  cache_size c = s ∧ line_size c = l ∧
  miss_penalty c = p ∧ dirty_wb_penalty c = d ∧
  (a = 0 → num_sets c = 1) ∧ (a = 1 → associativity c = 1) ∧
  (a ≠ 0 → a ≠ 1 → associativity c = a).
Proof.
  unfold initialize_cache. intros H.
  destruct (if a =? 0 then _ else _) as [[ways nsets]|] eqn:Eg; [|done].
  cbn -[log2] in H.
  destruct (log2 l); [|done]. cbn -[log2] in H.
  destruct (log2 nsets); [|done]. cbn in H.
  destruct (allocate_cache_memory nsets ways); [|done]. cbn in H.
  simplify_eq. simpl. split_and!; try done.
  - intros ->. simpl in Eg. destruct (int_div _ _); by simplify_eq/=.
  - intros ->. simpl in Eg. destruct (int_div _ _); by simplify_eq/=.
  - intros H0 H1. destruct (Z.eqb_spec a 0); [done|].
    destruct (Z.eqb_spec a 1); [done|].
    destruct (int_div _ _); by simplify_eq/=.
Qed.

End MoreGeometry.

(** X4: on [int] arguments [validate_args] accepts exactly this: both
    penalties positive, the line size a power of two, the cache size a
    power of two of at most [2^20] KB (a larger one overflows the [int]
    product [cache_size * 1024]), the cache at least one line large, and the
    associativity [0] or a power of two (with [1]) of at most the number of
    lines. *)
Theorem validate_args_accepts_exactly a l s p d :
  int_range a → int_range l → int_range s →
  (validate_args a l s p d = true ↔
   0 < p ∧ 0 < d ∧
   ∃ li j, 0 <= li ∧ 0 <= j <= 20 ∧ li <= j + 10 ∧ l = 2 ^ li ∧ s = 2 ^ j ∧
           (a = 0 ∨ ∃ m, 0 <= m ∧ li + m <= j + 10 ∧ a = 2 ^ m)).
Proof.
  intros Ha Hl Hs. split.
  - by apply validate_args_accepts.
  - intros (Hp & Hd & li & j & Hli & Hj & Hle & -> & -> & Hassoc).
    by apply validate_args_accepted.
Qed.

Lemma validate_args_accepts_exactly_witness :
  validate_args 4 32 64 50 5 = true ↔
  0 < 50 ∧ 0 < 5 ∧
  ∃ li j, 0 <= li ∧ 0 <= j <= 20 ∧ li <= j + 10 ∧ 32 = 2 ^ li ∧ 64 = 2 ^ j ∧
          (4 = 0 ∨ ∃ m, 0 <= m ∧ li + m <= j + 10 ∧ 4 = 2 ^ m).
Proof.
  apply (validate_args_accepts_exactly 4 32 64 50 5);
    unfold int_range; lia.
Defined.

(** X5: for a validated geometry the constructor returns a cache that
    records the arguments, has zeroed statistics, one set and
    [bytes / line_size] ways for associativity [0], one way and
    [bytes / line_size] sets for associativity [1], and otherwise the given
    ways and [bytes / (line_size * associativity)] sets, with
    [bytes = cache_size * 1024]; the stored logarithms are exact; and every
    one of the [num_sets] sets has [associativity] lines, line [j] being
    invalid, clean, of tag [0] and of rank [j]. *)
Theorem initialize_cache_builds a s l p d :
  valid_geometry a s l →
  ∃ c, initialize_cache a s l p d = Some c ∧
    cache_size c = s ∧ line_size c = l ∧
    miss_penalty c = p ∧ dirty_wb_penalty c = d ∧
    stats c = mkStats 0 0 0 ∧
    (a = 0 → num_sets c = 1 ∧ associativity c = s * 1024 / l) ∧
    (a = 1 → associativity c = 1 ∧ num_sets c = s * 1024 / l) ∧
    (2 <= a → associativity c = a ∧ num_sets c = s * 1024 / (l * a)) ∧
    2 ^ log_line_size c = l ∧ 2 ^ log_num_sets c = num_sets c ∧
    length (sets c) = Z.to_nat (num_sets c) ∧
    ∀ i st, sets c !! i = Some st →
      length (lines st) = Z.to_nat (associativity c) ∧
      ∀ j ln, lines st !! j = Some ln →
              ln = mkLine 0 false false (Z.of_nat j).
Proof.
  intros Hvalid.
  destruct (initialize_cache_valid _ _ _ p d Hvalid)
    as (c & Hc & Hgeom & Hs & Hl & Hst & Hsets).
  destruct (initialize_cache_fields _ _ _ _ _ _ Hc)
    as (_ & _ & Hp & Hd & H0 & H1 & Hn).
  destruct (geometry_ok_ways _ Hgeom) as [Hways Hns].
  destruct Hgeom as (li & x & y & Hli & Hx & Hy & Hsum & Hls & Hnsx & Hay
                     & Hlls & Hlns & Hbytes).
  assert (num_sets c * associativity c * line_size c = s * 1024) as Hprod.
  { rewrite <- Hs, Hbytes, Hnsx, Hay, Hls, <- !Z.pow_add_r by lia.
    f_equal. lia. }
  assert (0 < l) as Hlpos by (rewrite <- Hl, Hls; by apply pow2_pos).
  exists c. split_and!; try done.
  - intros ->. rewrite (H0 eq_refl) in *. split; [done|].
    rewrite <- Hprod, Hl. rewrite Z.mul_1_l, Z.div_mul; lia.
  - intros ->. rewrite (H1 eq_refl) in *. split; [done|].
    rewrite <- Hprod, Hl. rewrite Z.mul_1_r, Z.div_mul; lia.
  - intros Ha2. rewrite Hn in * by lia. split; [done|].
    rewrite <- Hprod, Hl.
    replace (num_sets c * a * l) with (num_sets c * (l * a)) by lia.
    rewrite Z.div_mul; lia.
  - by rewrite Hlls, <- Hls.
  - by rewrite Hlns.
  - by rewrite Hsets, length_replicate.
  - intros i st Hi. rewrite Hsets in Hi.
    apply lookup_replicate in Hi as [-> _]. simpl.
    split; [by rewrite length_fmap, length_seq|].
    intros j ln Hj. rewrite list_lookup_fmap in Hj.
    destruct (seq 0 (Z.to_nat (associativity c)) !! j) as [j'|] eqn:E;
      simplify_eq/=.
    apply lookup_seq in E as [-> _]. done.
Qed.

Lemma initialize_cache_builds_witness :
  ∃ c, initialize_cache 4 64 32 50 5 = Some c ∧
    cache_size c = 64 ∧ line_size c = 32 ∧
    miss_penalty c = 50 ∧ dirty_wb_penalty c = 5 ∧
    stats c = mkStats 0 0 0 ∧
    (4 = 0 → num_sets c = 1 ∧ associativity c = 64 * 1024 / 32) ∧
    (4 = 1 → associativity c = 1 ∧ num_sets c = 64 * 1024 / 32) ∧
    (2 <= 4 → associativity c = 4 ∧ num_sets c = 64 * 1024 / (32 * 4)) ∧
    2 ^ log_line_size c = 32 ∧ 2 ^ log_num_sets c = num_sets c ∧
    length (sets c) = Z.to_nat (num_sets c) ∧
    ∀ i st, sets c !! i = Some st →
      length (lines st) = Z.to_nat (associativity c) ∧
      ∀ j ln, lines st !! j = Some ln →
              ln = mkLine 0 false false (Z.of_nat j).
Proof. apply (initialize_cache_builds 4 64 32 50 5). geometry_is_valid. Defined.

(** X6: a line size of zero makes the constructor divide by zero: no cache
    is returned, whatever the other arguments. *)
Theorem initialize_cache_zero_line_size a s p d :
  initialize_cache a s 0 p d = None.
Proof.
  unfold initialize_cache. rewrite Z.mul_0_l.
  replace (int_wrap 0) with 0 by done. unfold int_div. simpl (0 =? 0).
  by destruct (a =? 0), (a =? 1).
Qed.

(** * Further properties: residency *)

Section Residency.
Implicit Types (c : Cache) (ls : list CacheLine) (l : CacheLine).

(** A set that holds a valid line with the tag gives a hit. *)
Lemma resident_hits c op ls j l :
  cache_inv c →
  let si := extract_set_index (address op) c in
  let tg := extract_tag_number (address op) c in
  get_lines c si = Some ls → ls !! j = Some l → matches tg l →
  ∃ c', access_cache c op = Return (c', true).
Proof.
  intros Hinv si tg Hg Hl Hm.
  destruct (access_cache_step c op Hinv)
    as (s & k & ls' & hit & wb & k' & Hsi & Hs & _ & _ & Hset & _ & _ & Hret).
  fold si tg in Hs, Hset, Hret.
  apply get_lines_Some in Hg as (_ & s' & Hs' & <-).
  rewrite Hs in Hs'. simplify_eq.
  unfold set_access in Hset.
  destruct (list_find (matches tg) (lines s')) as [[j' l']|] eqn:Hfind.
  - simplify_eq. eauto.
  - apply list_find_None in Hfind.
    by destruct (Forall_lookup_1 _ _ _ _ Hfind Hl).
Qed.

(** After an access the addressed set holds the block in a valid line of
    rank [0]. *)
Lemma accessed_line c op c' h :
  cache_inv c → access_cache c op = Return (c', h) →
  let si := extract_set_index (address op) c in
  let tg := extract_tag_number (address op) c in
  ∃ ls' j l,
    get_lines c' si = Some ls' ∧ ls' !! j = Some l ∧
    is_valid l = true ∧ tag l = tg ∧ lru_order l = 0 ∧
    (is_store op = true → is_dirty l = true) ∧
    (h = false → is_dirty l = is_store op).
Proof.
  intros Hinv Hacc si tg.
  destruct (access_cache_step c op Hinv)
    as (s & k & ls' & hit & wb & k' & Hsi & Hs & _ & _ & Hset & _ & _ & Hret).
  fold si tg in Hsi, Hs, Hset, Hret.
  rewrite Hacc in Hret. injection Hret as -> <-.
  assert (get_lines c si = Some (lines s)) as Hg.
  { apply get_lines_Some. split; [lia|]. eauto. }
  assert (get_lines (with_stats (put_lines c si ls') (account h wb (stats c)))
                    si = Some ls') as Hg'
    by (by eapply get_lines_put_lines).
  exists ls'. unfold set_access in Hset.
  destruct (list_find (matches tg) (lines s)) as [[j l]|] eqn:Hfind.
  - injection Hset as <- <- <-.
    apply list_find_Some in Hfind as (Hl & Hm & _).
    unfold matches in Hm. apply andb_true_iff in Hm as [Hv Ht].
    apply Z.eqb_eq in Ht.
    pose proof (lookup_lt_Some _ _ _ Hl) as Hlt.
    unfold hit_lines. destruct (is_store op).
    + exists j, (with_dirty (with_lru l 0) true). split_and!; try done.
      apply list_lookup_insert_eq. by rewrite promoted_length.
    + exists j, (with_lru l 0). split_and!; try done.
      by apply promoted_lookup.
  - destruct (lines s !! victim (lines s)) as [lv|] eqn:Hv; [|done].
    injection Hset as <- <- <-.
    exists (victim (lines s)),
           (with_lru (mkLine tg true (is_store op) (lru_order lv)) 0).
    split_and!; try done.
    unfold miss_lines. apply promoted_lookup.
    apply list_lookup_insert_eq. by eapply lookup_lt_Some.
Qed.

(** The frame of one access. *)
Lemma access_cache_frame c op c' h :
  access_cache c op = Return (c', h) →
  frame (extract_set_index (address op) c) c c'.
Proof.
  intros H. unfold access_cache in H.
  set (si := extract_set_index (address op) c) in *.
  destruct (si >? num_sets c); [done|].
  destruct (is_cache_hit c op si _) as [[c1 [|]]|] eqn:Ehit; [| |done].
  - simplify_eq. by eapply frame_is_cache_hit_loop.
  - destruct (handle_cache_miss c1 op si _) as [c2|] eqn:Emiss; [|done].
    simplify_eq. eapply frame_trans.
    + by eapply frame_is_cache_hit_loop.
    + by eapply frame_handle_cache_miss.
Qed.

(** Two addresses of one line decode alike. *)
Lemma decode_same_line c a a' :
  geometry_ok c → a / line_size c = a' / line_size c →
  extract_set_index a c = extract_set_index a' c ∧
  extract_tag_number a c = extract_tag_number a' c.
Proof.
  intros Hgeom Hline.
  destruct (extract_set_index_geom c a Hgeom) as [-> _].
  destruct (extract_set_index_geom c a' Hgeom) as [-> _].
  rewrite !extract_tag_number_geom by done.
  destruct Hgeom as (li & x & y & Hli & Hx & Hy & _ & Hls & _ & _ & Hlls
                     & Hlns & _).
  assert (Z.shiftr a (log_line_size c) = Z.shiftr a' (log_line_size c)) as Hsh.
  { rewrite !Z.shiftr_div_pow2 by lia. by rewrite Hlls, <- Hls. }
  rewrite <- !Z.shiftr_shiftr by lia. by rewrite Hsh.
Qed.

End Residency.

(** X7: the first access to a freshly constructed cache of a validated
    geometry is a miss, whatever its kind and address, and leaves the
    statistics at no hit, one miss and no dirty write-back. *)
Theorem first_access_misses a s l p d :
  valid_geometry a s l →
  ∃ c0, initialize_cache a s l p d = Some c0 ∧
        ∀ op, ∃ c', access_cache c0 op = Return (c', false) ∧
                    stats c' = mkStats 0 1 0.
Proof.
  intros Hvalid.
  destruct (initialize_cache_valid _ _ _ p d Hvalid)
    as (c0 & Hc0 & _ & _ & _ & Hst & Hsets).
  exists c0. split; [done|]. intros op.
  pose proof (initialize_cache_inv _ _ _ _ _ _ Hvalid Hc0) as Hinv.
  destruct (access_cache_step c0 op Hinv)
    as (st & k & ls' & hit & wb & k' & Hsi & Hs & _ & _ & Hset & _ & _ & Hret).
  rewrite Hsets in Hs. apply lookup_replicate in Hs as [-> _].
  unfold set_access in Hset.
  assert (Forall (λ ln, is_valid ln = false ∧ is_dirty ln = false)
                 (lines (initial_set (associativity c0)))) as Hfresh.
  { simpl. apply Forall_fmap, Forall_true. done. }
  destruct (list_find _ _) as [[j ln]|] eqn:Hfind.
  - apply list_find_Some in Hfind as (Hln & Hm & _).
    destruct (Forall_lookup_1 _ _ _ _ Hfresh Hln) as [Hv _].
    unfold matches in Hm. by rewrite Hv in Hm.
  - destruct (_ !! victim _) as [lv|] eqn:Hv; [|done].
    destruct (Forall_lookup_1 _ _ _ _ Hfresh Hv) as [_ Hd].
    injection Hset as <- <- <-. rewrite Hd in Hret.
    eexists. split; [exact Hret|]. simpl. by rewrite Hst.
Qed.

Lemma first_access_misses_witness :
  ∃ c0, initialize_cache 1 16 16 30 2 = Some c0 ∧
        ∀ op, ∃ c', access_cache c0 op = Return (c', false) ∧
                    stats c' = mkStats 0 1 0.
Proof. apply (first_access_misses 1 16 16 30 2). geometry_is_valid. Defined.

(** X8: after any access to a reachable cache, hit or miss, the addressed
    set holds the block in a valid line that carries the decoded tag and
    rank [0] (most recently used); the line is dirty after a store, and
    after a miss it is dirty exactly when the access was a store. *)
Theorem accessed_block_is_most_recent c op c' h :
  reachable c → access_cache c op = Return (c', h) →
  let si := extract_set_index (address op) c in
  let tg := extract_tag_number (address op) c in
  ∃ ls' j ln,
    get_lines c' si = Some ls' ∧ ls' !! j = Some ln ∧
    is_valid ln = true ∧ tag ln = tg ∧ lru_order ln = 0 ∧
    (is_store op = true → is_dirty ln = true) ∧
    (h = false → is_dirty ln = is_store op).
Proof. intros Hreach%reachable_inv Hacc. by apply accessed_line. Qed.

Lemma accessed_block_is_most_recent_witness :
  let c := mkCache 2 1 512 30 2 1
             [mkSet [mkLine 1 true false 0; mkLine 0 false false 1]]
             (mkStats 0 1 0) 9 0 in
  let op := mkOp "s" 0x400 1 in
  let c' := mkCache 2 1 512 30 2 1
              [mkSet [mkLine 1 true false 1; mkLine 2 true true 0]]
              (mkStats 0 2 0) 9 0 in
  let si := extract_set_index (address op) c in
  let tg := extract_tag_number (address op) c in
  ∃ ls' j ln,
    get_lines c' si = Some ls' ∧ ls' !! j = Some ln ∧
    is_valid ln = true ∧ tag ln = tg ∧ lru_order ln = 0 ∧
    (is_store op = true → is_dirty ln = true) ∧
    (false = false → is_dirty ln = is_store op).
Proof.
  intros c op c'.
  apply (accessed_block_is_most_recent c op c' false).
  - exists 2, 1, 512, 30, 2.
    exists (mkCache 2 1 512 30 2 1
              [mkSet [mkLine 0 false false 0; mkLine 0 false false 1]]
              (mkStats 0 0 0) 9 0), [mkOp "l" 0x200 1], [false].
    split_and!; [geometry_is_valid | by_evaluation..].
  - by_evaluation.
Defined.

(** X9: after any access to a reachable cache, hit or miss, load or store,
    the next access to any address of the same line, of any kind, is a hit
    (the block is allocated on a store miss too). *)
Theorem access_then_same_line_hits c op c1 h k a' n :
  reachable c → access_cache c op = Return (c1, h) →
  a' / line_size c = address op / line_size c →
  ∃ c2, access_cache c1 (mkOp k a' n) = Return (c2, true).
Proof.
  intros Hreach Hacc Hline.
  pose proof (reachable_inv _ Hreach) as Hinv.
  pose proof (reachable_inv _ (reachable_step _ _ _ _ Hreach Hacc)) as Hinv1.
  destruct (accessed_line c op c1 h Hinv Hacc)
    as (ls' & j & ln & Hg & Hln & Hv & Ht & _).
  destruct (access_cache_frame c op c1 h Hacc) as (Hgeo & _).
  destruct Hinv as (Hgeom & _).
  destruct (decode_same_line c a' (address op) Hgeom Hline) as [Hsi Htg].
  assert (extract_set_index a' c1 = extract_set_index a' c) as Hsi1.
  { unfold extract_set_index. destruct Hgeo as (_ & _ & _ & _ & _ & -> & -> & ->).
    done. }
  assert (extract_tag_number a' c1 = extract_tag_number a' c) as Htg1.
  { unfold extract_tag_number.
    destruct Hgeo as (_ & _ & _ & _ & _ & _ & -> & ->). done. }
  eapply (resident_hits c1 (mkOp k a' n) ls' j ln); simpl; try done.
  - by rewrite Hsi1, Hsi.
  - unfold matches. rewrite Hv, Htg1, Htg, Ht. simpl. by apply Z.eqb_eq.
Qed.

Lemma access_then_same_line_hits_witness :
  let c := mkCache 2 1 512 30 2 1
             [mkSet [mkLine 0 false false 0; mkLine 0 false false 1]]
             (mkStats 0 0 0) 9 0 in
  let c1 := mkCache 2 1 512 30 2 1
              [mkSet [mkLine 1 true true 0; mkLine 0 false false 1]]
              (mkStats 0 1 0) 9 0 in
  ∃ c2, access_cache c1 (mkOp "l" 0x3ff 1) = Return (c2, true).
Proof.
  intros c c1.
  apply (access_then_same_line_hits c (mkOp "s" 0x200 1) c1 false "l" 0x3ff 1).
  - exists 2, 1, 512, 30, 2, c, [], [].
    split_and!; [geometry_is_valid | by_evaluation..].
  - by_evaluation.
  - by_evaluation.
Defined.

(** * Further properties: decoding *)

Section MoreDecoding.

(** The line number of an address is [tag * num_sets + set_index], as long
    as the tag fits its [int]. *)
Lemma decode_line_number c x :
  geometry_ok c → 0 <= x → x / (line_size c * num_sets c) < 2 ^ 31 →
  x / line_size c
  = extract_tag_number x c * num_sets c + extract_set_index x c.
Proof.
  intros Hgeom Hx Hsmall.
  destruct (extract_set_index_geom c x Hgeom) as [-> _].
  rewrite extract_tag_number_geom by done.
  destruct Hgeom as (li & n & y & Hli & Hn & Hy & _ & Hls & Hns & _ & Hlls
                     & Hlns & _).
  rewrite Hlls, Hlns, Hls, Hns in *.
  pose proof (pow2_pos li Hli). pose proof (pow2_pos n Hn).
  rewrite !Z.shiftr_div_pow2 by lia.
  rewrite Z.pow_add_r, <- Z.div_div by lia.
  set (q := x / 2 ^ li) in *.
  assert (0 <= q) by (apply Z.div_pos; lia).
  assert (0 <= q / 2 ^ n) by (apply Z.div_pos; lia).
  rewrite <- Z.div_div in Hsmall by lia. fold q in Hsmall.
  rewrite int_wrap_id by (unfold int_range; lia).
  destruct (Z.eqb_spec (2 ^ n) 1) as [Hone|Hone].
  - rewrite Hone, Z.div_1_r. lia.
  - replace (2 ^ n - 1) with (Z.ones n) by (rewrite Z.ones_equiv; lia).
    rewrite Z.land_ones by lia.
    pose proof (Z.div_mod q (2 ^ n) ltac:(lia)). lia.
Qed.

End MoreDecoding.

(** X10: under a validated geometry, for addresses whose tag fits the [int]
    it is stored in, decoding splits the address exactly,
    [address = (tag * num_sets + set_index) * line_size + offset] with the
    offset [address mod line_size], and two addresses have the same set
    index and tag exactly when they lie in the same line. *)
Theorem decode_identifies_lines a s l p d :
  valid_geometry a s l →
  ∃ c, initialize_cache a s l p d = Some c ∧
    ∀ x, 0 <= x → x / (line_size c * num_sets c) < 2 ^ 31 →
      x = (extract_tag_number x c * num_sets c + extract_set_index x c)
          * line_size c + x mod line_size c ∧
      ∀ y, 0 <= y → y / (line_size c * num_sets c) < 2 ^ 31 →
        (extract_set_index x c = extract_set_index y c ∧
         extract_tag_number x c = extract_tag_number y c
         ↔ x / line_size c = y / line_size c).
Proof.
  intros Hvalid.
  destruct (initialize_cache_valid _ _ _ p d Hvalid) as (c & Hc & Hgeom & _).
  exists c. split; [done|]. intros x Hx Hxs.
  pose proof (decode_line_number c x Hgeom Hx Hxs) as Hqx.
  assert (0 < line_size c) as Hlpos.
  { destruct Hgeom as (li & _ & _ & Hli & _ & _ & _ & -> & _).
    by apply pow2_pos. }
  split.
  - rewrite <- Hqx. pose proof (Z.div_mod x (line_size c) ltac:(lia)). lia.
  - intros y Hy Hys.
    pose proof (decode_line_number c y Hgeom Hy Hys) as Hqy. split.
    + intros [Hsi Htg]. by rewrite Hqx, Hqy, Hsi, Htg.
    + intros Hline. by apply decode_same_line.
Qed.

Lemma decode_identifies_lines_witness :
  ∃ c, initialize_cache 1 16 16 30 2 = Some c ∧
    ∀ x, 0 <= x → x / (line_size c * num_sets c) < 2 ^ 31 →
      x = (extract_tag_number x c * num_sets c + extract_set_index x c)
          * line_size c + x mod line_size c ∧
      ∀ y, 0 <= y → y / (line_size c * num_sets c) < 2 ^ 31 →
        (extract_set_index x c = extract_set_index y c ∧
         extract_tag_number x c = extract_tag_number y c
         ↔ x / line_size c = y / line_size c).
Proof. apply (decode_identifies_lines 1 16 16 30 2). geometry_is_valid. Defined.

(** * Further properties: statistics *)

Section Statistics.
Implicit Types (c : Cache) (ls : list CacheLine) (l : CacheLine).

Lemma stats_set_line c si i l c' :
  set_line c si i l = Some c' → stats c' = stats c.
Proof.
  unfold set_line. intros H.
  destruct (get_lines c si) as [ls|]; [|done]. simpl in H.
  destruct (ls !! i); [|done]. simpl in H. by simplify_eq.
Qed.

Lemma stats_update_lru_loop n : ∀ i c si t c',
  update_lru_loop n i c si t = Some c' → stats c' = stats c.
Proof.
  induction n as [|n IH]; intros i c si t c' H; simpl in H; [by simplify_eq|].
  destruct (get_line c si i) as [l|]; [|done]. simpl in H.
  destruct (lru_order l <? t).
  - destruct (set_line c si i _) as [c1|] eqn:E; [|done]. simpl in H.
    rewrite (IH _ _ _ _ _ H). by eapply stats_set_line.
  - simpl in H. by eapply IH.
Qed.

Lemma stats_update_lru_order c si i c' :
  update_lru_order c si i = Some c' → stats c' = stats c.
Proof.
  unfold update_lru_order. intros H.
  destruct (get_line c si i) as [l|]; [|done]. simpl in H.
  destruct (update_lru_loop _ _ _ _ _) as [c1|] eqn:E1; [|done].
  simpl in H. destruct (get_line c1 si i) as [l1|]; [|done]. simpl in H.
  rewrite (stats_set_line _ _ _ _ _ H). by eapply stats_update_lru_loop.
Qed.

(** The hit scan either counts one hit or leaves the cache alone. *)
Lemma is_cache_hit_loop_stats n : ∀ i c op si tg c' h,
  is_cache_hit_loop n i c op si tg = Some (c', h) →
  if h then stats c' = incr_hits (stats c) else c' = c.
Proof.
  induction n as [|n IH]; intros i c op si tg c' h H; simpl in H.
  - by simplify_eq.
  - destruct (get_line c si i) as [l|]; [|done]. simpl in H.
    destruct (is_valid l && (tag l =? tg)); [|by eapply IH].
    destruct (update_lru_order c si i) as [c1|] eqn:E1; [|done].
    simpl in H. apply stats_update_lru_order in E1.
    destruct (is_store op).
    + destruct (get_line c1 si i) as [l1|]; [|done]. simpl in H.
      destruct (set_line c1 si i _) as [c2|] eqn:E2; [|done].
      simpl in H. simplify_eq. apply stats_set_line in E2.
      simpl. by rewrite E2, E1.
    + simpl in H. simplify_eq. simpl. by rewrite E1.
Qed.

Lemma handle_cache_miss_stats c op si tg c' :
  handle_cache_miss c op si tg = Some c' →
  stats c' = incr_misses (stats c) ∨
  stats c' = incr_dirty_write_backs (incr_misses (stats c)).
Proof.
  unfold handle_cache_miss. intros H.
  set (c0 := with_stats c (incr_misses (stats c))) in *.
  destruct (find_lru_line_index c0 si) as [v|]; [|done]. simpl in H.
  destruct (get_line c0 si v) as [lv|]; [|done]. simpl in H.
  destruct (set_line _ si v _) as [c2|] eqn:E2; [|done]. simpl in H.
  apply stats_set_line in E2. apply stats_update_lru_order in H.
  rewrite H, E2. destruct (is_dirty lv); [by right | by left].
Qed.

Lemma access_cache_stats c op c' h :
  access_cache c op = Return (c', h) →
  if h then stats c' = incr_hits (stats c)
  else stats c' = incr_misses (stats c) ∨
       stats c' = incr_dirty_write_backs (incr_misses (stats c)).
Proof.
  unfold access_cache. intros H.
  destruct (_ >? _); [done|].
  destruct (is_cache_hit c op _ _) as [[c1 [|]]|] eqn:Ehit; [| |done].
  - simplify_eq. by apply is_cache_hit_loop_stats in Ehit.
  - destruct (handle_cache_miss c1 op _ _) as [c2|] eqn:Emiss; [|done].
    simplify_eq. apply is_cache_hit_loop_stats in Ehit. subst c1.
    by apply handle_cache_miss_stats in Emiss.
Qed.

Lemma count_hits_cons h hs :
  count_hits (h :: hs) = (if h then 1 else 0) + count_hits hs.
Proof. unfold count_hits. destruct h; simpl; lia. Qed.

Lemma count_misses_cons h hs :
  count_misses (h :: hs) = (if h then 0 else 1) + count_misses hs.
Proof. unfold count_misses. destruct h; simpl; lia. Qed.

Lemma count_hits_misses hs :
  0 <= count_hits hs ∧ 0 <= count_misses hs ∧
  count_hits hs + count_misses hs = Z.of_nat (length hs).
Proof.
  induction hs as [|h hs IH].
  - unfold count_hits, count_misses. simpl. lia.
  - rewrite count_hits_cons, count_misses_cons. destruct h; simpl length; lia.
Qed.

(** The counters after a replay that returns, as long as they fit [int]. *)
Lemma run_trace_counts ops : ∀ c c' hs,
  run_trace c ops = Return (c', hs) →
  0 <= hits (stats c) → 0 <= misses (stats c) →
  0 <= dirty_write_backs (stats c) <= misses (stats c) →
  hits (stats c) + misses (stats c) + Z.of_nat (length ops) < 2 ^ 31 →
  length hs = length ops ∧
  hits (stats c') = hits (stats c) + count_hits hs ∧
  misses (stats c') = misses (stats c) + count_misses hs ∧
  dirty_write_backs (stats c) <= dirty_write_backs (stats c') ∧
  dirty_write_backs (stats c') - dirty_write_backs (stats c)
  <= count_misses hs.
Proof.
  induction ops as [|op ops IH]; intros c c' hs Hrun Hh Hm Hd Hfit;
    simpl in Hrun.
  - simplify_eq. unfold count_hits, count_misses. simpl. lia.
  - destruct (access_cache c op) as [[c1 h]| |] eqn:Hacc; [|done..].
    destruct (run_trace c1 ops) as [[c2 hs']| |] eqn:Hrest; [|done..].
    simplify_eq. simpl length in Hfit.
    apply access_cache_stats in Hacc.
    rewrite count_hits_cons, count_misses_cons.
    pose proof (count_hits_misses hs') as (Hch & Hcm & Hsum).
    assert (∀ z, 0 <= z < 2 ^ 31 - 1 → int_wrap (z + 1) = z + 1) as Hw
      by (intros; apply int_wrap_id; unfold int_range; lia).
    assert (∃ dh dm dd,
              hits (stats c1) = hits (stats c) + dh ∧
              misses (stats c1) = misses (stats c) + dm ∧
              dirty_write_backs (stats c1)
              = dirty_write_backs (stats c) + dd ∧
              dh = (if h then 1 else 0) ∧ dm = (if h then 0 else 1) ∧
              0 <= dd <= dm) as (dh & dm & dd & H1 & H2 & H3 & -> & -> & Hdd).
    { destruct h.
      - exists 1, 0, 0. rewrite Hacc. simpl. rewrite Hw by lia. lia.
      - destruct Hacc as [-> | ->]; simpl.
        + exists 0, 1, 0. rewrite Hw by lia. lia.
        + exists 0, 1, 1. rewrite !Hw by lia. lia. }
    destruct (IH c1 c' hs' Hrest) as (Hl & H4 & H5 & H6 & H7);
      [destruct h; lia..|].
    simpl length. destruct h; lia.
Qed.

End Statistics.

(** X11: in any cache state, an access that returns counts exactly once: a
    hit increments [hits] and leaves [misses] and [dirty_write_backs]; a
    miss increments [misses], leaves [hits], and increments
    [dirty_write_backs] by one or not at all (increments are the [++] of a C
    [int]). *)
Theorem access_counts_once c op c' h :
  access_cache c op = Return (c', h) →
  if h then
    get_cache_hits c' = int_wrap (get_cache_hits c + 1) ∧
    get_cache_misses c' = get_cache_misses c ∧
    get_dirty_write_backs c' = get_dirty_write_backs c
  else
    get_cache_hits c' = get_cache_hits c ∧
    get_cache_misses c' = int_wrap (get_cache_misses c + 1) ∧
    (get_dirty_write_backs c' = get_dirty_write_backs c ∨
     get_dirty_write_backs c' = int_wrap (get_dirty_write_backs c + 1)).
Proof.
  intros H%access_cache_stats.
  unfold get_cache_hits, get_cache_misses, get_dirty_write_backs.
  destruct h; [by rewrite H|].
  destruct H as [-> | ->]; simpl; auto.
Qed.

Lemma access_counts_once_witness :
  let c := mkCache 1 1 512 30 2 2
             [mkSet [mkLine 0 false false 0]; mkSet [mkLine 7 true true 0]]
             (mkStats 5 3 1) 9 1 in
  let c' := mkCache 1 1 512 30 2 2
              [mkSet [mkLine 0 false false 0]; mkSet [mkLine 4 true false 0]]
              (mkStats 5 4 2) 9 1 in
  get_cache_hits c' = get_cache_hits c ∧
  get_cache_misses c' = int_wrap (get_cache_misses c + 1) ∧
  (get_dirty_write_backs c' = get_dirty_write_backs c ∨
   get_dirty_write_backs c' = int_wrap (get_dirty_write_backs c + 1)).
Proof.
  intros c c'.
  apply (access_counts_once c (mkOp "l" 0x1200 1) c' false).
  by_evaluation.
Defined.

(** X12: replaying fewer than [2^31] accesses on a freshly constructed
    cache of a validated geometry returns one outcome per access; [hits] is
    the number of hits among them, [misses] the number of misses, their sum
    the number of accesses, and [dirty_write_backs] is at most [misses]. *)
Theorem replay_counts_every_access a s l p d :
  valid_geometry a s l →
  ∃ c0, initialize_cache a s l p d = Some c0 ∧
    ∀ ops, Z.of_nat (length ops) < 2 ^ 31 →
      ∃ c hs, run_trace c0 ops = Return (c, hs) ∧
        length hs = length ops ∧
        get_cache_hits c = count_hits hs ∧
        get_cache_misses c = count_misses hs ∧
        get_cache_hits c + get_cache_misses c = Z.of_nat (length ops) ∧
        0 <= get_dirty_write_backs c <= get_cache_misses c.
Proof.
  intros Hvalid.
  destruct (initialize_cache_valid _ _ _ p d Hvalid)
    as (c0 & Hc0 & _ & _ & _ & Hst & _).
  exists c0. split; [done|]. intros ops Hlen.
  pose proof (initialize_cache_inv _ _ _ _ _ _ Hvalid Hc0) as Hinv0.
  destruct (run_trace_inv ops c0 Hinv0) as (c & hs & Hrun & _ & _).
  exists c, hs. split; [done|].
  destruct (run_trace_counts ops c0 c hs Hrun)
    as (Hl & Hh & Hm & Hd1 & Hd2); rewrite ?Hst; simpl; try lia.
  rewrite Hst in *. simpl in *.
  pose proof (count_hits_misses hs) as (? & ? & Hsum).
  unfold get_cache_hits, get_cache_misses, get_dirty_write_backs.
  split_and!; lia.
Qed.

Lemma replay_counts_every_access_witness :
  ∃ c0, initialize_cache 2 1 512 30 2 = Some c0 ∧
    ∀ ops, Z.of_nat (length ops) < 2 ^ 31 →
      ∃ c hs, run_trace c0 ops = Return (c, hs) ∧
        length hs = length ops ∧
        get_cache_hits c = count_hits hs ∧
        get_cache_misses c = count_misses hs ∧
        get_cache_hits c + get_cache_misses c = Z.of_nat (length ops) ∧
        0 <= get_dirty_write_backs c <= get_cache_misses c.
Proof. apply (replay_counts_every_access 2 1 512 30 2). geometry_is_valid. Defined.

(** * Further properties: invariants of a replay *)

Section ReplayInvariants.
Implicit Types (c : Cache) (ls : list CacheLine) (l : CacheLine).

(** A property kept by every access of a kind is kept by a replay of
    accesses of that kind. *)
Lemma run_trace_preserves (P : Cache → Prop) (Q : CacheOp → Prop) :
  (∀ c op c' h, cache_inv c → P c → Q op →
                access_cache c op = Return (c', h) → P c') →
  ∀ ops c c' hs, cache_inv c → P c → Forall Q ops →
                 run_trace c ops = Return (c', hs) → P c'.
Proof.
  intros Hstep. induction ops as [|op ops IH]; intros c c' hs Hinv HP HQ Hrun;
    simpl in Hrun.
  - by simplify_eq.
  - apply Forall_cons in HQ as [Hop HQ].
    destruct (access_cache_inv c op Hinv) as (c1 & h & Hacc & Hinv1).
    rewrite Hacc in Hrun.
    destruct (run_trace c1 ops) as [[c2 hs']| |] eqn:Hrest; [|done..].
    simplify_eq. eapply IH; [exact Hinv1 | | exact HQ | exact Hrest].
    by apply (Hstep c op c1 h).
Qed.

(** Lines after an access, seen from the lines before. *)
Lemma set_access_fields st tg ls ls' hit wb i li' :
  set_access st tg ls = Some (ls', hit, wb) → ls' !! i = Some li' →
  (∃ li, ls !! i = Some li ∧ tag li' = tag li ∧
         is_valid li' = is_valid li ∧
         (st = false → is_dirty li' = is_dirty li)) ∨
  (hit = false ∧ i = victim ls ∧ tag li' = tg ∧ is_valid li' = true ∧
   is_dirty li' = st).
Proof.
  unfold set_access. intros Hset Hli'.
  destruct (list_find (matches tg) ls) as [[j l]|] eqn:Hfind.
  - injection Hset as <- <- <-. left.
    apply list_find_Some in Hfind as (Hl & _).
    unfold hit_lines in Hli'. destruct st.
    + destruct (hit_lines_fields true ls j l i li') as (li & ? & ? & ?);
        [done | done |]. exists li. by split_and!.
    + destruct (promoted_fields ls j l i li' Hli' Hl) as (li & ? & ? & ? & ?).
      exists li. by split_and!.
  - destruct (ls !! victim ls) as [lv|] eqn:Hv; [|done].
    injection Hset as <- <- <-. unfold miss_lines in Hli'.
    set (filled := mkLine tg true st (lru_order lv)) in *.
    assert (<[victim ls := filled]> ls !! victim ls = Some filled) as Hf.
    { apply list_lookup_insert_eq. by eapply lookup_lt_Some. }
    destruct (promoted_fields _ _ _ _ _ Hli' Hf) as (li & Hli & Ht & Hva & Hd).
    destruct (decide (i = victim ls)) as [->|Hne].
    + right. rewrite Hf in Hli. simplify_eq. by split_and!.
    + left. rewrite list_lookup_insert_ne in Hli by done.
      exists li. by split_and!.
Qed.

Lemma set_access_length st tg ls ls' hit wb :
  set_access st tg ls = Some (ls', hit, wb) → length ls' = length ls.
Proof.
  unfold set_access. intros Hset.
  destruct (list_find (matches tg) ls) as [[j l]|].
  - injection Hset as <- <- <-. apply hit_lines_length.
  - destruct (ls !! victim ls) as [lv|]; [|done].
    injection Hset as <- <- <-. apply miss_lines_length.
Qed.

(** A miss means that no valid line holds the tag. *)
Lemma set_access_miss st tg ls ls' wb :
  set_access st tg ls = Some (ls', false, wb) →
  Forall (λ l, ¬ matches tg l) ls ∧
  ∃ lv, ls !! victim ls = Some lv ∧ wb = is_dirty lv.
Proof.
  unfold set_access. intros Hset.
  destruct (list_find (matches tg) ls) as [[j l]|] eqn:Hfind; [done|].
  apply list_find_None in Hfind. split; [done|].
  destruct (ls !! victim ls) as [lv|]; [|done]. simplify_eq/=. eauto.
Qed.

Lemma set_access_distinct st tg ls ls' hit wb :
  distinct_tags ls → set_access st tg ls = Some (ls', hit, wb) →
  distinct_tags ls'.
Proof.
  intros Hd Hset i j li' lj' Hi Hj Hvi Hvj Htag.
  destruct (set_access_fields _ _ _ _ _ _ _ _ Hset Hi)
    as [(li & Hli & Hti & Hvali & _) | (Hh & -> & Hti & _)];
  destruct (set_access_fields _ _ _ _ _ _ _ _ Hset Hj)
    as [(lj & Hlj & Htj & Hvalj & _) | (Hh' & -> & Htj & _)]; try done.
  - apply (Hd i j li lj); congruence.
  - subst hit. destruct (set_access_miss _ _ _ _ _ Hset) as [Hnone _].
    destruct (Forall_lookup_1 _ _ _ _ Hnone Hli). unfold matches.
    rewrite <- Hvali, Hvi. simpl. apply Z.eqb_eq. congruence.
  - subst hit. destruct (set_access_miss _ _ _ _ _ Hset) as [Hnone _].
    destruct (Forall_lookup_1 _ _ _ _ Hnone Hlj). unfold matches.
    rewrite <- Hvalj, Hvj. simpl. apply Z.eqb_eq. congruence.
Qed.

(** The sets after an access, from the set-level step. *)
Lemma access_cache_sets c op c' h :
  cache_inv c → access_cache c op = Return (c', h) →
  let si := extract_set_index (address op) c in
  let tg := extract_tag_number (address op) c in
  ∃ s ls' wb k,
    0 <= si ∧ sets c !! Z.to_nat si = Some s ∧ set_inv k (lines s) ∧
    (0 < length (lines s))%nat ∧
    set_access (is_store op) tg (lines s) = Some (ls', h, wb) ∧
    sets c' = <[Z.to_nat si := mkSet ls']> (sets c) ∧
    stats c' = account h wb (stats c).
Proof.
  intros Hinv Hacc si tg.
  destruct (access_cache_step c op Hinv)
    as (s & k & ls' & hit & wb & k' & Hsi & Hs & Hlen & Hk & Hset & _ & _
        & Hret).
  fold si tg in Hsi, Hs, Hset, Hret.
  rewrite Hacc in Hret. injection Hret as -> <-.
  destruct Hinv as (Hgeom & _).
  destruct (geometry_ok_ways _ Hgeom) as [Hways _].
  exists s, ls', wb, k. split_and!; try done. lia.
Qed.

Lemma access_cache_distinct c op c' h :
  cache_inv c → Forall (λ s, distinct_tags (lines s)) (sets c) →
  access_cache c op = Return (c', h) →
  Forall (λ s, distinct_tags (lines s)) (sets c').
Proof.
  intros Hinv Hd Hacc.
  destruct (access_cache_sets c op c' h Hinv Hacc)
    as (s & ls' & wb & k & _ & Hs & _ & _ & Hset & -> & _).
  apply Forall_insert; [done|]. simpl.
  eapply set_access_distinct; [|exact Hset].
  apply (Forall_lookup_1 _ _ _ _ Hd Hs).
Qed.

Lemma access_cache_clean c op c' h :
  cache_inv c →
  all_clean c ∧ dirty_write_backs (stats c) = 0 →
  is_store op = false →
  access_cache c op = Return (c', h) →
  all_clean c' ∧ dirty_write_backs (stats c') = 0.
Proof.
  intros Hinv [Hclean Hdwb] Hst Hacc.
  destruct (access_cache_sets c op c' h Hinv Hacc)
    as (s & ls' & wb & k & _ & Hs & _ & _ & Hset & Hsets & Hstats).
  rewrite Hst in Hset.
  pose proof (Forall_lookup_1 _ _ _ _ Hclean Hs) as Hcs. simpl in Hcs.
  split.
  - unfold all_clean. rewrite Hsets. apply Forall_insert; [done|]. simpl.
    apply Forall_lookup. intros i li' Hli'.
    destruct (set_access_fields _ _ _ _ _ _ _ _ Hset Hli')
      as [(li & Hli & _ & _ & Hd) | (_ & _ & _ & _ & Hd)]; [|done].
    rewrite Hd by done. apply (Forall_lookup_1 _ _ _ _ Hcs Hli).
  - rewrite Hstats. destruct h; [done|].
    destruct (set_access_miss _ _ _ _ _ Hset) as (_ & lv & Hlv & ->).
    rewrite (Forall_lookup_1 _ _ _ _ Hcs Hlv). done.
Qed.

Lemma reachable_preserves (P : Cache → Prop) :
  (∀ (a s l p d : Z) c0, valid_geometry a s l →
                         initialize_cache a s l p d = Some c0 → P c0) →
  (∀ c op c' h, cache_inv c → P c →
                access_cache c op = Return (c', h) → P c') →
  ∀ c, reachable c → P c.
Proof.
  intros Hinit Hstep c
    (a & s & l & p & d & c0 & ops & hs & Hvalid & Hc0 & Hrun).
  apply (run_trace_preserves P (λ _, True)) with ops c0 hs; try done.
  - intros ? ? ? ? ? ? _ ?. by eapply Hstep.
  - by eapply initialize_cache_inv.
  - by eapply Hinit.
  - by apply Forall_true.
Qed.

End ReplayInvariants.

(** X13: replaying accesses none of which is a store (['s']) on a freshly
    constructed cache of a validated geometry never writes back: the replay
    returns, [dirty_write_backs] is [0] and no line is dirty. *)
Theorem trace_without_stores_never_writes_back a s l p d :
  valid_geometry a s l →
  ∃ c0, initialize_cache a s l p d = Some c0 ∧
    ∀ ops, Forall (λ op, access_type op ≠ "s"%char) ops →
      ∃ c hs, run_trace c0 ops = Return (c, hs) ∧
              get_dirty_write_backs c = 0 ∧ all_clean c.
Proof.
  intros Hvalid.
  destruct (initialize_cache_valid _ _ _ p d Hvalid)
    as (c0 & Hc0 & _ & _ & _ & Hst & Hsets).
  exists c0. split; [done|]. intros ops Hops.
  pose proof (initialize_cache_inv _ _ _ _ _ _ Hvalid Hc0) as Hinv0.
  destruct (run_trace_inv ops c0 Hinv0) as (c & hs & Hrun & _ & _).
  exists c, hs. split; [done|].
  cut (all_clean c ∧ dirty_write_backs (stats c) = 0); [by intros [? ?]|].
  apply (run_trace_preserves
           (λ c, all_clean c ∧ dirty_write_backs (stats c) = 0)
           (λ op, access_type op ≠ "s"%char)) with ops c0 hs; try done.
  - intros c1 op c2 h Hinv1 HP Hk Hacc.
    eapply access_cache_clean; [done | done | | exact Hacc].
    unfold is_store. by apply Ascii.eqb_neq.
  - split; [|by rewrite Hst].
    unfold all_clean. rewrite Hsets. apply Forall_replicate. simpl.
    apply Forall_fmap, Forall_true. done.
Qed.

Lemma trace_without_stores_never_writes_back_witness :
  ∃ c0, initialize_cache 2 1 512 30 2 = Some c0 ∧
    ∀ ops, Forall (λ op, access_type op ≠ "s"%char) ops →
      ∃ c hs, run_trace c0 ops = Return (c, hs) ∧
              get_dirty_write_backs c = 0 ∧ all_clean c.
Proof.
  apply (trace_without_stores_never_writes_back 2 1 512 30 2).
  geometry_is_valid.
Defined.

(** X14: in every reachable cache no block is resident twice: two valid
    lines of one set never hold the same tag. *)
Theorem resident_tags_are_distinct c :
  reachable c → Forall (λ s, distinct_tags (lines s)) (sets c).
Proof.
  apply (reachable_preserves
           (λ c, Forall (λ s, distinct_tags (lines s)) (sets c))).
  - intros a s l p d c0 Hvalid Hc0.
    destruct (initialize_cache_valid _ _ _ p d Hvalid)
      as (c0' & Hc0' & _ & _ & _ & _ & Hsets).
    rewrite Hc0 in Hc0'. simplify_eq.
    rewrite Hsets. apply Forall_replicate.
    intros i j li lj Hi _ Hvi _ _. simpl in Hi.
    rewrite list_lookup_fmap in Hi.
    destruct (seq 0 _ !! i); by simplify_eq/=.
  - intros c1 op c2 h Hinv HP Hacc. by eapply access_cache_distinct.
Qed.

Lemma resident_tags_are_distinct_witness :
  let c := mkCache 2 1 512 30 2 1
             [mkSet [mkLine 1 true false 1; mkLine 2 true true 0]]
             (mkStats 0 2 0) 9 0 in
  Forall (λ s, distinct_tags (lines s)) (sets c).
Proof.
  intros c. apply (resident_tags_are_distinct c).
  exists 2, 1, 512, 30, 2.
  exists (mkCache 2 1 512 30 2 1
            [mkSet [mkLine 0 false false 0; mkLine 0 false false 1]]
            (mkStats 0 0 0) 9 0), [mkOp "l" 0x200 1; mkOp "s" 0x400 1],
         [false; false].
  split_and!; [geometry_is_valid | by_evaluation..].
Defined.

(** * Further properties: replacement *)

Section Replacement.
Implicit Types (c : Cache) (ls : list CacheLine) (l : CacheLine).

Lemma decode_same_geometry c c' x :
  same_geometry c c' →
  extract_set_index x c' = extract_set_index x c ∧
  extract_tag_number x c' = extract_tag_number x c.
Proof.
  intros (_ & _ & _ & _ & _ & Hn & Hl & Hs).
  unfold extract_set_index, extract_tag_number. by rewrite Hn, Hl, Hs.
Qed.

(** A set in which no valid line holds the tag gives a miss. *)
Lemma not_resident_misses c op ls :
  cache_inv c →
  let si := extract_set_index (address op) c in
  let tg := extract_tag_number (address op) c in
  get_lines c si = Some ls → Forall (λ l, ¬ matches tg l) ls →
  ∃ c', access_cache c op = Return (c', false).
Proof.
  intros Hinv si tg Hg Hnone.
  destruct (access_cache_step c op Hinv)
    as (s & k & ls' & hit & wb & k' & Hsi & Hs & _ & _ & Hset & _ & _ & Hret).
  fold si tg in Hs, Hset, Hret.
  apply get_lines_Some in Hg as (_ & s' & Hs' & <-).
  rewrite Hs in Hs'. simplify_eq.
  unfold set_access in Hset.
  destruct (list_find (matches tg) (lines s')) as [[j l]|] eqn:Hfind.
  - apply list_find_Some in Hfind as (Hl & Hm & _).
    by destruct (Forall_lookup_1 _ _ _ _ Hnone Hl).
  - destruct (lines s' !! victim (lines s')); [|done]. simplify_eq/=. eauto.
Qed.

(** With two lines or more, the victim is never the line of rank [0]. *)
Lemma victim_is_not_most_recent k ls j l :
  set_inv k ls → (2 <= length ls)%nat →
  ls !! j = Some l → is_valid l = true → lru_order l = 0 →
  victim ls ≠ j.
Proof.
  intros Hinv Hlen Hl Hv Hr Heq.
  pose proof (victim_set_inv k ls Hinv ltac:(lia)) as Hvic.
  pose proof (inv_fill _ _ Hinv) as Hfill.
  case_decide as Hk.
  - rewrite Heq in Hvic. subst j.
    rewrite (inv_valid _ _ Hinv _ _ Hl) in Hv.
    apply bool_decide_eq_true_1 in Hv. lia.
  - assert (Forall (λ l, is_valid l = true) ls) as Hall.
    { apply Forall_lookup. intros i li Hli.
      rewrite (inv_valid _ _ Hinv _ _ Hli). apply bool_decide_eq_true_2.
      pose proof (lookup_lt_Some _ _ _ Hli). lia. }
    destruct (victim_choice ls) as (lv & Hlv & _ & Hwarm);
      [lia | by eapply set_inv_nonneg |].
    destruct (Hwarm Hall) as [Hmax _].
    rewrite Heq, Hl in Hlv. simplify_eq. rewrite Hr in Hmax.
    destruct (lookup_lt_is_Some_2 ls 0) as [l0 Hl0]; [lia|].
    destruct (lookup_lt_is_Some_2 ls 1) as [l1 Hl1]; [lia|].
    pose proof (Forall_lookup_1 _ _ _ _ Hmax Hl0) as H0.
    pose proof (Forall_lookup_1 _ _ _ _ Hmax Hl1) as H1.
    pose proof (inv_rank _ _ Hinv _ _ Hl0 ltac:(lia)).
    pose proof (inv_rank _ _ Hinv _ _ Hl1 ltac:(lia)).
    simpl in *.
    assert (0%nat = 1%nat); [|done].
    apply (inv_inj _ _ Hinv 0%nat 1%nat l0 l1); (done || lia).
Qed.

End Replacement.

(** X15: in a reachable cache with at least two ways, the block of an
    access survives the access that follows: whatever is accessed next,
    hit or miss, in the same set or another, an access to the first address
    after it is a hit. *)
Theorem most_recent_block_survives_next_access c op1 c1 h1 op2 c2 h2 k n :
  reachable c → 2 <= associativity c →
  access_cache c op1 = Return (c1, h1) →
  access_cache c1 op2 = Return (c2, h2) →
  ∃ c3, access_cache c2 (mkOp k (address op1) n) = Return (c3, true).
Proof.
  intros Hreach Hways Hacc1 Hacc2.
  pose proof (reachable_step _ _ _ _ Hreach Hacc1) as Hreach1.
  pose proof (reachable_step _ _ _ _ Hreach1 Hacc2) as Hreach2.
  pose proof (reachable_inv _ Hreach) as Hinv.
  pose proof (reachable_inv _ Hreach1) as Hinv1.
  pose proof (reachable_inv _ Hreach2) as Hinv2.
  destruct (accessed_line c op1 c1 h1 Hinv Hacc1)
    as (ls1 & j & ln & Hg1 & Hln & Hv & Ht & Hr & _).
  destruct (access_cache_frame _ _ _ _ Hacc1) as (Hgeo1 & _).
  destruct (access_cache_frame _ _ _ _ Hacc2) as (Hgeo2 & _).
  destruct (decode_same_geometry c c1 (address op1) Hgeo1) as [Hsi1 Htg1].
  destruct (decode_same_geometry c1 c2 (address op1) Hgeo2) as [Hsi2 Htg2].
  set (si1 := extract_set_index (address op1) c) in *.
  set (tg1 := extract_tag_number (address op1) c) in *.
  destruct (access_cache_sets c1 op2 c2 h2 Hinv1 Hacc2)
    as (s & ls2 & wb & k1 & Hsi & Hs & Hk1 & _ & Hset & Hsets & _).
  set (si2 := extract_set_index (address op2) c1) in *.
  pose proof Hg1 as Hg1'.
  apply get_lines_Some in Hg1' as (Hsi1pos & s1 & Hs1 & Hls1).
  assert (∃ ls j' l', get_lines c2 si1 = Some ls ∧ ls !! j' = Some l' ∧
                      matches tg1 l') as (ls & j' & l' & Hg & Hl' & Hm).
  { destruct (decide (si2 = si1)) as [Heq|Hne].
    - rewrite Heq in *. rewrite Hs1 in Hs. simplify_eq.
      exists ls2. 
      destruct (lookup_lt_is_Some_2 ls2 j) as [lj Hlj].
      { rewrite (set_access_length _ _ _ _ _ _ Hset).
        by eapply lookup_lt_Some. }
      exists j, lj. split_and!; [| done |].
      + apply get_lines_Some. split; [done|]. exists (mkSet ls2).
        split; [|done]. rewrite Hsets.
        apply list_lookup_insert_eq. by eapply lookup_lt_Some.
      + destruct (set_access_fields _ _ _ _ _ _ _ _ Hset Hlj)
          as [(li & Hli & Hti & Hvi & _) | (_ & Hvic & _)].
        * rewrite Hln in Hli. simplify_eq. unfold matches.
          rewrite Hvi, Hv, Hti. simpl. by apply Z.eqb_eq.
        * exfalso.
          apply (victim_is_not_most_recent k1 (lines s) j ln); try done.
          destruct Hinv1 as (_ & _ & Hall).
          destruct (Forall_lookup_1 _ _ _ _ Hall Hs1) as [Hlen _].
          destruct Hgeo1 as (Ha & _). rewrite Hlen, Ha. lia.
    - exists ls1, j, ln. split_and!; [| done |].
      + apply get_lines_Some. split; [done|]. exists s1. split; [|done].
        rewrite Hsets. rewrite list_lookup_insert_ne by lia. done.
      + unfold matches. rewrite Hv, Ht. simpl. by apply Z.eqb_eq. }
  eapply (resident_hits c2 (mkOp k (address op1) n) ls j' l'); simpl;
    try done.
  - by rewrite Hsi2, Hsi1.
  - by rewrite Htg2, Htg1.
Qed.

Lemma most_recent_block_survives_next_access_witness :
  let c := mkCache 2 1 512 30 2 1
             [mkSet [mkLine 1 true false 1; mkLine 2 true true 0]]
             (mkStats 0 2 0) 9 0 in
  let c1 := mkCache 2 1 512 30 2 1
              [mkSet [mkLine 3 true false 0; mkLine 2 true true 1]]
              (mkStats 0 3 0) 9 0 in
  let c2 := mkCache 2 1 512 30 2 1
              [mkSet [mkLine 3 true false 1; mkLine 4 true false 0]]
              (mkStats 0 4 1) 9 0 in
  ∃ c3, access_cache c2 (mkOp "s" 0x600 1) = Return (c3, true).
Proof.
  intros c c1 c2.
  apply (most_recent_block_survives_next_access
           c (mkOp "l" 0x600 1) c1 false (mkOp "l" 0x800 1) c2 false "s" 1).
  - exists 2, 1, 512, 30, 2.
    exists (mkCache 2 1 512 30 2 1
              [mkSet [mkLine 0 false false 0; mkLine 0 false false 1]]
              (mkStats 0 0 0) 9 0), [mkOp "l" 0x200 1; mkOp "s" 0x400 1],
           [false; false].
    split_and!; [geometry_is_valid | by_evaluation..].
  - simpl. lia.
  - by_evaluation.
  - by_evaluation.
Defined.

(** X16: in a reachable cache with a single way per set (direct mapped),
    after any access an access to another block of the same set is a miss:
    the set holds the one block accessed last. *)
Theorem single_way_conflict_misses c op c' h k a' n :
  reachable c → associativity c = 1 →
  access_cache c op = Return (c', h) →
  extract_set_index a' c = extract_set_index (address op) c →
  extract_tag_number a' c ≠ extract_tag_number (address op) c →
  ∃ c'', access_cache c' (mkOp k a' n) = Return (c'', false).
Proof.
  intros Hreach Hone Hacc Hsi Htg.
  pose proof (reachable_inv _ Hreach) as Hinv.
  pose proof (reachable_inv _ (reachable_step _ _ _ _ Hreach Hacc)) as Hinv'.
  destruct (accessed_line c op c' h Hinv Hacc)
    as (ls' & j & ln & Hg & Hln & Hv & Ht & _).
  destruct (access_cache_frame _ _ _ _ Hacc) as (Hgeo & _).
  destruct (decode_same_geometry c c' a' Hgeo) as [Hsi' Htg'].
  assert (length ls' = 1%nat) as Hlen.
  { pose proof Hg as (_ & s' & Hs' & <-)%get_lines_Some.
    destruct Hinv' as (_ & _ & Hall).
    destruct (Forall_lookup_1 _ _ _ _ Hall Hs') as [-> _].
    destruct Hgeo as (-> & _). by rewrite Hone. }
  destruct ls' as [|l0 [|? ?]]; simplify_eq/=.
  destruct j; simplify_eq/=.
  eapply (not_resident_misses c' (mkOp k a' n) [ln]); simpl; try done.
  - by rewrite Hsi', Hsi.
  - apply Forall_singleton. unfold matches. rewrite Htg', Hv. simpl.
    intros Heq%Z.eqb_eq. congruence.
Qed.

Lemma single_way_conflict_misses_witness :
  let c := mkCache 1 1 512 30 2 2
             [mkSet [mkLine 0 false false 0]; mkSet [mkLine 0 false false 0]]
             (mkStats 0 0 0) 9 1 in
  let c' := mkCache 1 1 512 30 2 2
              [mkSet [mkLine 0 true false 0]; mkSet [mkLine 0 false false 0]]
              (mkStats 0 1 0) 9 1 in
  ∃ c'', access_cache c' (mkOp "s" 0x400 1) = Return (c'', false).
Proof.
  intros c c'.
  apply (single_way_conflict_misses c (mkOp "l" 0x000 1) c' false "s" 0x400 1).
  - exists 1, 1, 512, 30, 2, c, [], [].
    split_and!; [geometry_is_valid | by_evaluation..].
  - reflexivity.
  - by_evaluation.
  - by_evaluation.
  - vm_compute. lia.
Defined.

(** * Further properties: the trace replay of [main.c] *)

Section TraceReplay.
Implicit Types (c : Cache) (ts : TraceStats) (r : CacheOp).

Lemma int_wrap_range_of z : int_range (int_wrap z).
Proof.
  unfold int_range, int_wrap.
  pose proof (Z.mod_pos_bound (z + 2 ^ 31) (2 ^ 32)). lia.
Qed.

Lemma count_type_cons k r records :
  count_type k (r :: records)
  = (if Ascii.eqb (access_type r) k then 1 else 0) + count_type k records.
Proof.
  unfold count_type. simpl. destruct (Ascii.eqb (access_type r) k); simpl; lia.
Qed.

Lemma count_type_bounds records :
  0 <= count_type "l" records ∧ 0 <= count_type "s" records ∧
  count_type "l" records + count_type "s" records
  <= Z.of_nat (length records).
Proof.
  induction records as [|r records IH].
  - unfold count_type. simpl. lia.
  - rewrite !count_type_cons. simpl length.
    destruct (Ascii.eqb_spec (access_type r) "l") as [Hl|Hl],
             (Ascii.eqb_spec (access_type r) "s") as [Hs|Hs]; try lia.
    rewrite Hl in Hs. discriminate.
Qed.

(** The reading loop follows [run_trace] and adds up the trace statistics,
    each sum kept in an [int]. *)
Lemma simulate_loop_spec records : ∀ c ts c' hs,
  run_trace c records = Return (c', hs) →
  int_range (memory_access_count ts) → int_range (load_count ts) →
  int_range (store_count ts) → int_range (instruction_count ts) →
  int_range (cycle_count ts) →
  ∃ ts',
    simulate_loop c ts records = Return (c', ts') ∧
    memory_access_count ts'
    = int_wrap (memory_access_count ts + Z.of_nat (length records)) ∧
    load_count ts' = int_wrap (load_count ts + count_type "l" records) ∧
    store_count ts' = int_wrap (store_count ts + count_type "s" records) ∧
    instruction_count ts'
    = int_wrap (instruction_count ts + total_instructions records) ∧
    cycle_count ts'
    = int_wrap (cycle_count ts + total_instructions records
                + count_misses hs * miss_penalty c).
Proof.
  induction records as [|r records IH];
    intros c ts c' hs Hrun Hr1 Hr2 Hr3 Hr4 Hr5; simpl in Hrun.
  - simplify_eq. exists ts. unfold count_type, count_misses. simpl.
    rewrite !Z.add_0_r, !int_wrap_id by done. done.
  - destruct (access_cache c r) as [[c1 h]| |] eqn:Hacc; [|done..].
    destruct (run_trace c1 records) as [[c2 hs']| |] eqn:Hrest; [|done..].
    simplify_eq. simpl simulate_loop. unfold process_trace_line.
    unfold initialize_cache_operation.
    replace (mkOp (access_type r) (address r) (instructions r)) with r
      by (by destruct r).
    rewrite Hacc.
    destruct (access_cache_frame _ _ _ _ Hacc)
      as ((_ & _ & _ & Hmp & _) & _).
    match goal with
    | |- context [simulate_loop c1 ?t records] =>
        destruct (IH c1 t c' hs' Hrest)
          as (ts' & Hloop & H1 & H2 & H3 & H4 & H5)
    end.
    1-5: destruct (Ascii.eqb (access_type r) "l"),
                  (Ascii.eqb (access_type r) "s"), h;
         simpl; (done || apply int_wrap_range_of).
    exists ts'. split; [exact Hloop|].
    rewrite H1, H2, H3, H4, H5. clear H1 H2 H3 H4 H5 Hloop.
    rewrite !count_type_cons, count_misses_cons, Hmp.
    simpl length. simpl total_instructions.
    destruct (Ascii.eqb_spec (access_type r) "l") as [Hl|Hl],
             (Ascii.eqb_spec (access_type r) "s") as [Hs|Hs];
      try (rewrite Hl in Hs; discriminate);
      destruct h; simpl;
      split_and!;
      repeat (rewrite <- ?Z.add_assoc; rewrite int_wrap_add_l);
      f_equal; lia.
Qed.

(** The penalties are those the cache was constructed with. *)
Lemma run_trace_penalties records c c' hs :
  cache_inv c → run_trace c records = Return (c', hs) →
  miss_penalty c' = miss_penalty c ∧ dirty_wb_penalty c' = dirty_wb_penalty c.
Proof.
  intros Hinv Hrun.
  apply (run_trace_preserves
           (λ c1, miss_penalty c1 = miss_penalty c
                  ∧ dirty_wb_penalty c1 = dirty_wb_penalty c)
           (λ _, True)) with (ops := records) (c := c) (hs := hs);
    [|done|done|by apply Forall_true|done].
  intros c1 op c2 h _ [Hm Hd] _ Hacc.
  destruct (access_cache_frame _ _ _ _ Hacc) as [(_ & _ & _ & ? & ? & _) _].
  split; congruence.
Qed.

End TraceReplay.

(** X17: a trace record whose operation is neither [l] nor [s] is not
    skipped: it is replayed as a load.  The cache, the cycles, the
    instructions and the number of memory accesses come out as for the load
    of the same address; only [load_count] is left as it was. *)
Theorem unrecognised_operation_is_replayed k a n c ts :
  k ≠ "l"%char → k ≠ "s"%char →
  match process_trace_line "l" a n c ts with
  | Return (c', tl) =>
      load_count tl = int_wrap (load_count ts + 1) ∧
      process_trace_line k a n c ts
      = Return (c', mkTrace (memory_access_count tl) (load_count ts)
                            (store_count tl) (instruction_count tl)
                            (cycle_count tl))
  | Exit => process_trace_line k a n c ts = Exit
  | Fault => process_trace_line k a n c ts = Fault
  end.
Proof.
  intros Hl Hs. unfold process_trace_line.
  rewrite (access_cache_kind c (initialize_cache_operation k a n)
             (initialize_cache_operation "l" a n)).
  - destruct (Ascii.eqb_spec k "l") as [|_]; [done|].
    destruct (Ascii.eqb_spec k "s") as [|_]; [done|].
    destruct (access_cache _ _) as [[c1 []]| |]; simpl; by destruct ts.
  - done.
  - unfold is_store. simpl. by destruct (Ascii.eqb_spec k "s").
Qed.

Lemma unrecognised_operation_is_replayed_witness :
  let c := mkCache 1 1 512 30 2 2
             [mkSet [mkLine 0 false false 0]; mkSet [mkLine 7 true true 0]]
             (mkStats 5 3 1) 9 1 in
  let ts := mkTrace 8 6 2 20 110 in
  match process_trace_line "l" 0x1200 3 c ts with
  | Return (c', tl) =>
      load_count tl = int_wrap (load_count ts + 1) ∧
      process_trace_line "x" 0x1200 3 c ts
      = Return (c', mkTrace (memory_access_count tl) (load_count ts)
                            (store_count tl) (instruction_count tl)
                            (cycle_count tl))
  | Exit => process_trace_line "x" 0x1200 3 c ts = Exit
  | Fault => process_trace_line "x" 0x1200 3 c ts = Fault
  end.
Proof.
  intros c ts.
  apply (unrecognised_operation_is_replayed "x" 0x1200 3 c ts); discriminate.
Defined.

(** X18: [simulate_cache] on a freshly constructed cache of a validated
    geometry returns for every trace, with the cache [run_trace] leaves.
    Kept in [int]s, the instructions are the sum over the records and the
    cycles are the instructions plus [miss_penalty] per miss plus
    [dirty_wb_penalty] per dirty write-back.  For fewer than [2^31] records
    the number of memory accesses is the number of records and equals
    hits plus misses, and the loads and stores are the records of type [l]
    and [s]: records of another type are accesses that are neither. *)
Theorem simulate_cache_totals a s l p d c records :
  valid_geometry a s l → initialize_cache a s l p d = Some c →
  ∃ c' hs ts,
    run_trace c records = Return (c', hs) ∧
    simulate_cache c records = Return (c', ts) ∧
    instruction_count ts = int_wrap (total_instructions records) ∧
    cycle_count ts
    = int_wrap (total_instructions records + count_misses hs * p
                + get_dirty_write_backs c' * d) ∧
    (Z.of_nat (length records) < 2 ^ 31 →
     memory_access_count ts = Z.of_nat (length records) ∧
     memory_access_count ts = get_cache_hits c' + get_cache_misses c' ∧
     get_cache_misses c' = count_misses hs ∧
     load_count ts = count_type "l" records ∧
     store_count ts = count_type "s" records ∧
     load_count ts + store_count ts <= memory_access_count ts).
Proof.
  intros Hvalid Hc.
  destruct (initialize_cache_valid _ _ _ p d Hvalid)
    as (c0 & Hc0 & _ & _ & _ & Hst & _).
  assert (c0 = c) as -> by congruence.
  pose proof (initialize_cache_inv _ _ _ _ _ _ Hvalid Hc) as Hinv.
  destruct (initialize_cache_fields _ _ _ _ _ _ Hc) as (_ & _ & Hp & Hd & _).
  destruct (run_trace_inv records c Hinv) as (c' & hs & Hrun & _ & Hlen).
  destruct (run_trace_penalties _ _ _ _ Hinv Hrun) as [_ Hd'].
  destruct (simulate_loop_spec records c (mkTrace 0 0 0 0 0) c' hs Hrun)
    as (ts & Hloop & H1 & H2 & H3 & H4 & H5);
    try (unfold int_range; simpl; lia).
  simpl in H1, H2, H3, H4, H5.
  exists c', hs. eexists. unfold simulate_cache. rewrite Hloop.
  split; [done|]. split; [done|]. simpl.
  rewrite H1, H2, H3, H4, H5, Hd', Hd, Hp.
  split; [done|]. split.
  { rewrite int_wrap_add_r, int_wrap_add_l. done. }
  intros Hfit.
  pose proof (count_type_bounds records) as (Hcl & Hcs & Hsum).
  destruct (run_trace_counts records c c' hs Hrun)
    as (_ & Hh & Hm & _); rewrite ?Hst; simpl; try lia.
  rewrite Hst in Hh, Hm. simpl in Hh, Hm.
  pose proof (count_hits_misses hs) as (_ & _ & Hhm).
  unfold get_cache_hits, get_cache_misses.
  rewrite !int_wrap_id by (unfold int_range; lia).
  split_and!; lia.
Qed.

Lemma simulate_cache_totals_witness :
  ∃ c, initialize_cache 2 1 512 30 2 = Some c ∧
  ∀ records, ∃ c' hs ts,
    run_trace c records = Return (c', hs) ∧
    simulate_cache c records = Return (c', ts) ∧
    instruction_count ts = int_wrap (total_instructions records) ∧
    cycle_count ts
    = int_wrap (total_instructions records + count_misses hs * 30
                + get_dirty_write_backs c' * 2) ∧
    (Z.of_nat (length records) < 2 ^ 31 →
     memory_access_count ts = Z.of_nat (length records) ∧
     memory_access_count ts = get_cache_hits c' + get_cache_misses c' ∧
     get_cache_misses c' = count_misses hs ∧
     load_count ts = count_type "l" records ∧
     store_count ts = count_type "s" records ∧
     load_count ts + store_count ts <= memory_access_count ts).
Proof.
  eexists. split; [by_evaluation|]. intros records.
  apply (simulate_cache_totals 2 1 512 30 2); [geometry_is_valid|by_evaluation].
Defined.

(** * Further properties: the command line *)

Section CommandLineFacts.
Variable atoi : String.string → Z.
Implicit Types (cfg : Config) (args pre rest : list String.string).

Lemma pairs_ind {A} (P : list A → Prop) :
  P [] → (∀ x, P [x]) → (∀ x y xs, P xs → P (x :: y :: xs)) → ∀ xs, P xs.
Proof.
  intros H0 H1 H2.
  assert (∀ xs, P xs ∧ ∀ x, P (x :: xs)) as H; [|intros xs; apply H].
  induction xs as [|y xs [IH1 IH2]]; split; auto.
Qed.

(** One round of the option loop: a known flag takes the next argument as
    its value, anything else ends the program. *)
Lemma parse_options_step flag value rest cfg :
  (flag ∈ option_flags ∧
   ∃ cfg', parse_options atoi (flag :: value :: rest) cfg
           = parse_options atoi rest cfg' ∧
           (int_range (atoi value) → config_range cfg → config_range cfg')) ∨
  ((flag ∉ option_flags) ∧
   parse_options atoi (flag :: value :: rest) cfg = None).
Proof.
  unfold option_flags, config_range. simpl.
  destruct (String.eqb_spec flag "-a") as [->|Ha];
    [left; split; [is_a_flag|]; eexists; split; [done|]; simpl; tauto|].
  destruct (String.eqb_spec flag "-l") as [->|Hl];
    [left; split; [is_a_flag|]; eexists; split; [done|]; simpl; tauto|].
  destruct (String.eqb_spec flag "-s") as [->|Hs];
    [left; split; [is_a_flag|]; eexists; split; [done|]; simpl; tauto|].
  destruct (String.eqb_spec flag "-p") as [->|Hp];
    [left; split; [is_a_flag|]; eexists; split; [done|]; simpl; tauto|].
  destruct (String.eqb_spec flag "-d") as [->|Hd];
    [left; split; [is_a_flag|]; eexists; split; [done|]; simpl; tauto|].
  right. split; [|done].
  rewrite !not_elem_of_cons. split_and!; (done || apply not_elem_of_nil).
Qed.

Lemma parse_options_app pre : ∀ rest cfg,
  Nat.Even (length pre) →
  parse_options atoi (pre ++ rest) cfg
  = parse_options atoi pre cfg ≫= parse_options atoi rest.
Proof.
  induction pre as [|x|x y pre IH] using pairs_ind; intros rest cfg Heven.
  - done.
  - destruct Heven as [[|n] Hn]; simpl in Hn; lia.
  - assert (Nat.Even (length pre)) as Hpre.
    { destruct Heven as [n Hn]. exists (n - 1)%nat. simpl in Hn. lia. }
    change ((x :: y :: pre) ++ rest) with (x :: y :: (pre ++ rest)). simpl.
    destruct (String.eqb x "-a"); [by apply IH|].
    destruct (String.eqb x "-l"); [by apply IH|].
    destruct (String.eqb x "-s"); [by apply IH|].
    destruct (String.eqb x "-p"); [by apply IH|].
    destruct (String.eqb x "-d"); [by apply IH|]. done.
Qed.

Lemma parse_options_range args : ∀ cfg cfg',
  (∀ s, int_range (atoi s)) → config_range cfg →
  parse_options atoi args cfg = Some cfg' → config_range cfg'.
Proof.
  induction args as [|x|x y args IH] using pairs_ind;
    intros cfg cfg' Hatoi Hcfg Hparse.
  - by simplify_eq/=.
  - by simplify_eq/=.
  - destruct (parse_options_step x y args cfg)
      as [(_ & cfg1 & Heq & Hr) | (_ & Heq)]; rewrite Heq in Hparse; [|done].
    eapply IH; [done| |done]. by apply Hr.
Qed.

End CommandLineFacts.

(** X19: the option loop reads the arguments in pairs of a flag and its
    value, from left to right: after an even number of arguments the rest is
    read from the configuration reached so far, and an exit in the first
    part is an exit of the whole.  In particular the trace file name that
    follows complete pairs is not read as an option. *)
Theorem options_are_read_in_pairs atoi pre rest file cfg :
  Nat.Even (length pre) →
  parse_options atoi (pre ++ rest) cfg
  = parse_options atoi pre cfg ≫= parse_options atoi rest ∧
  parse_options atoi (pre ++ [file]) cfg = parse_options atoi pre cfg.
Proof.
  intros Heven. split; [by apply parse_options_app|].
  rewrite parse_options_app by done.
  by destruct (parse_options atoi pre cfg).
Qed.

Lemma options_are_read_in_pairs_witness :
  parse_options atoi_digit
    (["-a"; "2"] ++ ["-l"; "8"; "gcc.trace"])%string default_config
  = parse_options atoi_digit ["-a"; "2"]%string default_config
    ≫= parse_options atoi_digit ["-l"; "8"; "gcc.trace"]%string ∧
  parse_options atoi_digit (["-a"; "2"] ++ ["gcc.trace"])%string
    default_config
  = parse_options atoi_digit ["-a"; "2"]%string default_config.
Proof.
  apply (options_are_read_in_pairs atoi_digit ["-a"; "2"]%string).
  exists 1%nat. reflexivity.
Defined.

(** X20: the option loop ends the program exactly when an argument in flag
    position (the first, the third, ... one, the last argument excluded) is
    none of [-a], [-l], [-s], [-p], [-d].  A flag is never reported for a
    missing value: the argument after it, be it the trace file name, is
    taken as the value. *)
Theorem invalid_option_exit atoi args cfg :
  parse_options atoi args cfg = None ↔
  ∃ pre flag value rest,
    args = pre ++ flag :: value :: rest ∧ Nat.Even (length pre) ∧
    flag ∉ option_flags.
Proof.
  revert cfg.
  induction args as [|x|x y args IH] using pairs_ind; intros cfg.
  - split; [done|]. intros (pre & ? & ? & ? & H & _). by destruct pre.
  - split; [done|]. intros (pre & ? & ? & ? & H & _).
    destruct pre as [|? [|? ?]]; done.
  - destruct (parse_options_step atoi x y args cfg)
      as [(Hin & cfg1 & -> & _) | (Hout & ->)].
    + rewrite IH. split.
      * intros (pre & flag & value & rest & -> & [n Hn] & Hflag).
        exists (x :: y :: pre), flag, value, rest. split_and!; [done| |done].
        exists (S n). simpl. lia.
      * intros (pre & flag & value & rest & Heq & [n Hn] & Hflag).
        destruct pre as [|a [|b pre]].
        -- simplify_eq/=. done.
        -- simpl in Hn. lia.
        -- simplify_eq/=. exists pre, flag, value, rest.
           split_and!; [done| |done]. exists (n - 1)%nat. lia.
    + split; [|done]. intros _. exists [], x, y, args. split_and!; [done| |done].
      by exists 0%nat.
Qed.

(** X21: [atoi] returning [int]s, a command line whose options are read to
    the end and whose settings [validate_args] accepts constructs a cache:
    [set_cache_configuration] returns, the cache is a reachable state (every
    set has its [associativity] invalid lines and the counters are zero) and
    carries the sizes and penalties of the command line. *)
Theorem accepted_configuration_constructs atoi argv cfg :
  (∀ s, int_range (atoi s)) →
  parse_options atoi (tail argv) default_config = Some cfg →
  validate_args (cfg_associativity cfg) (cfg_line_size cfg)
                (cfg_cache_size cfg) (cfg_miss_penalty cfg)
                (cfg_dirty_wb_penalty cfg) = true →
  ∃ c, set_cache_configuration atoi argv = Some c ∧
       reachable c ∧
       cache_size c = cfg_cache_size cfg ∧ line_size c = cfg_line_size cfg ∧
       miss_penalty c = cfg_miss_penalty cfg ∧
       dirty_wb_penalty c = cfg_dirty_wb_penalty cfg ∧
       stats c = mkStats 0 0 0 ∧
       sets c = replicate (Z.to_nat (num_sets c))
                          (initial_set (associativity c)).
Proof.
  intros Hatoi Hparse Hv.
  assert (config_range cfg) as (Ha & Hl & Hs & _).
  { eapply parse_options_range; [done| |done].
    unfold config_range, int_range. simpl. lia. }
  assert (valid_geometry (cfg_associativity cfg) (cfg_cache_size cfg)
                         (cfg_line_size cfg)) as Hvalid.
  { split_and!; try done.
    destruct (validate_args_accepts _ _ _ _ _ Ha Hl Hs Hv)
      as (_ & _ & li & j & Hli & Hj & Hle & -> & -> & Hassoc).
    apply validate_args_accepted; (done || lia). }
  destruct (initialize_cache_valid _ _ _ (cfg_miss_penalty cfg)
              (cfg_dirty_wb_penalty cfg) Hvalid)
    as (c & Hc & _ & Hcs & Hls & Hst & Hsets).
  destruct (initialize_cache_fields _ _ _ _ _ _ Hc) as (_ & _ & Hp & Hd & _).
  exists c. unfold set_cache_configuration. rewrite Hparse. simpl.
  rewrite Hv. split_and!; try done.
  by exists (cfg_associativity cfg), (cfg_cache_size cfg), (cfg_line_size cfg),
            (cfg_miss_penalty cfg), (cfg_dirty_wb_penalty cfg), c, [], [].
Qed.

Lemma accepted_configuration_constructs_witness :
  ∃ c, set_cache_configuration atoi_digit
         ["cachesim"; "-a"; "2"; "-s"; "4"; "gcc.trace"]%string = Some c ∧
       reachable c ∧
       cache_size c = 4 ∧ line_size c = 16 ∧
       miss_penalty c = 30 ∧ dirty_wb_penalty c = 2 ∧
       stats c = mkStats 0 0 0 ∧
       sets c = replicate (Z.to_nat (num_sets c))
                          (initial_set (associativity c)).
Proof.
  apply (accepted_configuration_constructs atoi_digit
           ["cachesim"; "-a"; "2"; "-s"; "4"; "gcc.trace"]%string
           (mkConfig 2 16 4 30 2)).
  - intros [|ch [|? ?]]; unfold int_range; simpl; try lia.
    pose proof (N_ascii_bounded ch). lia.
  - reflexivity.
  - by_evaluation.
Defined.
